(** * OneCrawl acquisition engine

    A shallow embedding of the parts of the OneCrawl sources that carry the
    orchestration logic: the two result caches, the retry loop and the batch
    windows of the scraper adapters, the Chrome DevTools Protocol page client
    and the per-profile browser session manager; and, around them, the
    adapter's browser handle, the use case that chooses a scraper, the
    cleanup of pending requests, the reading of [Cache-Control], the idle
    cleanup and shutdown of the session manager, and the random picks of the
    stealth utilities.

    Conventions.
    - JavaScript numbers that hold counts, indices and millisecond timestamps
      are integers of [Z]; [Math.floor (n * 0.1)] on such an [n] is [n / 10].
    - A JavaScript [Map] keeps insertion order; where the order is observable
      (the caches) it is an association list with unique keys ([JsMap]),
      elsewhere a [gmap].
    - A thrown value is a [Thrown]; a function that may throw returns it on the
      left of a sum or next to the state it leaves behind. *)

From Stdlib Require Import ZArith QArith Qround.
From stdpp Require Import gmap strings list sorting pretty.
Local Open Scope Z_scope.

(** ** Values that can be thrown *)

(** [error instanceof Error] holds of [ErrorObj]; anything else that is thrown
    (a string, a number, ...) is a [NonError] carrying its [String(..)] text. *)
Inductive Thrown : Type :=
| ErrorObj (message : string)
| NonError (text : string).

(** [error instanceof Error ? error : new Error(String(error))] *)
Definition toError (error : Thrown) : Thrown :=
  match error with
  | ErrorObj m => ErrorObj m
  | NonError s => ErrorObj s
  end.

(** ** JavaScript [Map] with string keys, in insertion order *)
Module JsMap.

Abbreviation jsmap V := (list (string * V)).

Section Ops.
Context {V : Type}.

(** [m.get(k)] *)
Fixpoint get (k : string) (m : jsmap V) : option V :=
  match m with
  | [] => None
  | (k', v) :: m' => if decide (k' = k) then Some v else get k m'
  end.

(** [m.set(k, v)]: an existing key keeps its position, a new one goes last. *)
Fixpoint set (k : string) (v : V) (m : jsmap V) : jsmap V :=
  match m with
  | [] => [(k, v)]
  | (k', v') :: m' =>
      if decide (k' = k) then (k, v) :: m' else (k', v') :: set k v m'
  end.

(** [m.delete(k)] *)
Definition delete (k : string) (m : jsmap V) : jsmap V :=
  filter (λ p, p.1 ≠ k) m.

(** [m.size] *)
Definition size (m : jsmap V) : Z := Z.of_nat (length m).

(** [[...m.keys()]] *)
Definition keys (m : jsmap V) : list string := m.*1.

(** [m.keys().next().value] *)
Definition first_key (m : jsmap V) : option string := head (keys m).

(** The representation invariant of a [Map]: no key occurs twice. *)
Definition wf (m : jsmap V) : Prop := NoDup (keys m).

End Ops.
End JsMap.

(** ** The fetch-pool result cache ([LruCache], adapters/fetch-pool) *)
Module LruCache.

(** [interface CacheEntry<T>] *)
Record CacheEntry (T : Type) : Type := mkEntry {
  data : T;
  timestamp : Z;
  etag : option string;
  lastModified : option string;
}.
Arguments mkEntry {T}.
Arguments data {T}.
Arguments timestamp {T}.
Arguments etag {T}.
Arguments lastModified {T}.

(** [class LruCache<T>]: the private fields. *)
Record LruCache (T : Type) : Type := mkCache {
  entries : JsMap.jsmap (CacheEntry T);
  maxSize : Z;
  ttl : Z;
}.
Arguments mkCache {T}.
Arguments entries {T}.
Arguments maxSize {T}.
Arguments ttl {T}.

Section Cache.
Context {T : Type}.

(** [constructor(maxSize = 500, ttl = 30 * 60 * 1000)] *)
Definition new (maxSize : option Z) (ttl : option Z) : LruCache T :=
  mkCache [] (default 500 maxSize) (default (30 * 60 * 1000) ttl).

Definition with_entries (c : LruCache T) (es : JsMap.jsmap (CacheEntry T)) : LruCache T :=
  mkCache es (maxSize c) (ttl c).

(** [get(key)], with [now] the value [Date.now()] returns when it is read. *)
Definition get (now : Z) (key : string) (c : LruCache T) : option (CacheEntry T) * LruCache T :=
  match JsMap.get key (entries c) with
  | None => (None, c)
  | Some entry =>
      if ttl c <? now - timestamp entry
      then (None, with_entries c (JsMap.delete key (entries c)))
      else (Some entry, c)
  end.

(** [getStale(key)] *)
Definition getStale (key : string) (c : LruCache T) : option (CacheEntry T) :=
  JsMap.get key (entries c).

(** The comparator [(a, b) => a[1].timestamp - b[1].timestamp] under
    [Array.prototype.sort], which is stable: insertion into a sorted list
    before the first element that is not older. *)
Fixpoint insert_by_timestamp (x : string * CacheEntry T) (l : JsMap.jsmap (CacheEntry T))
  : JsMap.jsmap (CacheEntry T) :=
  match l with
  | [] => [x]
  | y :: l' =>
      if timestamp x.2 <=? timestamp y.2 then x :: y :: l'
      else y :: insert_by_timestamp x l'
  end.

Definition sort_by_timestamp (l : JsMap.jsmap (CacheEntry T)) : JsMap.jsmap (CacheEntry T) :=
  foldr insert_by_timestamp [] l.

(** [Math.max(1, Math.floor(this.maxSize * 0.1))] *)
Definition evict_count (c : LruCache T) : Z := Z.max 1 (maxSize c / 10).

(** The loop [for (let i = 0; i < count; i++) this.entries.delete(sorted[i]![0])]:
    [sorted[i]] is [undefined] past the end of the array, and reading its
    component [0] throws a [TypeError]; the deletions made before stay. *)
Fixpoint evict_loop (n : nat) (sorted es : JsMap.jsmap (CacheEntry T))
  : option Thrown * JsMap.jsmap (CacheEntry T) :=
  match n with
  | O => (None, es)
  | S n' =>
      match sorted with
      | [] => (Some (ErrorObj "Cannot read properties of undefined (reading '0')"), es)
      | (k, _) :: rest => evict_loop n' rest (JsMap.delete k es)
      end
  end.

(** [private evict()] *)
Definition evict (c : LruCache T) : option Thrown * LruCache T :=
  let sorted := sort_by_timestamp (entries c) in
  let count := evict_count c in
  let '(thrown, es) := evict_loop (Z.to_nat count) sorted (entries c) in
  (thrown, with_entries c es).

(** [set(key, entry)] *)
Definition set (key : string) (entry : CacheEntry T) (c : LruCache T)
  : option Thrown * LruCache T :=
  if maxSize c <=? JsMap.size (entries c) then
    match evict c with
    | (Some thrown, c') => (Some thrown, c')
    | (None, c') => (None, with_entries c' (JsMap.set key entry (entries c')))
    end
  else (None, with_entries c (JsMap.set key entry (entries c))).

(** [clear()] *)
Definition clear (c : LruCache T) : LruCache T := with_entries c [].

(** A run of [set] calls, stopping at the first that throws. *)
Fixpoint set_all (kes : list (string * CacheEntry T)) (c : LruCache T)
  : option Thrown * LruCache T :=
  match kes with
  | [] => (None, c)
  | (k, e) :: rest =>
      match set k e c with
      | (Some thrown, c') => (Some thrown, c')
      | (None, c') => set_all rest c'
      end
  end.

End Cache.
End LruCache.

(** ** The Playwright adapter's private cache ([LRUCache], adapters/playwright) *)
Module PlaywrightLRU.

(** The values of the private [Map]: [{ data: T; timestamp: number }]. *)
Record Slot (T : Type) : Type := mkSlot {
  data : T;
  timestamp : Z;
}.
Arguments mkSlot {T}.
Arguments data {T}.
Arguments timestamp {T}.

Record LRUCache (T : Type) : Type := mkCache {
  cache : JsMap.jsmap (Slot T);
  maxSize : Z;
  ttl : Z;
}.
Arguments mkCache {T}.
Arguments cache {T}.
Arguments maxSize {T}.
Arguments ttl {T}.

Section Cache.
Context {T : Type}.

(** [constructor(maxSize = 200, ttlMs = 30 * 60 * 1000)] *)
Definition new (maxSize : option Z) (ttlMs : option Z) : LRUCache T :=
  mkCache [] (default 200 maxSize) (default (30 * 60 * 1000) ttlMs).

Definition with_cache (c : LRUCache T) (m : JsMap.jsmap (Slot T)) : LRUCache T :=
  mkCache m (maxSize c) (ttl c).

(** [get(key)]: a fresh entry is deleted and set again, which moves its key
    to the end of the map's order. *)
Definition get (now : Z) (key : string) (c : LRUCache T) : option T * LRUCache T :=
  match JsMap.get key (cache c) with
  | None => (None, c)
  | Some entry =>
      if ttl c <? now - timestamp entry
      then (None, with_cache c (JsMap.delete key (cache c)))
      else (Some (data entry),
            with_cache c (JsMap.set key entry (JsMap.delete key (cache c))))
  end.

(** [set(key, data)]: at capacity the first key of the map's order goes;
    [if (firstKey)] skips an absent and an empty first key. *)
Definition set (now : Z) (key : string) (d : T) (c : LRUCache T) : LRUCache T :=
  let m :=
    if maxSize c <=? JsMap.size (cache c) then
      match JsMap.first_key (cache c) with
      | Some firstKey =>
          if decide (firstKey = "") then cache c else JsMap.delete firstKey (cache c)
      | None => cache c
      end
    else cache c in
  with_cache c (JsMap.set key (mkSlot d now) m).

(** [clear()] *)
Definition clear (c : LRUCache T) : LRUCache T := with_cache c [].

End Cache.
End PlaywrightLRU.

(** ** The DevTools-protocol page client ([CDPPage], adapters/cdp) *)
Module CDP.

(** The value of a message's ["id"] property: an integer-valued number, or
    anything else (no key of [pendingCommands] is equal to it). *)
Inductive MsgId : Type :=
| IdNumber (n : Z)
| IdOther.

(** [interface CDPMessage], as far as [handleMessage] looks at it: whether the
    object has an ["id"] property, [message.result] (kept as its JSON text),
    and, when [message.error] is truthy, [message.error.message]. *)
Record CDPMessage : Type := mkMessage {
  id : option MsgId;
  result : option string;
  error : option string;
}.

(** What [JSON.parse(data)] does: it throws a [SyntaxError], or returns a
    value that is not an object (on which the [in] operator throws a
    [TypeError]), or returns an object. *)
Inductive Parsed : Type :=
| ParseFails (message : string)
| ParsedPrimitive
| ParsedObject (message : CDPMessage).

(** How the promise that [send] returned ended. *)
Inductive Settlement : Type :=
| Resolved (value : option string)
| Rejected (reason : Thrown).

(** What the page does to the outside: frames written to the socket, the
    socket's close, and the call of [client.closePage]. *)
Inductive Effect : Type :=
| WsOpen (url : string)
| WsSend (id : Z) (method : string) (params : option string)
| WsClose
| ClosePage (pageId : string).

(** [interface CDPPageInfo], the two fields in use. *)
Record CDPPageInfo : Type := mkPageInfo {
  page_id : string;
  webSocketDebuggerUrl : string;
}.

(** [class CDPPage]. A promise is a number; [pendingCommands] maps a message
    id to the promise whose [resolve] and [reject] it holds, and [settled]
    records the promises that were resolved or rejected. *)
Record CDPPage : Type := mkPage {
  pageInfo : CDPPageInfo;
  ws : option string;
  messageId : Z;
  pendingCommands : gmap Z nat;
  nextPromise : nat;
  settled : gmap nat Settlement;
  effects : list Effect;
}.

(** [new CDPPage(pageInfo, client)] *)
Definition new (info : CDPPageInfo) : CDPPage :=
  mkPage info None 0 ∅ 0 ∅ [].

(** [resolve] and [reject] of a promise: the first call settles it, a later
    one does nothing. *)
Definition settle (p : nat) (s : Settlement) (st : CDPPage) : CDPPage :=
  match settled st !! p with
  | Some _ => st
  | None =>
      mkPage (pageInfo st) (ws st) (messageId st) (pendingCommands st)
             (nextPromise st) (<[p := s]> (settled st)) (effects st)
  end.

Section Page.
Variable JSON_parse : string → Parsed.

(** [connect()]: the socket is created and stored at once; the three
    [*.enable] commands of the ["open"] handler are calls of [send]. *)
Definition connect (st : CDPPage) : CDPPage :=
  mkPage (pageInfo st) (Some (webSocketDebuggerUrl (pageInfo st))) (messageId st)
         (pendingCommands st) (nextPromise st) (settled st)
         (effects st ++ [WsOpen (webSocketDebuggerUrl (pageInfo st))]).

(** [private handleMessage(data)] *)
Definition handleMessage (data : string) (st : CDPPage) : CDPPage * option Thrown :=
  match JSON_parse data with
  | ParseFails m => (st, Some (ErrorObj m))
  | ParsedPrimitive =>
      (st, Some (ErrorObj "Cannot use 'in' operator to search for 'id'"))
  | ParsedObject message =>
      match id message with
      | Some (IdNumber n) =>
          match pendingCommands st !! n with
          | Some pending =>
              let st1 :=
                mkPage (pageInfo st) (ws st) (messageId st)
                       (delete n (pendingCommands st))
                       (nextPromise st) (settled st) (effects st) in
              match error message with
              | Some m => (settle pending (Rejected (ErrorObj m)) st1, None)
              | None => (settle pending (Resolved (result message)) st1, None)
              end
          | None => (st, None)
          end
      | Some IdOther => (st, None)
      | None => (st, None)
      end
  end.

(** [send(method, params)]: the promise it returns, or what it throws. *)
Definition send (method : string) (params : option string) (st : CDPPage)
  : CDPPage * (Thrown + nat) :=
  match ws st with
  | None => (st, inl (ErrorObj "Page not connected"))
  | Some _ =>
      let id := messageId st + 1 in
      let p := nextPromise st in
      (mkPage (pageInfo st) (ws st) id (<[id := p]> (pendingCommands st))
              (S p) (settled st) (effects st ++ [WsSend id method params]),
       inr p)
  end.

(** [close()]; [closePage] is what [await this.client.closePage(..)] throws,
    if it throws. *)
Definition close (closePage : option Thrown) (st : CDPPage) : CDPPage * option Thrown :=
  let st1 :=
    match ws st with
    | Some _ =>
        mkPage (pageInfo st) None (messageId st) (pendingCommands st)
               (nextPromise st) (settled st) (effects st ++ [WsClose])
    | None => st
    end in
  (mkPage (pageInfo st1) (ws st1) (messageId st1) (pendingCommands st1)
          (nextPromise st1) (settled st1)
          (effects st1 ++ [ClosePage (page_id (pageInfo st1))]),
   closePage).

(** The calls a page receives. *)
Inductive Action : Type :=
| Connect
| Send (method : string) (params : option string)
| Deliver (data : string)
| Close (closePage : option Thrown).

Definition exec (a : Action) (st : CDPPage) : CDPPage :=
  match a with
  | Connect => connect st
  | Send method params => (send method params st).1
  | Deliver data => (handleMessage data st).1
  | Close closePage => (close closePage st).1
  end.

(** The states a page can be in: a new page, after any calls. *)
Inductive reachable : CDPPage → Prop :=
| reachable_new info : reachable (new info)
| reachable_exec a st : reachable st → reachable (exec a st).

(** The pending entry a delivered message answers, if any. *)
Definition answered (data : string) (st : CDPPage) : option (Z * nat) :=
  match JSON_parse data with
  | ParsedObject message =>
      match id message with
      | Some (IdNumber n) => (λ p, (n, p)) <$> pendingCommands st !! n
      | _ => None
      end
  | _ => None
  end.

End Page.
End CDP.

(** ** Asynchronous functions on the single-threaded event loop

    An [async] function is a [Task]: a tree whose inner nodes are the
    effects of the function in program order. Between two [Await] nodes a
    task runs without interruption; at an [Await] it is suspended until the
    environment answers the request, and other tasks may run meanwhile.
    [Update] and [Read] act on the store the tasks share; [Query] is a
    synchronous call into the environment ([Date.now()], [Math.random()],
    [signal.aborted], a callback). *)
Module Async.

(** The calls a family of tasks makes to the outside: synchronous queries
    and asynchronous requests, each with the type of its answer. *)
Record Interface : Type := mkInterface {
  Qry : Type;
  Ans : Qry → Type;
  Req : Type;
  Rep : Req → Type;
}.

(** An environment answers them, from a state of its own that each answer
    may change: nothing is assumed of how the outside behaves. *)
Record Environment (I : Interface) : Type := mkEnvironment {
  Env : Type;
  query : ∀ q : Qry I, Env → Ans I q * Env;
  handle : ∀ r : Req I, Env → Rep I r * Env;
}.
Arguments Env {I}.
Arguments query {I}.
Arguments handle {I}.

Section Tasks.
Context {I : Interface}.

Inductive Task (St A : Type) : Type :=
| Ret (a : A)
| Throw (e : Thrown)
| Update (f : St → St) (k : Task St A)
| Read (k : St → Task St A)
| Query (q : Qry I) (k : Ans I q → Task St A)
| Await (r : Req I) (k : Rep I r → Task St A).
Arguments Ret {St A}.
Arguments Throw {St A}.
Arguments Update {St A}.
Arguments Read {St A}.
Arguments Query {St A}.
Arguments Await {St A}.

(** Sequencing: [const x = await t; k x], an exception of [t] passing
    through. *)
Fixpoint bind {St A B} (t : Task St A) (k : A → Task St B) : Task St B :=
  match t with
  | Ret a => k a
  | Throw e => Throw e
  | Update f t' => Update f (bind t' k)
  | Read k' => Read (λ s, bind (k' s) k)
  | Query q k' => Query q (λ x, bind (k' x) k)
  | Await r k' => Await r (λ x, bind (k' x) k)
  end.

(** [try { t } catch (error) { h error }] *)
Fixpoint try_catch {St A} (t : Task St A) (h : Thrown → Task St A) : Task St A :=
  match t with
  | Ret a => Ret a
  | Throw e => h e
  | Update f t' => Update f (try_catch t' h)
  | Read k => Read (λ s, try_catch (k s) h)
  | Query q k => Query q (λ x, try_catch (k x) h)
  | Await r k => Await r (λ x, try_catch (k x) h)
  end.

(** [try { t } finally { cleanup }]: the cleanup runs on both exits and an
    exception of its own replaces the outcome of [t]. *)
Fixpoint try_finally {St A} (t : Task St A) (cleanup : Task St unit) : Task St A :=
  match t with
  | Ret a => bind cleanup (λ _, Ret a)
  | Throw e => bind cleanup (λ _, Throw e)
  | Update f t' => Update f (try_finally t' cleanup)
  | Read k => Read (λ s, try_finally (k s) cleanup)
  | Query q k => Query q (λ x, try_finally (k x) cleanup)
  | Await r k => Await r (λ x, try_finally (k x) cleanup)
  end.

(** A task on a part of the store, run on the whole store. *)
Fixpoint zoom {St1 St2 A} (get : St2 → St1) (put : St1 → St2 → St2) (t : Task St1 A)
  : Task St2 A :=
  match t with
  | Ret a => Ret a
  | Throw e => Throw e
  | Update f t' => Update (λ s, put (f (get s)) s) (zoom get put t')
  | Read k => Read (λ s, zoom get put (k (get s)))
  | Query q k => Query q (λ x, zoom get put (k x))
  | Await r k => Await r (λ x, zoom get put (k x))
  end.

(** Where a task stands when it gives up control: settled, or suspended at
    an [await] with the rest of its body. *)
Inductive Susp (St A : Type) : Type :=
| Done (outcome : Thrown + A)
| Waiting (r : Req I) (k : Rep I r → Task St A).
Arguments Done {St A}.
Arguments Waiting {St A}.

Definition is_waiting {St A} (s : Susp St A) : bool :=
  match s with Waiting _ _ => true | Done _ => false end.

Section Semantics.
Context (E : Environment I) {St : Type}.

(** The shared store, the state of the environment, and the requests made
    so far, in the order they were made. *)
Record World : Type := mkWorld {
  store : St;
  env : Env E;
  calls : list (Req I);
}.

Definition with_store (w : World) (s : St) : World := mkWorld s (env w) (calls w).
Definition with_env (w : World) (e : Env E) : World := mkWorld (store w) e (calls w).
Definition submitted (w : World) (r : Req I) : World :=
  mkWorld (store w) (env w) (calls w ++ [r]).

(** A task runs until it settles or reaches an [await], whose request is
    made at that point. *)
Fixpoint advance {A} (t : Task St A) (w : World) : World * Susp St A :=
  match t with
  | Ret a => (w, Done (inr a))
  | Throw e => (w, Done (inl e))
  | Update f t' => advance t' (with_store w (f (store w)))
  | Read k => advance (k (store w)) w
  | Query q k => let '(x, e') := query E q (env w) in advance (k x) (with_env w e')
  | Await r k => (submitted w r, Waiting r k)
  end.

(** The environment answers the request of a suspended task, which then
    runs on. *)
Definition resume {A} (s : Susp St A) (w : World) : World * Susp St A :=
  match s with
  | Done _ => (w, s)
  | Waiting r k => let '(x, e') := handle E r (env w) in advance (k x) (with_env w e')
  end.

(** A task that runs alone: every request is answered as soon as it is
    made. *)
Fixpoint run {A} (t : Task St A) (w : World) : World * (Thrown + A) :=
  match t with
  | Ret a => (w, inr a)
  | Throw e => (w, inl e)
  | Update f t' => run t' (with_store w (f (store w)))
  | Read k => run (k (store w)) w
  | Query q k => let '(x, e') := query E q (env w) in run (k x) (with_env w e')
  | Await r k =>
      let '(x, e') := handle E r (env (submitted w r)) in
      run (k x) (with_env (submitted w r) e')
  end.

(** *** [Promise.all] over the tasks of [array.map(async ...)]

    The members start in array order, each running to its first [await].
    Then the environment answers the suspended members in an order of its
    choice: the schedule, whose entry [n] picks the member at position
    [n mod k] among the [k] that are suspended. The awaiting function goes on
    when every member is fulfilled, or as soon as one is rejected. *)
Fixpoint spawn {A} (ts : list (Task St A)) (w : World) : World * list (Susp St A) :=
  match ts with
  | [] => (w, [])
  | t :: ts' =>
      let '(w1, s) := advance t w in
      let '(w2, pool) := spawn ts' w1 in
      (w2, s :: pool)
  end.

Fixpoint waiting_from {A} (i : nat) (pool : list (Susp St A)) : list nat :=
  match pool with
  | [] => []
  | s :: pool' =>
      if is_waiting s then i :: waiting_from (S i) pool' else waiting_from (S i) pool'
  end.

(** The positions of the suspended members. *)
Definition waiting {A} (pool : list (Susp St A)) : list nat := waiting_from 0 pool.

(** The first rejected member, if any. *)
Fixpoint rejection {A} (pool : list (Susp St A)) : option Thrown :=
  match pool with
  | [] => None
  | Done (inl e) :: _ => Some e
  | _ :: pool' => rejection pool'
  end.

Definition resume_at {A} (i : nat) (pool : list (Susp St A)) (w : World) : World * list (Susp St A) :=
  match pool !! i with
  | Some s => let '(w', s') := resume s w in (w', <[i := s']> pool)
  | None => (w, pool)
  end.

(** The members run until one is rejected, all are settled, or the schedule
    ends; what is left of the schedule is returned. *)
Fixpoint drive {A} (sched : list nat) (pool : list (Susp St A)) (w : World)
  : World * list (Susp St A) * list nat :=
  match rejection pool, waiting pool, sched with
  | Some _, _, _ => (w, pool, sched)
  | None, [], _ => (w, pool, sched)
  | None, _ :: _, [] => (w, pool, [])
  | None, i0 :: ws, n :: sched' =>
      let i := nth (n mod length (i0 :: ws)) (i0 :: ws) i0 in
      let '(w', pool') := resume_at i pool w in
      drive sched' pool' w'
  end.

(** What [await Promise.all(..)] comes back with. *)
Inductive AllOutcome : Type :=
| AllFulfilled
| AllRejected (e : Thrown)
| AllStarved.

Definition all_outcome {A} (pool : list (Susp St A)) : AllOutcome :=
  match rejection pool, waiting pool with
  | Some e, _ => AllRejected e
  | None, [] => AllFulfilled
  | None, _ :: _ => AllStarved
  end.

End Semantics.

(** *** Members of a pool, each with a guarantee and an assertion

    The statements about tasks that run together are proved member by
    member. A member keeps an abstract state [σ]; [A i σ] is what member [i]
    in state [σ] asserts of the world, [G i] bounds what one uninterrupted
    run of member [i] does to the world, and [Inv] holds throughout. A
    suspended task is [member i m σ] when it is fulfilled in a final state,
    or is suspended and every answer to its request makes it run, within its
    guarantee, into a state where it is a member again with a smaller budget
    [m]. *)
Section Members.
Context (E : Environment I) {St Σ : Type}.
Variable Inv : World E (St := St) → Prop.
Variable G : nat → World E (St := St) → World E (St := St) → Prop.
Variable A : nat → Σ → World E (St := St) → Prop.
Variable final : Σ → Prop.

Fixpoint member (i m : nat) (σ : Σ) (s : Susp St unit) : Prop :=
  match s with
  | Done r => r = inr tt ∧ final σ
  | Waiting _ _ =>
      match m with
      | O => False
      | S m' =>
          ∀ w, Inv w → A i σ w →
            ∃ σ', G i w (resume E s w).1 ∧ A i σ' (resume E s w).1 ∧
                  member i m' σ' (resume E s w).2
      end
  end.

(** A task that has not started yet: its run to the first [await] counts
    like a resumption. *)
Definition starter (i m : nat) (σ : Σ) (t : Task St unit) : Prop :=
  ∀ w, Inv w → A i σ w →
    ∃ σ', G i w (advance E t w).1 ∧ A i σ' (advance E t w).1 ∧
          member i m σ' (advance E t w).2.

(** A pool of members, with the budget and the state of each. *)
Definition pool_ok (pool : list (Susp St unit)) (states : list (nat * Σ))
    (w : World E (St := St)) : Prop :=
  length states = length pool ∧
  ∀ j s m σ, pool !! j = Some s → states !! j = Some (m, σ) →
    member j m σ s ∧ A j σ w.

End Members.
End Tasks.

Arguments Ret {I St A}.
Arguments Throw {I St A}.
Arguments Update {I St A}.
Arguments Read {I St A}.
Arguments Query {I St A}.
Arguments Await {I St A}.
Arguments Done {I St A}.
Arguments Waiting {I St A}.
Arguments mkWorld {I E St}.
Arguments store {I E St}.
Arguments env {I E St}.
Arguments calls {I E St}.

End Async.

(** ** What the scraper adapters ask of the outside *)
Module ScrapeIO.

(** [waitFor]: ["load" | "domcontentloaded" | "networkidle"] *)
Inductive WaitPolicy : Type := Load | DomContentLoaded | NetworkIdle.

(** What a rendered page gives back: [page.url()], [page.content()],
    [page.title()], [response?.status()] and the ["content-type"] header. *)
Record Rendered : Type := mkRendered {
  page_url : string;
  page_html : string;
  page_title : string;
  status : option Z;
  content_type : option string;
}.

(** [ProgressEvent] *)
Inductive Phase : Type := Starting | Navigating | Extracting | Complete | Failing.

Record ProgressEvent : Type := mkProgress {
  phase : Phase;
  message : string;
  event_url : option string;
  progress : option Z;
  total : option Z;
}.

(** Synchronous calls: [Date.now()], [Math.random()], [signal.aborted] of an
    [AbortSignal] (a number names the signal), and the caller's [onProgress]
    callback, which is taken not to throw. *)
Inductive Qry : Type :=
| DateNow
| MathRandom
| SignalAborted (signal : nat)
| OnProgress (event : ProgressEvent).

Definition Ans (q : Qry) : Type :=
  match q with
  | DateNow => Z
  | MathRandom => Q
  | SignalAborted _ => bool
  | OnProgress _ => unit
  end.

(** Asynchronous calls. [Render] stands for the browser work of one scrape
    between [createContext()] and [page.title()]: context and page creation,
    the stealth script, navigation, the optional selector wait and custom
    script, reading the page (the caller's [onProgress] events of the phases
    "navigating" and "extracting" fall inside it). It answers with the page or
    with what was thrown. [Teardown] stands for the [finally] block,
    [page.close()] and [context.close()], and answers with what it threw, if
    anything. [Sleep] is [sleep(ms)]. None of these touches the adapter's own
    state. *)
Inductive Req : Type :=
| Render (url : string) (waitUntil : WaitPolicy) (timeout : Z)
         (waitForSelector jsCode : option string)
| Teardown
| Sleep (ms : Q).

Definition Rep (r : Req) : Type :=
  match r with
  | Render _ _ _ _ _ => (Thrown + Rendered)%type
  | Teardown => option Thrown
  | Sleep _ => unit
  end.

Definition io : Async.Interface := Async.mkInterface Qry Ans Req Rep.

(** The content parser (utils/content-parser), an outside collaborator. *)
Class ContentParser : Type := mkParser {
  Links : Type;
  Media : Type;
  Metadata : Type;
  htmlToText : string → string;
  htmlToMarkdown : string → string;
  extractLinks : string → string → Links;
  extractMedia : string → string → Media;
  extractMetadata : string → Metadata;
}.

Section Schemas.
Context `{ContentParser}.

(** [ScrapeResult] (domain/schemas) *)
Record ScrapeResult : Type := mkResult {
  url : string;
  title : string;
  content : string;
  markdown : option string;
  html : option string;
  links : option Links;
  media : option Media;
  metadata : option Metadata;
  statusCode : option Z;
  contentType : option string;
  loadTime : option Z;
}.

(** [ScrapeResponse] (ports) *)
Record ScrapeResponse : Type := mkResponse {
  result : ScrapeResult;
  cached : bool;
  duration : Z;
  source : string;
}.

(** [Partial<ScrapeOptions> & { onProgress?, signal? }]: an absent option is
    [None]; [onProgress] is [true] when a callback is given. *)
Record ScrapeCallOptions : Type := mkScrapeOptions {
  opt_timeout : option Z;
  opt_waitFor : option WaitPolicy;
  opt_waitForSelector : option string;
  opt_extractMedia : option bool;
  opt_extractLinks : option bool;
  opt_extractMetadata : option bool;
  opt_cache : option bool;
  opt_jsCode : option string;
  opt_onProgress : bool;
  opt_signal : option nat;
}.

(** [Partial<ScrapeOptions & BatchOptions> & { onProgress?, signal? }]; the
    scrape options are what is left after [concurrency], [retries],
    [retryDelay], [onProgress] and [signal] are taken out. *)
Record BatchCallOptions : Type := mkBatchOptions {
  opt_concurrency : option Z;
  opt_retries : option Z;
  opt_retryDelay : option Z;
  batch_onProgress : bool;
  batch_signal : option nat;
  scrapeOptions : ScrapeCallOptions;
}.

(** [{ ...scrapeOptions, signal }] *)
Definition with_signal (o : ScrapeCallOptions) (signal : option nat) : ScrapeCallOptions :=
  mkScrapeOptions (opt_timeout o) (opt_waitFor o) (opt_waitForSelector o)
    (opt_extractMedia o) (opt_extractLinks o) (opt_extractMetadata o)
    (opt_cache o) (opt_jsCode o) (opt_onProgress o) signal.

(** [BatchScrapeResult] *)
Record BatchScrapeResult : Type := mkBatchResult {
  results : gmap string ScrapeResult;
  failed : gmap string Thrown;
  totalDuration : Z;
}.

(** One settled attempt on a target, as the retry loop saw it: what its
    [catch] block caught, or nothing when the attempt succeeded. The journal
    of attempts is kept for the statements below only; the source has no such
    list. *)
Record Attempt : Type := mkAttempt {
  target : string;
  caught : option Thrown;
}.

(** What the tasks of one batch share: the adapter, the two maps of
    [scrapeMany], and the journal. *)
Record Batch (Adapter : Type) : Type := mkBatch {
  adapter : Adapter;
  batch_results : gmap string ScrapeResult;
  batch_failed : gmap string Thrown;
  journal : list Attempt;
}.
Arguments mkBatch {Adapter}.
Arguments adapter {Adapter}.
Arguments batch_results {Adapter}.
Arguments batch_failed {Adapter}.
Arguments journal {Adapter}.

Section BatchOps.
Context {Adapter : Type}.

Definition put_adapter (a : Adapter) (b : Batch Adapter) : Batch Adapter :=
  mkBatch a (batch_results b) (batch_failed b) (journal b).

(** [results.set(url, result)] *)
Definition set_result (u : string) (r : ScrapeResult) (b : Batch Adapter) : Batch Adapter :=
  mkBatch (adapter b) (<[u := r]> (batch_results b)) (batch_failed b) (journal b).

(** [failed.set(url, lastError)] *)
Definition set_failed (u : string) (e : Thrown) (b : Batch Adapter) : Batch Adapter :=
  mkBatch (adapter b) (batch_results b) (<[u := e]> (batch_failed b)) (journal b).

Definition note (a : Attempt) (b : Batch Adapter) : Batch Adapter :=
  mkBatch (adapter b) (batch_results b) (batch_failed b) (journal b ++ [a]).

(** A method of the adapter, called from a task of the batch. *)
Definition on_adapter {A} (t : Async.Task (I := io) Adapter A)
  : Async.Task (I := io) (Batch Adapter) A :=
  Async.zoom adapter put_adapter t.

End BatchOps.
End Schemas.

Arguments mkBatch {_ Adapter}.
Arguments adapter {_ Adapter}.
Arguments batch_results {_ Adapter}.
Arguments batch_failed {_ Adapter}.
Arguments journal {_ Adapter}.

(** [Array.prototype.slice(start, end)] on integer arguments. *)
Definition js_slice {A} (l : list A) (start finish : Z) : list A :=
  let len := Z.of_nat (length l) in
  let from := if start <? 0 then Z.max (len + start) 0 else Z.min start len in
  let to := if finish <? 0 then Z.max (len + finish) 0 else Z.min finish len in
  take (Z.to_nat (to - from)) (drop (Z.to_nat from) l).

(** [getRandomDelay(min, max)]:
    [Math.floor(Math.random() * (max - min + 1)) + min] *)
Definition getRandomDelay (random : Q) (min max : Z) : Z :=
  Qfloor (random * inject_Z (max - min + 1)) + min.

End ScrapeIO.

(** ** The Playwright adapter ([PlaywrightScraperAdapter]) *)
Module Playwright.
Import Async ScrapeIO.

Abbreviation Job St A := (Task (I := io) St A).

Global Instance task_ret {St} : MRet (Task (I := io) St) := λ A, Ret.
Global Instance task_bind {St} : MBind (Task (I := io) St) := λ A B k t, bind t k.

Section Primitives.
Context {St : Type}.

(** [Date.now()] *)
Definition date_now : Job St Z := Query (I := io) DateNow Ret.

(** [Math.random()] *)
Definition math_random : Job St Q := Query (I := io) MathRandom Ret.

(** [signal?.aborted], read as a condition *)
Definition signal_aborted (signal : option nat) : Job St bool :=
  match signal with
  | Some sg => Query (I := io) (SignalAborted sg) Ret
  | None => Ret false
  end.

(** [onProgress?.(event)] *)
Definition on_progress (given : bool) (event : ProgressEvent) : Job St unit :=
  if given then Query (I := io) (OnProgress event) Ret else Ret tt.

(** [await sleep(ms)] *)
Definition sleep (ms : Q) : Job St unit := Await (I := io) (Sleep ms) Ret.

End Primitives.

Section Adapter.
Context `{ContentParser}.

(** The adapter's own state: its cache. (The lazily launched browser and
    the memo of [isAvailable()] belong to the browser side.) *)
Record Adapter : Type := mkAdapter {
  cache : PlaywrightLRU.LRUCache ScrapeResult;
}.

(** [new PlaywrightScraperAdapter(cacheSize = 200, cacheTTL = 30 * 60 * 1000)] *)
Definition new (cacheSize cacheTTL : option Z) : Adapter :=
  mkAdapter (PlaywrightLRU.new (Some (default 200 cacheSize))
                               (Some (default (30 * 60 * 1000) cacheTTL))).

(** [getName()] *)
Definition getName : string := "playwright".

(** [this.cache.get(cacheKey)]; [Date.now()] is read only for a key the map
    holds. *)
Definition cache_get (key : string) : Job Adapter (option ScrapeResult) :=
  Read (λ a,
    match JsMap.get key (PlaywrightLRU.cache (cache a)) with
    | None => Ret None
    | Some _ =>
        now ← date_now;
        Update (λ a, mkAdapter (PlaywrightLRU.get now key (cache a)).2)
          (Read (λ _, Ret (PlaywrightLRU.get now key (cache a)).1))
    end).

(** [this.cache.set(cacheKey, result)] *)
Definition cache_set (key : string) (r : ScrapeResult) : Job Adapter unit :=
  now ← date_now;
  Update (λ a, mkAdapter (PlaywrightLRU.set now key r (cache a))) (Ret tt).

(** [`${url}|${jsCode || ""}|${waitForSelector || ""}`] *)
Definition cacheKey (url : string) (options : ScrapeCallOptions) : string :=
  url +:+ "|" +:+ default "" (opt_jsCode options)
      +:+ "|" +:+ default "" (opt_waitForSelector options).

(** The [ScrapeResult] built from the rendered page. *)
Definition build_result (url : string) (options : ScrapeCallOptions)
    (page : Rendered) (startTime now : Z) : ScrapeResult :=
  mkResult (page_url page) (page_title page)
    (htmlToText (page_html page))
    (Some (htmlToMarkdown (page_html page)))
    (Some (page_html page))
    (if default true (opt_extractLinks options)
     then Some (extractLinks (page_html page) url) else None)
    (if default true (opt_extractMedia options)
     then Some (extractMedia (page_html page) url) else None)
    (if default true (opt_extractMetadata options)
     then Some (extractMetadata (page_html page)) else None)
    (status page) (content_type page) (Some (now - startTime)).

(** The request [scrape] makes of the browser, with the defaults of
    [timeout] and [waitFor] filled in. *)
Definition render_request (url : string) (options : ScrapeCallOptions) : Req :=
  Render url (default NetworkIdle (opt_waitFor options))
    (default 30000 (opt_timeout options))
    (opt_waitForSelector options) (opt_jsCode options).

(** [async scrape(url, options)] *)
Definition scrape (url : string) (options : ScrapeCallOptions) : Job Adapter ScrapeResponse :=
  let useCache := default true (opt_cache options) in
  startTime ← date_now;
  hit ← (if useCache then cache_get (cacheKey url options) else Ret None);
  match hit with
  | Some from_cache =>
      on_progress (opt_onProgress options)
        (mkProgress Complete "From cache" (Some url) None None);;
      now ← date_now;
      Ret (mkResponse from_cache true (now - startTime) getName)
  | None =>
      aborted ← signal_aborted (opt_signal options);
      if aborted : bool then Throw (ErrorObj "Scrape aborted") else
      on_progress (opt_onProgress options)
        (mkProgress Starting ("Scraping " +:+ url +:+ "...") (Some url) None None);;
      try_finally
        (rendered ← Await (I := io) (render_request url options) Ret;
         match rendered with
         | inl thrown => Throw thrown
         | inr page =>
             loaded ← date_now;
             let result := build_result url options page startTime loaded in
             (if useCache then cache_set (cacheKey url options) result else Ret tt);;
             on_progress (opt_onProgress options)
               (mkProgress Complete
                  ("Scraped " +:+ pretty (String.length (content result)) +:+ " chars")
                  (Some url) None None);;
             now ← date_now;
             Ret (mkResponse result false (now - startTime) getName)
         end)
        (closing ← Await (I := io) Teardown Ret;
         match closing with
         | Some thrown => Throw thrown
         | None => Ret tt
         end)
  end.

(** The time the cache is read at by a call of [scrape] that starts when
    the environment is in state [e]: the second reading of the clock. *)
Definition lookup_time (E : Environment io) (e : Env E) : Z :=
  (query E DateNow (query E DateNow e).2).1.

(** *** [async scrapeMany(urls, options)] *)
Section Batch.
Variable options : BatchCallOptions.

Definition concurrency : Z := default 3 (opt_concurrency options).
Definition retries : Z := default 2 (opt_retries options).
Definition retryDelay : Z := default 1000 (opt_retryDelay options).

(** The body of [batch.map(async (url) => ...)]: [n] counts the iterations
    the loop [for (attempt = 0; attempt <= retries; attempt++)] still has. *)
Fixpoint attempts (n : nat) (attempt : Z) (lastError : option Thrown) (url : string)
  : Job (Batch Adapter) unit :=
  match n with
  | O =>
      match lastError with
      | Some e => Update (set_failed url e) (Ret tt)
      | None => Ret tt
      end
  | S n' =>
      caught ← try_catch
        (response ← on_adapter
            (scrape url (with_signal (scrapeOptions options) (batch_signal options)));
         Update (set_result url (result response))
           (Update (note (mkAttempt url None)) (Ret None)))
        (λ error,
           let lastError := toError error in
           Update (note (mkAttempt url (Some lastError)))
             ((if attempt <? retries
               then sleep (inject_Z (retryDelay * (attempt + 1)))
               else Ret tt);;
              Ret (Some lastError)));
      match caught with
      | None => Ret tt
      | Some e => attempts n' (attempt + 1) (Some e) url
      end
  end.

Definition retry_task (url : string) : Job (Batch Adapter) unit :=
  attempts (Z.to_nat (retries + 1)) 0 None url.

(** The attempts on a target that the journal holds, and the requests to
    render a target among the requests made. *)
Definition attempts_on (u : string) (jn : list Attempt) : list Attempt :=
  filter (λ x, target x = u) jn.

Definition render_url (r : Req) : option string :=
  match r with
  | Render u _ _ _ _ => Some u
  | _ => None
  end.

Definition renders_of (u : string) (cs : list Req) : list Req :=
  filter (λ r, render_url r = Some u) cs.

Context (E : Environment io).

Abbreviation World := (World E (St := Batch Adapter)).

(** How the loop over the windows ends. *)
Inductive LoopExit : Type :=
| LoopDone
| LoopThrew (e : Thrown)
| LoopStarved
| LoopOutOfFuel.

(** [`Processing batch ${Math.floor(i / concurrency) + 1}...`]; with a
    concurrency of zero [i] stays zero and the quotient is [NaN]. *)
Definition batch_message (i : Z) : string :=
  "Processing batch "
    +:+ (if concurrency =? 0 then "NaN" else pretty (i / concurrency + 1))
    +:+ "...".

(** The loop [for (let i = 0; i < urls.length; i += concurrency)], one
    iteration per unit of fuel. *)
Fixpoint windows (fuel : nat) (urls : list string) (i : Z) (sched : list nat) (w : World)
  : LoopExit * World * list nat :=
  match fuel with
  | O => (LoopOutOfFuel, w, sched)
  | S fuel' =>
      if negb (i <? Z.of_nat (length urls)) then (LoopDone, w, sched) else
      let '(w1, stop) := run E (signal_aborted (batch_signal options)) w in
      match stop with
      | inl e => (LoopThrew e, w1, sched)
      | inr true => (LoopDone, w1, sched)
      | inr false =>
          let batch := js_slice urls i (i + concurrency) in
          let '(w2, _) :=
            run E (on_progress (batch_onProgress options)
                     (mkProgress Extracting (batch_message i) (head batch)
                        (Some i) (Some (Z.of_nat (length urls))))) w1 in
          let '(w3, pool) := spawn E (retry_task <$> batch) w2 in
          let '(w4, pool', sched') := drive E sched pool w3 in
          match all_outcome pool' with
          | AllRejected e => (LoopThrew e, w4, sched')
          | AllStarved => (LoopStarved, w4, sched')
          | AllFulfilled =>
              let '(w5, _) :=
                run E (if i + concurrency <? Z.of_nat (length urls)
                       then (random ← math_random;
                             sleep (inject_Z (getRandomDelay random 500 1500)))
                       else Ret tt) w4 in
              windows fuel' urls (i + concurrency) sched' w5
          end
      end
  end.

(** How a call of [scrapeMany] ends: it returns its result, it throws, the
    schedule ends before its tasks have settled, or the fuel ends before the
    loop has. *)
Inductive BatchOutcome : Type :=
| Returned (r : BatchScrapeResult) (w : World)
| Threw (e : Thrown) (w : World)
| Starved (w : World)
| OutOfFuel (w : World).

Definition scrapeMany (fuel : nat) (urls : list string) (sched : list nat)
    (w0 : Async.World E (St := Adapter)) : BatchOutcome :=
  let w := mkWorld (mkBatch (store w0) ∅ ∅ []) (env w0) (calls w0) in
  let '(w1, start) := run E date_now w in
  let startTime := match start with inr t => t | inl _ => 0 end in
  match windows fuel urls 0 sched w1 with
  | (LoopThrew e, w2, _) => Threw e w2
  | (LoopStarved, w2, _) => Starved w2
  | (LoopOutOfFuel, w2, _) => OutOfFuel w2
  | (LoopDone, w2, _) =>
      let '(w3, _) :=
        run E (on_progress (batch_onProgress options)
                 (mkProgress Complete
                    ("Completed: " +:+ pretty (size (batch_results (store w2)))
                       +:+ " success, " +:+ pretty (size (batch_failed (store w2)))
                       +:+ " failed")
                    (head urls) None None)) w2 in
      let '(w4, finish) := run E date_now w3 in
      let now := match finish with inr t => t | inl _ => 0 end in
      Returned (mkBatchResult (batch_results (store w4)) (batch_failed (store w4))
                  (now - startTime)) w4
  end.

End Batch.
End Adapter.

Arguments Returned {_ E}.
Arguments Threw {_ E}.
Arguments Starved {_ E}.
Arguments OutOfFuel {_ E}.

End Playwright.

(** ** The Playwright adapter's browser ([getBrowser], [isAvailable], [close]) *)
Module PlaywrightBrowser.
Import Async.

(** What the adapter asks of Playwright: the dynamic import, the launch of
    a headless browser with the given [args], and the close of one. *)
Inductive Req : Type :=
| ImportPlaywright
| Launch (args : list string)
| Close (browser : nat).

Definition Rep (r : Req) : Type :=
  match r with
  | ImportPlaywright => option Thrown
  | Launch _ => (Thrown + nat)%type
  | Close _ => option Thrown
  end.

Definition bio : Interface :=
  mkInterface Empty_set (λ q, match q return Type with end) Req Rep.

(** The two private fields [browser] and [available]. *)
Record Lifecycle : Type := mkLifecycle {
  browser : option nat;
  available : option bool;
}.

Abbreviation Job A := (Task (I := bio) Lifecycle A).

Definition set_browser (b : option nat) (s : Lifecycle) : Lifecycle :=
  mkLifecycle b (available s).

Definition set_available (a : bool) (s : Lifecycle) : Lifecycle :=
  mkLifecycle (browser s) (Some a).

Definition import_playwright : Job unit :=
  Await (I := bio) ImportPlaywright
    (λ x, match x with Some e => Throw e | None => Ret tt end).

Definition launch (args : list string) : Job nat :=
  Await (I := bio) (Launch args) (λ x, match x with inl e => Throw e | inr b => Ret b end).

(** The [args] of the adapter's own browser. *)
Definition browser_args : list string :=
  [ "--no-sandbox"; "--disable-setuid-sandbox"; "--disable-dev-shm-usage";
    "--disable-accelerated-2d-canvas"; "--no-first-run"; "--no-zygote"; "--disable-gpu" ].

Definition close_browser (b : nat) : Job unit :=
  Await (I := bio) (Close b) (λ x, match x with Some e => Throw e | None => Ret tt end).

(** [private async getBrowser()] *)
Definition getBrowser : Job nat :=
  Read (λ s,
    match browser s with
    | Some b => Ret b
    | None =>
        bind import_playwright (λ _,
        bind (launch browser_args) (λ b,
        Update (set_browser (Some b)) (Ret b)))
    end).

(** [async isAvailable()]; it returns [this.available], a boolean or
    [null]. *)
Definition isAvailable : Job (option bool) :=
  Read (λ s,
    match available s with
    | Some known => Ret (Some known)
    | None =>
        bind (try_catch
                (bind import_playwright (λ _,
                 bind (launch []) (λ b,
                 bind (close_browser b) (λ _,
                 Update (set_available true) (Ret tt)))))
                (λ _, Update (set_available false) (Ret tt)))
             (λ _, Read (λ s, Ret (available s)))
    end).

(** [async close()] *)
Definition close : Job unit :=
  Read (λ s,
    match browser s with
    | Some b => bind (close_browser b) (λ _, Update (set_browser None) (Ret tt))
    | None => Ret tt
    end).

End PlaywrightBrowser.

(** ** The scraping use case ([ScrapeUseCase.execute]) *)
Module UseCase.
Import Async ScrapeIO.

Section UseCase.
Context `{ContentParser} {I : Interface} {St : Type}.

(** [ScraperPort], the two methods [execute] calls. *)
Record ScraperPort : Type := mkPort {
  isAvailable : Task (I := I) St bool;
  scrape : string → ScrapeCallOptions → Task (I := I) St ScrapeResponse;
}.

(** [ScrapeUseCaseOptions]: the three switches, and the scrape options
    ([waitFor], [onProgress] and [signal] among them). *)
Record ScrapeUseCaseOptions : Type := mkUseCaseOptions {
  preferBrowser : option bool;
  useHttp2 : option bool;
  fallbackToFetch : option bool;
  passedOn : ScrapeCallOptions;
}.

(** [scrapeOptions], what the destructuring leaves: the options without
    [waitFor]. *)
Definition without_waitFor (o : ScrapeCallOptions) : ScrapeCallOptions :=
  mkScrapeOptions (opt_timeout o) None (opt_waitForSelector o)
    (opt_extractMedia o) (opt_extractLinks o) (opt_extractMetadata o)
    (opt_cache o) (opt_jsCode o) (opt_onProgress o) (opt_signal o).

(** [preferBrowser || waitFor === "networkidle"] *)
Definition needsBrowser (options : ScrapeUseCaseOptions) : bool :=
  default false (preferBrowser options) ||
  match opt_waitFor (passedOn options) with
  | Some NetworkIdle => true
  | _ => false
  end.

(** One turn of the loop over the browser scrapers:
    [try { if (await scraper.isAvailable()) return await scraper.scrape(..) }
     catch (error) { if (!fallbackToFetch) throw error }];
    [Some] is the response the function returns with, [None] means that the
    loop goes on. *)
Definition attempt (scraper : ScraperPort) (fallback : bool) (url : string)
    (options : ScrapeCallOptions) : Task (I := I) St (option ScrapeResponse) :=
  try_catch
    (bind (isAvailable scraper) (λ available : bool,
       if available
       then bind (scrape scraper url options) (λ response, Ret (Some response))
       else Ret None))
    (λ error, if fallback then Ret None else Throw error).

Fixpoint try_each (scrapers : list ScraperPort) (fallback : bool) (url : string)
    (options : ScrapeCallOptions) (otherwise : Task (I := I) St ScrapeResponse)
  : Task (I := I) St ScrapeResponse :=
  match scrapers with
  | [] => otherwise
  | scraper :: rest =>
      bind (attempt scraper fallback url options) (λ returned,
        match returned with
        | Some response => Ret response
        | None => try_each rest fallback url options otherwise
        end)
  end.

(** [async execute(url, options)], with [browsers] the scrapers tried in
    turn when a browser is needed and [http] the scraper of the last
    line. *)
Definition execute (browsers : list ScraperPort) (http : ScraperPort) (url : string)
    (options : ScrapeUseCaseOptions) : Task (I := I) St ScrapeResponse :=
  let last := scrape http url (without_waitFor (passedOn options)) in
  if needsBrowser options
  then try_each browsers (default true (fallbackToFetch options)) url (passedOn options) last
  else last.

(** The class of the full build: browser (CDP) and Playwright in turn, then
    undici or fetch. *)
Definition execute_full (browserScraper playwrightScraper fetchScraper undiciScraper : ScraperPort)
    (url : string) (options : ScrapeUseCaseOptions) : Task (I := I) St ScrapeResponse :=
  execute [browserScraper; playwrightScraper]
    (if default true (useHttp2 options) then undiciScraper else fetchScraper) url options.

(** The class with Playwright and fetch alone. *)
Definition execute_basic (playwrightScraper fetchScraper : ScraperPort)
    (url : string) (options : ScrapeUseCaseOptions) : Task (I := I) St ScrapeResponse :=
  execute [playwrightScraper] fetchScraper url options.

End UseCase.
End UseCase.

(** ** Retry utilities of the fetch-pool adapter ([scrapeWithRetry]) *)
Module Retry.
Import Async ScrapeIO Playwright.

(** [ctx] without its two maps, [results] and [failed], which are in the
    state the tasks of a batch share. *)
Record Ctx : Type := mkCtx {
  ctx_retries : Z;
  ctx_retryDelay : Z;
  ctx_signal : option nat;
}.

Section ScrapeWithRetry.
Context `{ContentParser} {Scraper : Type}.

(** [scrapeFn] works on the state of the scraper it belongs to; the two
    maps are out of its reach. *)
Variable scrapeFn : string → ScrapeCallOptions → Job Scraper ScrapeResponse.
Variable scrapeOptions : ScrapeCallOptions.
Variable ctx : Ctx.

(** [if (lastError) ctx.failed.set(url, lastError)] *)
Definition record_failure (url : string) (lastError : option Thrown)
  : Job (Batch Scraper) unit :=
  match lastError with
  | Some e => Update (set_failed url e) (Ret tt)
  | None => Ret tt
  end.

(** The loop [for (let attempt = 0; attempt <= ctx.retries; attempt++)] with
    [n] iterations to go, and what follows it. *)
Fixpoint attempts (n : nat) (attempt : Z) (lastError : option Thrown) (url : string)
  : Job (Batch Scraper) unit :=
  match n with
  | O => record_failure url lastError
  | S n' =>
      aborted ← signal_aborted (ctx_signal ctx);
      if aborted : bool then record_failure url lastError else
      caught ← try_catch
        (response ← on_adapter (scrapeFn url (with_signal scrapeOptions (ctx_signal ctx)));
         Update (set_result url (result response))
           (Update (note (mkAttempt url None)) (Ret None)))
        (λ error,
           let lastError := toError error in
           Update (note (mkAttempt url (Some lastError)))
             ((if attempt <? ctx_retries ctx
               then (jitter ← math_random;
                     sleep (inject_Z (ctx_retryDelay ctx * (attempt + 1)) + jitter * 100)%Q)
               else Ret tt);;
              Ret (Some lastError)));
      match caught with
      | None => Ret tt
      | Some e => attempts n' (attempt + 1) (Some e) url
      end
  end.

(** [async function scrapeWithRetry(url, scrapeFn, scrapeOptions, ctx)] *)
Definition scrapeWithRetry (url : string) : Job (Batch Scraper) unit :=
  attempts (Z.to_nat (ctx_retries ctx + 1)) 0 None url.

End ScrapeWithRetry.
End Retry.

(** ** Cleanup of stale pending requests ([startStalePendingCleanup]) *)
Module PendingCleanup.

Definition STALE_PENDING_THRESHOLD_MS : Z := 30000.

(** The values of [pendingRequests], as far as the cleanup looks at them. *)
Record Pending : Type := mkPending {
  startedAt : Z;
}.

(** [now - entry.startedAt > STALE_PENDING_THRESHOLD_MS] *)
Definition stale (now : Z) (entry : Pending) : bool :=
  STALE_PENDING_THRESHOLD_MS <? now - startedAt entry.

(** The timer's callback, with [now] what [Date.now()] returns: the loop
    [for (const [url, entry] of pendingRequests)] visits the entries in the
    map's order, and deleting the entry under visit does not disturb the
    visit of those that follow. *)
Definition sweep (now : Z) (pendingRequests : JsMap.jsmap Pending) : JsMap.jsmap Pending :=
  foldl (λ m p, if stale now p.2 then JsMap.delete p.1 m else m)
        pendingRequests pendingRequests.

End PendingCleanup.

(** ** The lifetime a response grants ([parseCacheControlMaxAge]) *)
Module CacheControl.

(** [\d] *)
Definition is_digit (c : Ascii.ascii) : bool :=
  (48 <=? Ascii.nat_of_ascii c)%nat && (Ascii.nat_of_ascii c <=? 57)%nat.

(** The longest run of digits a string starts with: what [\d+] takes. *)
Fixpoint leading_digits (s : string) : string :=
  match s with
  | String c rest => if is_digit c then String c (leading_digits rest) else ""
  | "" => ""
  end.

(** The rest of [s] after the literal [p], when [s] starts with it. *)
Fixpoint strip_prefix (p s : string) : option string :=
  match p, s with
  | "", _ => Some s
  | String a p', String b s' => if decide (a = b) then strip_prefix p' s' else None
  | String _ _, "" => None
  end.

(** [cc.match(/max-age=(\d+)/)]: the first group of the leftmost match. *)
Fixpoint match_max_age (cc : string) : option string :=
  match cc with
  | "" => None
  | String _ rest =>
      match leading_digits <$> strip_prefix "max-age=" cc with
      | Some (String d ds) => Some (String d ds)
      | _ => match_max_age rest
      end
  end.

(** [parseInt(digits, 10)] on a string of decimal digits (the number is
    exact below [2^53]). *)
Definition digit_value (c : Ascii.ascii) : Z := Z.of_nat (Ascii.nat_of_ascii c) - 48.

Fixpoint parseInt10_from (acc : Z) (digits : string) : Z :=
  match digits with
  | "" => acc
  | String c rest => parseInt10_from (10 * acc + digit_value c) rest
  end.

Definition parseInt10 (digits : string) : Z := parseInt10_from 0 digits.

(** [parseCacheControlMaxAge(response)], with [cc] the value of
    [response.headers.get("cache-control")]. *)
Definition parseCacheControlMaxAge (cc : option string) : option Z :=
  match cc with
  | None => None
  | Some "" => None
  | Some cc =>
      match match_max_age cc with
      | None => None
      | Some digits =>
          let seconds := parseInt10 digits in
          if 0 <? seconds then Some (seconds * 1000) else None
      end
  end.

End CacheControl.

(** ** The manager of browser sessions ([WebActionManager]) *)
Module WebActions.
Import Async.

(** [WebSession]; the browser's objects (context, page, cursor, browser) are
    named by handles. *)
Record WebSession : Type := mkSession {
  profileId : string;
  context : nat;
  page : nat;
  cursor : option nat;
  createdAt : Z;
  lastActivity : Z;
  cdpBrowser : option nat;
}.

(** Synchronous calls to the outside: [Date.now()], [page.isClosed()],
    [context.pages()[0]], [browser.contexts()[0]],
    [this.resolveCdpWebSocketUrl(cdpUrl)] (it reads files and catches what
    that throws), [console.log] and [console.warn]. *)
Inductive Qry : Type :=
| DateNow
| PageIsClosed (page : nat)
| FirstPage (context : nat)
| FirstContext (browser : nat)
| ResolveCdpWebSocketUrl (cdpUrl : string)
| ConsoleLog (text : string)
| ConsoleWarn (text : string).

Definition Ans (q : Qry) : Type :=
  match q with
  | DateNow => Z
  | PageIsClosed _ => bool
  | FirstPage _ => option nat
  | FirstContext _ => option nat
  | ResolveCdpWebSocketUrl _ => string
  | ConsoleLog _ => unit
  | ConsoleWarn _ => unit
  end.

(** Asynchronous calls, each answered with a handle, or with what it threw. *)
Inductive Req : Type :=
| LaunchPersistentContext (userDataDir : string) (headless : bool)
| ConnectOverCDP (wsUrl : string)
| NewContext (browser : nat)
| ApplyStealthToContext (context : nat)
| NewPage (context : nat)
| SetViewportSize (page : nat) (width height : Z)
| CreateHumanCursor (page : nat)
| CloseContext (context : nat)
| CloseBrowser (browser : nat).

Definition Rep (r : Req) : Type :=
  match r with
  | LaunchPersistentContext _ _ => (Thrown + nat)%type
  | ConnectOverCDP _ => (Thrown + nat)%type
  | NewContext _ => (Thrown + nat)%type
  | ApplyStealthToContext _ => option Thrown
  | NewPage _ => (Thrown + nat)%type
  | SetViewportSize _ _ _ => option Thrown
  | CreateHumanCursor _ => (Thrown + nat)%type
  | CloseContext _ => option Thrown
  | CloseBrowser _ => option Thrown
  end.

Definition wio : Interface := mkInterface Qry Ans Req Rep.

(** The manager: [sessions], a map from profile to session object, and the
    session objects there are, each named by its position. Two names are
    two objects. *)
Record Manager : Type := mkManager {
  sessions : JsMap.jsmap nat;
  objects : list WebSession;
}.

Abbreviation Job A := (Task (I := wio) Manager A).

Definition with_lastActivity (s : WebSession) (now : Z) : WebSession :=
  mkSession (profileId s) (context s) (page s) (cursor s) (createdAt s) now (cdpBrowser s).

Definition with_page (s : WebSession) (p : nat) : WebSession :=
  mkSession (profileId s) (context s) p (cursor s) (createdAt s) (lastActivity s)
    (cdpBrowser s).

(** An assignment to a field of the session object [ref]. *)
Definition assign (ref : nat) (f : WebSession → WebSession) (m : Manager) : Manager :=
  match objects m !! ref with
  | Some s => mkManager (sessions m) (<[ref := f s]> (objects m))
  | None => m
  end.

(** [const session = {...}; this.sessions.set(profileId, session)] *)
Definition register (s : WebSession) : Job nat :=
  Read (λ m,
    let ref := length (objects m) in
    Update (λ m, mkManager (JsMap.set (profileId s) ref (sessions m)) (objects m ++ [s]))
      (Ret ref)).

(** A request whose answer is a handle, and one whose answer is nothing. *)
Definition await_handle (r : Req) (k : Rep r → Thrown + nat) : Job nat :=
  Await (I := wio) r (λ x, match k x with inl e => Throw e | inr h => Ret h end).

Definition await_done (r : Req) (k : Rep r → option Thrown) : Job unit :=
  Await (I := wio) r (λ x, match k x with Some e => Throw e | None => Ret tt end).

(** The branch [if (existing) {...; return existing}] *)
Definition reuse (ref : nat) : Job nat :=
  Query (I := wio) DateNow (λ now,
  Update (assign ref (λ s, with_lastActivity s now))
  (Read (λ m,
     match objects m !! ref with
     | None => Throw (ErrorObj "no such session object")
     | Some existing =>
         Query (I := wio) (PageIsClosed (page existing)) (λ closed,
           if closed : bool then
             bind (await_handle (NewPage (context existing)) (λ x, x))
               (λ p, Update (assign ref (λ s, with_page s p)) (Ret ref))
           else Ret ref)
     end))).

(** [context.pages()[0] ?? (await context.newPage())] *)
Definition first_page_or_new (context : nat) : Job nat :=
  Query (I := wio) (FirstPage context) (λ first,
    match first with
    | Some p => Ret p
    | None => await_handle (NewPage context) (λ x, x)
    end).

(** [try { cursor = await createHumanCursor(page) } catch { console.warn(..) }] *)
Definition cursor_or_null (page : nat) (warning : string) : Job (option nat) :=
  try_catch
    (bind (await_handle (CreateHumanCursor page) (λ x, x)) (λ c, Ret (Some c)))
    (λ _, Query (I := wio) (ConsoleWarn warning) (λ _, Ret None)).

Section Manager.
(** [PROFILES_DIR], from the environment of the process *)
Variable PROFILES_DIR : string.

Definition DEFAULT_CDP_URL : string := "http://127.0.0.1:9222".

(** [async connectViaCDP(profileId, cdpUrl = DEFAULT_CDP_URL)] *)
Definition connectViaCDP (profileId : string) (cdpUrl : option string) : Job nat :=
  Read (λ m,
    match JsMap.get profileId (sessions m) with
    | Some ref => reuse ref
    | None =>
        Query (I := wio) (ResolveCdpWebSocketUrl (default DEFAULT_CDP_URL cdpUrl)) (λ wsUrl,
        Query (I := wio)
          (ConsoleLog ("[web-actions] connecting to Chrome via CDP: " +:+ wsUrl)) (λ _,
        bind (await_handle (ConnectOverCDP wsUrl) (λ x, x)) (λ browser,
        Query (I := wio) (FirstContext browser) (λ first,
        bind (match first with
              | Some c => Ret c
              | None => await_handle (NewContext browser) (λ x, x)
              end) (λ context,
        bind (await_done (ApplyStealthToContext context) (λ x, x)) (λ _,
        bind (first_page_or_new context) (λ page,
        bind (await_done (SetViewportSize page 1280 800) (λ x, x)) (λ _,
        Query (I := wio) DateNow (λ now,
        bind (cursor_or_null page
                ("[web-actions] ghost-cursor init failed for " +:+ profileId
                   +:+ " (CDP), continuing without")) (λ cursor,
        register (mkSession profileId context page cursor now now (Some browser))))))))))))
    end).

(** [async getOrCreateSession(profileId, options?)], with [options?.headless]
    and [options?.cdpUrl] *)
Definition getOrCreateSession (profileId : string) (headless : option bool)
    (cdpUrl : option string) : Job nat :=
  Read (λ m,
    match JsMap.get profileId (sessions m) with
    | Some ref => reuse ref
    | None =>
        match cdpUrl with
        | Some (String _ _ as given) => connectViaCDP profileId (Some given)
        | _ =>
            let userDataDir := PROFILES_DIR +:+ "/" +:+ profileId +:+ "/browser-data" in
            let isHeaded := negb (default true headless) in
            bind (await_handle (LaunchPersistentContext userDataDir (negb isHeaded)) (λ x, x))
              (λ context,
            bind (await_done (ApplyStealthToContext context) (λ x, x)) (λ _,
            bind (first_page_or_new context) (λ page,
            bind (cursor_or_null page
                    ("[web-actions] ghost-cursor init failed for " +:+ profileId
                       +:+ ", continuing without")) (λ cursor,
            Query (I := wio) DateNow (λ now,
            register (mkSession profileId context page cursor now now None))))))
        end
    end).

(** [async closeSession(profileId)]; [.catch(() => {})] swallows what the
    closing throws. *)
Definition closeSession (profileId : string) : Job bool :=
  Read (λ m,
    match JsMap.get profileId (sessions m) with
    | None => Ret false
    | Some ref =>
        match objects m !! ref with
        | None => Throw (ErrorObj "no such session object")
        | Some session =>
            Await (I := wio)
              (match cdpBrowser session with
               | Some browser => CloseBrowser browser
               | None => CloseContext (context session)
               end)
              (λ _, Update (λ m, mkManager (JsMap.delete profileId (sessions m)) (objects m))
                      (Ret true))
        end
    end).

End Manager.
End WebActions.

(** ** Idle sessions and shutdown ([cleanupIdle], [stop]) *)
Module SessionCleanup.
Import Async WebActions.

(** [SESSION_IDLE_TIMEOUT_MS], 30 minutes *)
Definition SESSION_IDLE_TIMEOUT_MS : Z := 30 * 60 * 1000.

(** [now - session.lastActivity > SESSION_IDLE_TIMEOUT_MS] *)
Definition idle (now : Z) (session : WebSession) : bool :=
  SESSION_IDLE_TIMEOUT_MS <? now - lastActivity session.

(** The first loop of [cleanupIdle]: the array [expired], the profiles of
    the idle sessions in the map's order. (Every name in the map is the name
    of an object; a name without object is passed over.) *)
Definition expired (now : Z) (m : Manager) : list string :=
  omap (λ entry : string * nat,
          match objects m !! entry.2 with
          | Some session => if idle now session then Some entry.1 else None
          | None => None
          end) (sessions m).

(** The second loop:
    [for (const id of expired) { console.log(..); await this.closeSession(id) }] *)
Fixpoint close_each (ids : list string) : Job unit :=
  match ids with
  | [] => Ret tt
  | id :: rest =>
      Query (I := wio) (ConsoleLog ("[web-actions] closing idle session: " +:+ id)) (λ _,
        bind (closeSession id) (λ _, close_each rest))
  end.

(** [private async cleanupIdle()] *)
Definition cleanupIdle : Job unit :=
  Query (I := wio) DateNow (λ now, Read (λ m, close_each (expired now m))).

(** [s.context.close().catch(() => {})] *)
Definition close_quietly (s : WebSession) : Job unit :=
  Await (I := wio) (CloseContext (context s)) (λ _, Ret tt).

(** [[...this.sessions.values()]] *)
Definition session_values (m : Manager) : list WebSession :=
  omap (λ entry : string * nat, objects m !! entry.2) (sessions m).

(** [async stop()], without the timer, which is not part of the state
    modelled here: every close is called at once, [Promise.allSettled]
    waits until each has been answered, in the order [sched] gives, and then
    the map is cleared. The result tells whether the function has returned
    ([false]: the schedule ended while a close was unanswered). *)
Definition stop (E : Environment wio) (sched : list nat) (w : World E (St := Manager))
  : World E (St := Manager) * bool :=
  let closing := close_quietly <$> session_values (store w) in
  let started := spawn E closing w in
  let ended := drive E sched started.2 started.1 in
  match waiting ended.1.2 with
  | [] => (with_store E ended.1.1 (mkManager [] (objects (store ended.1.1))), true)
  | _ :: _ => (ended.1.1, false)
  end.

End SessionCleanup.

(** ** Randomised browser identity (utils/stealth) *)
Module Stealth.

Definition CHROME_VERSIONS : list string :=
  ["131.0.6778.204"; "132.0.6834.83"; "133.0.6943.53"; "134.0.6998.35"].
Definition FIREFOX_VERSIONS : list string := ["133.0"; "134.0"].
Definition SAFARI_VERSIONS : list string := ["17.6"; "18.0"; "18.1"].

Record Platform : Type := mkPlatform {
  os : string;
  platform : string;
}.

Definition PLATFORMS : list Platform :=
  [ mkPlatform "Windows NT 10.0; Win64; x64" "Win32";
    mkPlatform "Windows NT 11.0; Win64; x64" "Win32";
    mkPlatform "Macintosh; Intel Mac OS X 10_15_7" "MacIntel";
    mkPlatform "Macintosh; Intel Mac OS X 14_0" "MacIntel";
    mkPlatform "X11; Linux x86_64" "Linux x86_64" ].

(** [function buildUserAgents()]: the three loops, in their order. *)
Definition buildUserAgents : list string :=
  (p ← PLATFORMS; v ← CHROME_VERSIONS;
     ["Mozilla/5.0 (" +:+ os p +:+ ") AppleWebKit/537.36 (KHTML, like Gecko) Chrome/"
        +:+ v +:+ " Safari/537.36"])
  ++ (v ← FIREFOX_VERSIONS;
        ["Mozilla/5.0 (Windows NT 10.0; Win64; x64; rv:" +:+ v
           +:+ ") Gecko/20100101 Firefox/" +:+ v;
         "Mozilla/5.0 (Macintosh; Intel Mac OS X 10.15; rv:" +:+ v
           +:+ ") Gecko/20100101 Firefox/" +:+ v])
  ++ (v ← SAFARI_VERSIONS;
        ["Mozilla/5.0 (Macintosh; Intel Mac OS X 10_15_7) AppleWebKit/605.1.15 (KHTML, like Gecko) Version/"
           +:+ v +:+ " Safari/605.1.15"]).

Definition USER_AGENTS : list string := buildUserAgents.

Record Viewport : Type := mkViewport {
  width : Z;
  height : Z;
}.

Definition VIEWPORTS : list Viewport :=
  [ mkViewport 1920 1080; mkViewport 1366 768; mkViewport 1536 864;
    mkViewport 1440 900; mkViewport 1280 720; mkViewport 2560 1440;
    mkViewport 1680 1050; mkViewport 1600 900 ].

Definition LANGUAGES : list string :=
  [ "en-US,en;q=0.9"; "en-GB,en;q=0.9"; "en-US,en;q=0.9,es;q=0.8";
    "en-US,en;q=0.9,fr;q=0.8"; "it-IT,it;q=0.9,en;q=0.8"; "de-DE,de;q=0.9,en;q=0.8" ].

Definition TIMEZONES : list string :=
  [ "America/New_York"; "America/Chicago"; "America/Los_Angeles"; "Europe/London";
    "Europe/Paris"; "Europe/Berlin"; "Europe/Rome"; "Asia/Tokyo" ].

(** [POOL[Math.floor(random * POOL.length)]], with [random] what
    [Math.random()] returned; an index outside the array reads [undefined]. *)
Definition pick {A} (random : Q) (pool : list A) : option A :=
  let index := Qfloor (random * inject_Z (Z.of_nat (length pool))) in
  if index <? 0 then None else pool !! Z.to_nat index.

Definition getRandomUserAgent (random : Q) : option string := pick random USER_AGENTS.
Definition getRandomViewport (random : Q) : option Viewport := pick random VIEWPORTS.
Definition getRandomLanguage (random : Q) : option string := pick random LANGUAGES.
Definition getRandomTimezone (random : Q) : option string := pick random TIMEZONES.

End Stealth.

(** ** Concrete caches for the examples *)
Module CacheSamples.

Definition page (ts : Z) : LruCache.CacheEntry string :=
  LruCache.mkEntry "page" ts None None.

(** [new LruCache(500, 0)] *)
Definition zero_ttl : LruCache.LruCache string :=
  LruCache.new (Some 500) (Some 0).

(** [new LruCache(0)] *)
Definition no_room : LruCache.LruCache string :=
  LruCache.new (Some 0) None.

(** A cache of capacity 2 that holds ["a"] (stamped 5) and ["b"] (stamped 3). *)
Definition full : LruCache.LruCache string :=
  LruCache.mkCache [("a", page 5); ("b", page 3)] 2 1000.

(** [new LRUCache(2)] of the Playwright adapter after [set("a")] at time 0
    and [set("b")] at time 1. *)
Definition playwright_ab : PlaywrightLRU.LRUCache string :=
  PlaywrightLRU.set 1 "b" "B"
    (PlaywrightLRU.set 0 "a" "A" (PlaywrightLRU.new (Some 2) None)).

End CacheSamples.

(** ** A concrete page for the examples *)
Module CDPSamples.
Import CDP.

(** The frames of the examples, abbreviated: what [JSON.parse] makes of them. *)
Definition parse (data : string) : Parsed :=
  if decide (data = "id 1, result {}") then
    ParsedObject (mkMessage (Some (IdNumber 1)) (Some "{}") None)
  else if decide (data = "id 7, result {}") then
    ParsedObject (mkMessage (Some (IdNumber 7)) (Some "{}") None)
  else if decide (data = "id 1, error") then
    ParsedObject (mkMessage (Some (IdNumber 1)) None (Some "Cannot navigate"))
  else ParseFails "Unexpected token".

Definition info : CDPPageInfo := mkPageInfo "page-1" "ws://127.0.0.1:9222/devtools/page/1".

(** A connected page with one command in flight. *)
Definition one_pending : CDPPage :=
  (send "Page.navigate" None (connect (new info))).1.

(** The same page after [close()]. *)
Definition closed : CDPPage := (close None one_pending).1.

End CDPSamples.

(** ** A scripted outside for the examples *)
Module ScrapeSamples.
Import Async ScrapeIO Playwright.

(** A content parser that keeps the text as it is and finds nothing. *)
Definition parser : ContentParser :=
  mkParser (list string) (list string) (list (string * string))
    (λ html, html) (λ html, html) (λ _ _, []) (λ _ _, []) (λ _, []).

Definition page_of (url : string) : Rendered :=
  mkRendered url ("<p>" +:+ url +:+ "</p>") url (Some 200) (Some "text/html").

(** The state of the outside is a clock. Reading the clock and answering a
    request take one tick each. The abort signal [n] is aborted from time [n]
    on. When [online], every page renders; otherwise every navigation fails. *)
Definition scripted (online : bool) : Environment io :=
  mkEnvironment io Z
    (λ q, match q as q' return Z → Ans q' * Z with
          | DateNow => λ now, (now, now + 1)
          | MathRandom => λ now, (0%Q, now)
          | SignalAborted sg => λ now, (Z.of_nat sg <=? now, now)
          | OnProgress _ => λ now, (tt, now)
          end)
    (λ r, match r as r' return Z → Rep r' * Z with
          | Render url _ _ _ _ => λ now,
              (if online then inr (page_of url)
               else inl (ErrorObj "net::ERR_CONNECTION_REFUSED"), now + 1)
          | Teardown => λ now, (None, now + 1)
          | Sleep _ => λ now, (tt, now + 1)
          end).

(** [{}]: every option absent. *)
Definition no_options : ScrapeCallOptions :=
  mkScrapeOptions None None None None None None None None false None.

(** [{ retries: 1 }], and the same with the signal [sg]. *)
Definition one_retry : BatchCallOptions :=
  mkBatchOptions None (Some 1) None false None no_options.

Definition one_retry_with (sg : nat) : BatchCallOptions :=
  mkBatchOptions None (Some 1) None false (Some sg) no_options.

(** A new adapter, at time 0, with no request made yet. *)
Definition at_start (online : bool) : World (scripted online) (St := Adapter (H := parser)) :=
  mkWorld (new (H := parser) None None) (0 : Env (scripted online)) [].

(** The same adapter at time 10, and the shared state of a batch that is
    about to start its first window. *)
Definition late : World (scripted true) (St := Adapter (H := parser)) :=
  with_env (scripted true) (at_start true) (10 : Env (scripted true)).

Definition batch_start : World (scripted true) (St := Batch (H := parser) Adapter) :=
  mkWorld (mkBatch (new (H := parser) None None) ∅ ∅ []) (0 : Env (scripted true)) [].

Definition example_url : string := "https://example.com/".

(** An adapter that has scraped ["a"] while the backend was up, at a later
    time, with the backend down. *)
Definition warm : World (scripted false) (St := Adapter (H := parser)) :=
  mkWorld (store (run (scripted true) (scrape (H := parser) "a" no_options) (at_start true)).1)
    (10 : Env (scripted false)) [].

(** [{ retries: -1 }] *)
Definition no_attempt : BatchCallOptions :=
  mkBatchOptions None (Some (-1)) None false None no_options.

(** A schedule that always answers the first suspended task. *)
Definition in_order (n : nat) : list nat := replicate n 0%nat.

End ScrapeSamples.

(** ** A cancelled caller, and a caller that wants no cache *)
Module CancelSamples.
Import Async ScrapeIO Playwright ScrapeSamples.

(** The outside of [scripted true], except that every abort signal reads as
    aborted. *)
Definition cancelled : Environment io :=
  mkEnvironment io Z
    (λ q, match q as q' return Z → Ans q' * Z with
          | DateNow => λ now, (now, now + 1)
          | MathRandom => λ now, (0%Q, now)
          | SignalAborted _ => λ now, (true, now)
          | OnProgress _ => λ now, (tt, now)
          end)
    (λ r, match r as r' return Z → Rep r' * Z with
          | Render url _ _ _ _ => λ now, (inr (page_of url), now + 1)
          | Teardown => λ now, (None, now + 1)
          | Sleep _ => λ now, (tt, now + 1)
          end).

(** [{ signal }] and [{ cache: false }] *)
Definition with_abort_signal : ScrapeCallOptions :=
  mkScrapeOptions None None None None None None None None false (Some 0%nat).

Definition uncached : ScrapeCallOptions :=
  mkScrapeOptions None None None None None None (Some false) None false None.

Definition cancelled_start : World cancelled (St := Adapter (H := parser)) :=
  mkWorld (new (H := parser) None None) (0 : Env cancelled) [].

End CancelSamples.

(** ** An outside for the session manager *)
Module WebSamples.
Import Async WebActions.

(** An outside in which everything succeeds: its state is the next free
    handle, which is also the time; no context has a page yet and no page is
    closed. *)
Definition obliging : Environment wio :=
  mkEnvironment wio nat
    (λ q, match q as q' return nat → Ans q' * nat with
          | DateNow => λ n, (Z.of_nat n, n)
          | PageIsClosed _ => λ n, (false, n)
          | FirstPage _ => λ n, (None, n)
          | FirstContext _ => λ n, (None, n)
          | ResolveCdpWebSocketUrl u => λ n, (u, n)
          | ConsoleLog _ => λ n, (tt, n)
          | ConsoleWarn _ => λ n, (tt, n)
          end)
    (λ r, match r as r' return nat → Rep r' * nat with
          | LaunchPersistentContext _ _ => λ n, (inr n, S n)
          | ConnectOverCDP _ => λ n, (inr n, S n)
          | NewContext _ => λ n, (inr n, S n)
          | ApplyStealthToContext _ => λ n, (None, n)
          | NewPage _ => λ n, (inr n, S n)
          | SetViewportSize _ _ _ => λ n, (None, n)
          | CreateHumanCursor _ => λ n, (inr n, S n)
          | CloseContext _ => λ n, (None, n)
          | CloseBrowser _ => λ n, (None, n)
          end).

(** [new WebActionManager()] *)
Definition empty : World obliging (St := Manager) :=
  mkWorld (mkManager [] []) (0%nat : Env obliging) [].

Definition profiles : string := "/home/u/.onecrawl/profiles".

(** Two calls for the profile ["work"], made one right after the other
    without awaiting the first, and run to the end. *)
Definition two_calls : World obliging (St := Manager) * list (Susp (I := wio) Manager nat) :=
  let started := spawn obliging
      [getOrCreateSession profiles "work" None None;
       getOrCreateSession profiles "work" None None] empty in
  (drive obliging (replicate 16 0%nat) started.2 started.1).1.

End WebSamples.

(** ** An outside with a slow clock for the session manager *)
Module SessionSamples.
Import Async WebActions.

(** An outside whose clock advances by twenty minutes with every reading.
    Every request succeeds, except that closing a context fails. *)
Definition slow_clock : Environment wio :=
  mkEnvironment wio Z
    (λ q, match q as q' return Z → Ans q' * Z with
          | DateNow => λ now, (now, now + 20 * 60 * 1000)
          | PageIsClosed _ => λ now, (false, now)
          | FirstPage _ => λ now, (None, now)
          | FirstContext _ => λ now, (None, now)
          | ResolveCdpWebSocketUrl u => λ now, (u, now)
          | ConsoleLog _ => λ now, (tt, now)
          | ConsoleWarn _ => λ now, (tt, now)
          end)
    (λ r, match r as r' return Z → Rep r' * Z with
          | LaunchPersistentContext _ _ => λ now, (inr 1%nat, now)
          | ConnectOverCDP _ => λ now, (inr 2%nat, now)
          | NewContext _ => λ now, (inr 3%nat, now)
          | ApplyStealthToContext _ => λ now, (None, now)
          | NewPage _ => λ now, (inr 4%nat, now)
          | SetViewportSize _ _ _ => λ now, (None, now)
          | CreateHumanCursor _ => λ now, (inr 5%nat, now)
          | CloseContext _ => λ now, (Some (ErrorObj "Target closed"), now)
          | CloseBrowser _ => λ now, (None, now)
          end).

(** A manager with a launched session for ["work"], made at time 0, and a
    session for ["home"] attached over CDP twenty minutes later; it is now
    forty minutes past 0. *)
Definition two_profiles : World slow_clock (St := Manager) :=
  let w1 := (run slow_clock (getOrCreateSession WebSamples.profiles "work" None None)
               (mkWorld (mkManager [] []) (0 : Env slow_clock) [])).1 in
  (run slow_clock
     (getOrCreateSession WebSamples.profiles "home" None (Some "ws://127.0.0.1:9222/devtools/browser/b"))
     w1).1.

End SessionSamples.

(** ** Scrapers for the examples of the use case *)
Module UseCaseSamples.
Import Async ScrapeIO Playwright ScrapeSamples UseCase.

Abbreviation Port := (ScraperPort (H := parser) (I := io) (St := Adapter (H := parser))).

(** The Playwright adapter, taken to be available; a browser scraper that
    reports itself unavailable; and an HTTP scraper whose request fails. *)
Definition playwright_port : Port := mkPort (Ret true) (Playwright.scrape (H := parser)).

Definition absent_port : Port := mkPort (Ret false) (Playwright.scrape (H := parser)).

Definition failing_http : Port :=
  mkPort (Ret true) (λ _ _, Throw (ErrorObj "fetch failed")).

(** [{ preferBrowser: true }] and [{ preferBrowser: true, fallbackToFetch: false }] *)
Definition prefer_browser : ScrapeUseCaseOptions :=
  mkUseCaseOptions (Some true) None None no_options.

Definition browser_only : ScrapeUseCaseOptions :=
  mkUseCaseOptions (Some true) None (Some false) no_options.

End UseCaseSamples.

(** * Properties *)

(** ** A fact about [filter] *)

Lemma filter_all {A} (P : A → Prop) `{!∀ x, Decision (P x)} (l : list A) :
  Forall P l → filter P l = l.
Proof.
  induction 1 as [|x l Hx _ IH]; [done|].
  rewrite filter_cons_True by done. by rewrite IH.
Qed.

Lemma filter_none {A} (P : A → Prop) `{!∀ x, Decision (P x)} (l : list A) :
  Forall (λ x, ¬ P x) l → filter P l = [].
Proof.
  induction 1 as [|x l Hx _ IH]; [done|].
  rewrite filter_cons_False by done. by rewrite IH.
Qed.

Lemma filter_iff_in {A} (P Q : A → Prop) `{∀ x, Decision (P x)} `{∀ x, Decision (Q x)}
    (l : list A) :
  (∀ x, x ∈ l → P x ↔ Q x) → filter P l = filter Q l.
Proof.
  induction l as [|x l IH]; intros Hl; [done|].
  assert (Hx : P x ↔ Q x) by (apply Hl; left).
  assert (Hrest : filter P l = filter Q l) by (apply IH; intros y Hy; apply Hl; by right).
  destruct (decide (P x)) as [HP|HP].
  - rewrite !filter_cons_True by tauto. by rewrite Hrest.
  - rewrite !filter_cons_False by tauto. done.
Qed.

(** ** Facts about [JsMap] *)
Module JsMapFacts.
Section Facts.
Context {V : Type}.
Implicit Types (m : JsMap.jsmap V) (k : string) (v : V).

Lemma get_None_keys k m : JsMap.get k m = None ↔ k ∉ JsMap.keys m.
Proof.
  unfold JsMap.keys. induction m as [|[k' v'] m IH]; simpl.
  - split; [intros _; apply not_elem_of_nil | done].
  - destruct (decide (k' = k)) as [->|Hne].
    + split; [done | intros H; exfalso; apply H; left].
    + rewrite IH, not_elem_of_cons. split; [intros H; split; [congruence|done] | by intros [_ H]].
Qed.

Lemma get_Some_elem k v m : JsMap.get k m = Some v → (k, v) ∈ m.
Proof.
  induction m as [|[k' v'] m IH]; simpl; [done|].
  destruct (decide (k' = k)) as [->|Hne].
  - intros [= ->]. left.
  - intros H. right. auto.
Qed.

Lemma set_new k v m : k ∉ JsMap.keys m → JsMap.set k v m = m ++ [(k, v)].
Proof.
  unfold JsMap.keys. induction m as [|[k' v'] m IH]; simpl; [done|].
  rewrite not_elem_of_cons. intros [Hne Hnin].
  destruct (decide (k' = k)); [congruence|]. by rewrite IH.
Qed.

Lemma get_set_eq k v m : JsMap.get k (JsMap.set k v m) = Some v.
Proof.
  induction m as [|[k' v'] m IH]; simpl.
  - by destruct (decide (k = k)).
  - destruct (decide (k' = k)) as [->|Hne]; simpl.
    + by destruct (decide (k = k)).
    + by destruct (decide (k' = k)).
Qed.

Lemma keys_delete k m : JsMap.keys (JsMap.delete k m) = filter (λ k', k' ≠ k) (JsMap.keys m).
Proof.
  unfold JsMap.keys, JsMap.delete. induction m as [|[k' v'] m IH]; [done|].
  rewrite fmap_cons. simpl. destruct (decide (k' ≠ k)) as [Hne|Heq].
  - rewrite !filter_cons_True by done. csimpl. f_equal. exact IH.
  - rewrite !filter_cons_False by (simpl; auto). exact IH.
Qed.

Lemma get_delete_eq k m : JsMap.get k (JsMap.delete k m) = None.
Proof.
  apply get_None_keys. rewrite keys_delete, list_elem_of_filter. by intros [H _].
Qed.

Lemma delete_absent k m : k ∉ JsMap.keys m → JsMap.delete k m = m.
Proof.
  unfold JsMap.keys, JsMap.delete. induction m as [|[k' v'] m IH]; [done|].
  rewrite fmap_cons, not_elem_of_cons. simpl. intros [Hne Hnin].
  rewrite filter_cons_True by done. f_equal. by apply IH.
Qed.

Lemma wf_delete k m : JsMap.wf m → JsMap.wf (JsMap.delete k m).
Proof. unfold JsMap.wf. rewrite keys_delete. apply NoDup_filter. Qed.

Lemma keys_set k v m :
  JsMap.keys (JsMap.set k v m) =
    if decide (k ∈ JsMap.keys m) then JsMap.keys m else JsMap.keys m ++ [k].
Proof.
  unfold JsMap.keys. induction m as [|[k' v'] m IH]; [done|].
  cbn [JsMap.set]. destruct (decide (k' = k)) as [->|Hne].
  - rewrite !fmap_cons. cbn [fst]. rewrite decide_True by left. done.
  - rewrite !fmap_cons, IH. cbn [fst].
    destruct (decide (k ∈ m.*1)) as [Hin|Hnin].
    + rewrite decide_True by (by right). done.
    + rewrite decide_False; [done|]. rewrite not_elem_of_cons. split; [congruence|done].
Qed.

Lemma wf_set k v m : JsMap.wf m → JsMap.wf (JsMap.set k v m).
Proof.
  unfold JsMap.wf. rewrite keys_set. intros Hwf.
  destruct (decide (k ∈ JsMap.keys m)); [done|].
  apply NoDup_app. split_and!; [done| |apply NoDup_singleton].
  intros x Hx Hk. apply list_elem_of_singleton in Hk. by subst.
Qed.

Lemma size_set k v m :
  JsMap.size (JsMap.set k v m) =
    if decide (k ∈ JsMap.keys m) then JsMap.size m else JsMap.size m + 1.
Proof.
  unfold JsMap.size.
  rewrite <- (length_fmap fst (JsMap.set k v m)), <- (length_fmap fst m).
  fold (JsMap.keys (JsMap.set k v m)). rewrite keys_set.
  destruct (decide (k ∈ JsMap.keys m)); [done|].
  rewrite length_app. simpl. unfold JsMap.keys. lia.
Qed.

Lemma get_set_ne k k' v m : k' ≠ k → JsMap.get k' (JsMap.set k v m) = JsMap.get k' m.
Proof.
  intros Hne. induction m as [|[k0 v0] m IH]; simpl.
  - by rewrite decide_False by congruence.
  - destruct (decide (k0 = k)) as [->|Hne0]; simpl.
    + by rewrite !decide_False by congruence.
    + destruct (decide (k0 = k')); [done|exact IH].
Qed.

Lemma get_delete_ne k k' m : k' ≠ k → JsMap.get k' (JsMap.delete k m) = JsMap.get k' m.
Proof.
  intros Hne. unfold JsMap.delete. induction m as [|[k0 v0] m IH]; [done|].
  destruct (decide (k0 = k)) as [->|Hne0].
  - rewrite filter_cons_False by (simpl; auto). simpl.
    by rewrite decide_False by congruence.
  - rewrite filter_cons_True by done. simpl. by rewrite IH.
Qed.

Lemma wf_filter (P : string * V → Prop) `{∀ x, Decision (P x)} m :
  JsMap.wf m → JsMap.wf (filter P m).
Proof.
  unfold JsMap.wf, JsMap.keys. intros Hwf.
  apply (sublist_NoDup _ m.*1); [done|]. apply fmap_sublist, sublist_filter.
Qed.

Lemma size_delete_present key m :
  JsMap.wf m → key ∈ JsMap.keys m →
  JsMap.size (JsMap.delete key m) = JsMap.size m - 1.
Proof.
  unfold JsMap.wf, JsMap.keys, JsMap.size, JsMap.delete.
  induction m as [|[k v] m IH]; intros Hwf Hin; [by apply elem_of_nil in Hin|].
  rewrite fmap_cons in Hwf, Hin. apply NoDup_cons in Hwf as [Hk Hwf]. cbn [fst] in *.
  destruct (decide (k = key)) as [->|Hne].
  - rewrite filter_cons_False by (simpl; auto).
    rewrite filter_all; [simpl; lia|].
    apply Forall_forall. intros p Hp Heq. apply Hk. rewrite <- Heq.
    by apply list_elem_of_fmap_2.
  - rewrite filter_cons_True by done. apply elem_of_cons in Hin as [Hin|Hin]; [congruence|].
    specialize (IH Hwf Hin). simpl. lia.
Qed.

Lemma size_delete_le key m :
  JsMap.size (JsMap.delete key m) ≤ JsMap.size m.
Proof.
  unfold JsMap.size, JsMap.delete.
  pose proof (length_filter (λ p : string * V, p.1 ≠ key) m). lia.
Qed.

Lemma keys_delete_subseteq key m k :
  k ∈ JsMap.keys (JsMap.delete key m) → k ∈ JsMap.keys m ∧ k ≠ key.
Proof. rewrite keys_delete, list_elem_of_filter. tauto. Qed.

End Facts.
End JsMapFacts.

(** ** The fetch-pool result cache *)
Module LruCacheFacts.
Import LruCache.

Section Facts.
Context {T : Type}.
Implicit Types (c : LruCache T) (e : CacheEntry T) (l es : JsMap.jsmap (CacheEntry T)).

(** "Not newer than", the order [evict] sorts by. *)
Definition older (a b : string * CacheEntry T) : Prop :=
  timestamp a.2 ≤ timestamp b.2.

Lemma insert_by_timestamp_perm x l : insert_by_timestamp x l ≡ₚ x :: l.
Proof.
  induction l as [|y l IH]; simpl; [done|].
  destruct (timestamp x.2 <=? timestamp y.2); [done|].
  rewrite IH. apply Permutation_swap.
Qed.

Lemma sort_by_timestamp_perm l : sort_by_timestamp l ≡ₚ l.
Proof.
  induction l as [|x l IH]; simpl; [done|].
  rewrite insert_by_timestamp_perm. by rewrite IH.
Qed.

Lemma insert_by_timestamp_sorted x l :
  StronglySorted older l → StronglySorted older (insert_by_timestamp x l).
Proof.
  induction l as [|y l IH]; simpl; intros Hs.
  - repeat constructor.
  - apply StronglySorted_cons in Hs as [Hy Hl].
    destruct (Z.leb_spec (timestamp x.2) (timestamp y.2)) as [Hle|Hlt].
    + apply StronglySorted_cons. split; [|by apply StronglySorted_cons].
      constructor; [done|].
      eapply Forall_impl; [exact Hy|]. unfold older. intros z Hz. simpl in *. lia.
    + apply StronglySorted_cons. split; [|by apply IH].
      rewrite insert_by_timestamp_perm. constructor; [|done].
      unfold older. lia.
Qed.

Lemma sort_by_timestamp_sorted l : StronglySorted older (sort_by_timestamp l).
Proof.
  induction l as [|x l IH]; simpl; [constructor|].
  by apply insert_by_timestamp_sorted.
Qed.

(** The eviction loop, when the sorted array is long enough, deletes the
    keys of its first [n] elements and does not throw. *)
Lemma evict_loop_deletes n : ∀ sorted es,
  (n ≤ length sorted)%nat →
  evict_loop n sorted es = (None, filter (λ p, p.1 ∉ (take n sorted).*1) es).
Proof.
  induction n as [|n IH]; intros sorted es Hn.
  - cbn [evict_loop]. f_equal. symmetry. apply filter_all, Forall_forall.
    intros p _. rewrite take_0. apply not_elem_of_nil.
  - destruct sorted as [|[k e] rest]; simpl in Hn; [lia|].
    cbn [evict_loop]. rewrite IH by lia. f_equal. unfold JsMap.delete.
    rewrite list_filter_filter. apply list_filter_iff.
    intros p. rewrite firstn_cons, fmap_cons, not_elem_of_cons. simpl. tauto.
Qed.

(** Removing the keys of the first [n] elements of a rearrangement of a
    map leaves all but [n] of its entries. *)
Lemma length_filter_outside_take (sorted es : JsMap.jsmap (CacheEntry T)) n :
  sorted ≡ₚ es → NoDup sorted.*1 → (n ≤ length sorted)%nat →
  length (filter (λ p, p.1 ∉ (take n sorted).*1) es) = (length es - n)%nat.
Proof.
  intros Hperm Hnd Hn. rewrite <- Hperm. clear Hperm es.
  assert (Hlen : length (take n sorted) = n) by (rewrite length_take; lia).
  pose proof (take_drop n sorted) as Hsplit.
  set (t := take n sorted) in *. set (d := drop n sorted) in *.
  clearbody t d. subst sorted.
  rewrite filter_app, !length_app.
  rewrite fmap_app in Hnd.
  apply NoDup_app in Hnd as (_ & Hdisj & _).
  rewrite (filter_none _ t), (filter_all _ d).
  - simpl. lia.
  - apply Forall_forall. intros p Hp Hin. apply (Hdisj _ Hin).
    by apply list_elem_of_fmap_2.
  - apply Forall_forall. intros p Hp Hnin. apply Hnin.
    by apply list_elem_of_fmap_2.
Qed.

(** The number of entries a full cache of positive capacity gives up is
    within its size. *)
Lemma evict_count_le_size c :
  0 < maxSize c → maxSize c ≤ JsMap.size (entries c) →
  (Z.to_nat (evict_count c) ≤ length (entries c))%nat.
Proof.
  unfold evict_count, JsMap.size. intros Hpos Hfull.
  assert (maxSize c / 10 ≤ maxSize c) by (apply Z.div_le_upper_bound; lia).
  lia.
Qed.

(** A key that the map does not hold goes last when it is set. *)
Lemma set_under_capacity key e c :
  JsMap.size (entries c) < maxSize c →
  set key e c = (None, with_entries c (JsMap.set key e (entries c))).
Proof.
  intros Hlt. unfold set.
  destruct (Z.leb_spec (maxSize c) (JsMap.size (entries c))); [lia|done].
Qed.

Lemma get_fresh_or_expired now key e c :
  JsMap.get key (entries c) = Some e →
  (get now key c).1 = if ttl c <? now - timestamp e then None else Some e.
Proof.
  intros Hget. unfold get. rewrite Hget.
  by destruct (ttl c <? now - timestamp e).
Qed.


(** C8 (as amended). A cache of positive capacity whose entry count has
    reached the capacity, on [set] of a key it does not hold: the call does
    not throw, it removes exactly [max(1, floor(maxSize * 0.1))] of the
    entries, none of them newer than an entry that stays, and then appends
    the new entry. *)
Theorem set_at_capacity_evicts_oldest key e c :
  JsMap.wf (entries c) →
  0 < maxSize c →
  maxSize c ≤ JsMap.size (entries c) →
  JsMap.get key (entries c) = None →
  ∃ victims : JsMap.jsmap (CacheEntry T),
    victims ⊆ entries c ∧
    NoDup victims.*1 ∧
    Z.of_nat (length victims) = Z.max 1 (maxSize c / 10) ∧
    (∀ v s, v ∈ victims → s ∈ entries c → s.1 ∉ victims.*1 →
            timestamp v.2 ≤ timestamp s.2) ∧
    set key e c =
      (None, with_entries c (filter (λ p, p.1 ∉ victims.*1) (entries c) ++ [(key, e)])) ∧
    JsMap.size (filter (λ p, p.1 ∉ victims.*1) (entries c) ++ [(key, e)]) =
      JsMap.size (entries c) - Z.max 1 (maxSize c / 10) + 1.
Proof.
  intros Hwf Hpos Hfull Hnew.
  pose proof (evict_count_le_size c Hpos Hfull) as Hn.
  set (n := Z.to_nat (evict_count c)) in *.
  set (sorted := sort_by_timestamp (entries c)).
  assert (Hperm : sorted ≡ₚ entries c) by apply sort_by_timestamp_perm.
  assert (Hsorted : StronglySorted older sorted) by apply sort_by_timestamp_sorted.
  assert (Hlen : length (take n sorted) = n).
  { rewrite length_take, Hperm. lia. }
  assert (Hnd_all : NoDup sorted.*1).
  { unfold JsMap.wf, JsMap.keys in Hwf. by rewrite Hperm. }
  assert (Hnd : NoDup (take n sorted).*1).
  { apply (sublist_NoDup _ sorted.*1); [done|].
    apply fmap_sublist, sublist_take. }
  exists (take n sorted). split_and!.
  - intros x Hx. rewrite <- Hperm. by apply (subseteq_take n sorted).
  - done.
  - rewrite Hlen. unfold n, evict_count. lia.
  - intros v s Hv Hs Hout.
    rewrite <- Hperm, <- (take_drop n sorted), elem_of_app in Hs.
    destruct Hs as [Hs|Hs].
    + exfalso. apply Hout. by apply list_elem_of_fmap_2.
    + rewrite <- (take_drop n sorted) in Hsorted.
      exact (StronglySorted_app_1_elem_of _ _ _ _ _ Hsorted Hv Hs).
  - unfold set.
    destruct (Z.leb_spec (maxSize c) (JsMap.size (entries c))); [|lia].
    unfold evict. fold sorted. fold n.
    rewrite evict_loop_deletes by (rewrite Hperm; exact Hn).
    cbn [with_entries entries maxSize ttl]. f_equal. f_equal.
    apply JsMapFacts.set_new.
    apply JsMapFacts.get_None_keys in Hnew.
    unfold JsMap.keys in *. rewrite list_elem_of_fmap.
    intros [p [-> Hp]]. apply list_elem_of_filter in Hp as [_ Hp].
    apply Hnew. by apply list_elem_of_fmap_2.
  - unfold JsMap.size. rewrite length_app. simpl length.
    assert (Hsplit : length (filter (λ p : string * CacheEntry T, p.1 ∉ (take n sorted).*1) (entries c))
                     = (length (entries c) - n)%nat).
    { apply length_filter_outside_take; [done..|]. rewrite Hperm. exact Hn. }
    rewrite Hsplit. unfold n, evict_count in *. lia.
Qed.

(** C9 (as amended), for the fetch-pool cache. A [get(k)] that does not find
    [k] expired (it returns the entry, or [k] is missing) leaves the cache as
    it was, so every run of insertions that follows evicts what it would have
    evicted without the read; a [get(k)] that finds [k] expired returns
    nothing and deletes [k] alone. *)
Theorem eviction_ignores_reads now k c :
  let expired := ∃ e, JsMap.get k (entries c) = Some e ∧ ttl c < now - timestamp e in
  (¬ expired →
     (get now k c).2 = c ∧ ∀ kes, set_all kes (get now k c).2 = set_all kes c) ∧
  (expired →
     (get now k c).1 = None ∧
     (get now k c).2 = with_entries c (JsMap.delete k (entries c))).
Proof.
  intros expired. unfold get.
  destruct (JsMap.get k (entries c)) as [e|] eqn:Hget.
  - destruct (Z.ltb_spec (ttl c) (now - timestamp e)) as [Hexp|Hfresh].
    + split; [|done]. intros Hno. exfalso. apply Hno. by exists e.
    + split; [done|]. intros (e' & [= <-] & Hlt). lia.
  - split; [done|]. by intros (e' & [=] & _).
Qed.

End Facts.



Lemma set_at_capacity_evicts_oldest_witness :
  ∃ victims : JsMap.jsmap (CacheEntry string),
    victims ⊆ entries CacheSamples.full ∧
    NoDup victims.*1 ∧
    Z.of_nat (length victims) = Z.max 1 (maxSize CacheSamples.full / 10) ∧
    (∀ v s, v ∈ victims → s ∈ entries CacheSamples.full → s.1 ∉ victims.*1 →
            timestamp v.2 ≤ timestamp s.2) ∧
    set "c" (CacheSamples.page 9) CacheSamples.full =
      (None, with_entries CacheSamples.full
               (filter (λ p, p.1 ∉ victims.*1) (entries CacheSamples.full)
                  ++ [("c", CacheSamples.page 9)])) ∧
    JsMap.size (filter (λ p, p.1 ∉ victims.*1) (entries CacheSamples.full)
                  ++ [("c", CacheSamples.page 9)]) =
      JsMap.size (entries CacheSamples.full) - Z.max 1 (maxSize CacheSamples.full / 10) + 1.
Proof.
  apply (set_at_capacity_evicts_oldest "c" (CacheSamples.page 9) CacheSamples.full).
  - unfold JsMap.wf. apply (bool_decide_unpack _). by vm_compute.
  - reflexivity.
  - vm_compute. discriminate.
  - reflexivity.
Defined.

(** The same call, evaluated: ["b"], the older entry, goes. *)
Example set_at_capacity_sample :
  set "c" (CacheSamples.page 9) CacheSamples.full =
    (None, mkCache [("a", CacheSamples.page 5); ("c", CacheSamples.page 9)] 2 1000).
Proof. by vm_compute. Qed.

(** C8, counterexample. A cache of capacity zero has reached its capacity
    when it is empty; [set] of a new key then throws out of [evict], which
    reads [sorted[0]] of an empty array, and nothing is evicted or
    inserted. *)
Example set_capacity_zero_throws :
  maxSize CacheSamples.no_room ≤ JsMap.size (entries CacheSamples.no_room) ∧
  JsMap.get "k" (entries CacheSamples.no_room) = None ∧
  set "k" (CacheSamples.page 1) CacheSamples.no_room =
    (Some (ErrorObj "Cannot read properties of undefined (reading '0')"),
     CacheSamples.no_room).
Proof. by vm_compute. Qed.

(** A read that finds its key expired does change what goes next: at time
    2000 the entry ["a"] of the sample cache is past its time-to-live of 1000,
    the read deletes it, and the [set] that follows has room and evicts
    nothing, where without the read it evicts ["b"]. *)
Example expired_read_changes_eviction :
  JsMap.keys (entries (set "c" (CacheSamples.page 2000) CacheSamples.full).2) = ["a"; "c"] ∧
  (get 2000 "a" CacheSamples.full).1 = None ∧
  JsMap.keys (entries (set "c" (CacheSamples.page 2000)
                         (get 2000 "a" CacheSamples.full).2).2) = ["b"; "c"].
Proof. by vm_compute. Qed.

Lemma eviction_ignores_reads_witness :
  (get 6 "a" CacheSamples.full).2 = CacheSamples.full ∧
  ∀ kes, set_all kes (get 6 "a" CacheSamples.full).2 = set_all kes CacheSamples.full.
Proof.
  apply (eviction_ignores_reads 6 "a" CacheSamples.full).
  intros (e & [= <-] & Hexp). vm_compute in Hexp. discriminate.
Defined.

(** *** Capacity, and what a write does to a full cache *)

Section Capacity.
Context {T : Type}.
Implicit Types (c : LruCache T) (e : CacheEntry T).

(** The entries [evict] removes: the first [evict_count] of the entries
    sorted by timestamp. *)
Definition victims c : JsMap.jsmap (CacheEntry T) :=
  take (Z.to_nat (evict_count c)) (sort_by_timestamp (entries c)).

Lemma evict_full c :
  0 < maxSize c → maxSize c ≤ JsMap.size (entries c) →
  evict c = (None, with_entries c (filter (λ p, p.1 ∉ (victims c).*1) (entries c))).
Proof.
  intros Hpos Hfull. unfold evict, victims.
  rewrite evict_loop_deletes; [done|].
  rewrite sort_by_timestamp_perm. by apply evict_count_le_size.
Qed.

Lemma size_after_evict c :
  JsMap.wf (entries c) → 0 < maxSize c → maxSize c ≤ JsMap.size (entries c) →
  JsMap.size (filter (λ p, p.1 ∉ (victims c).*1) (entries c)) =
    JsMap.size (entries c) - evict_count c.
Proof.
  intros Hwf Hpos Hfull. unfold JsMap.size, victims.
  pose proof (evict_count_le_size c Hpos Hfull) as Hn.
  rewrite length_filter_outside_take.
  - unfold evict_count in *. lia.
  - apply sort_by_timestamp_perm.
  - unfold JsMap.wf, JsMap.keys in Hwf. by rewrite sort_by_timestamp_perm.
  - by rewrite sort_by_timestamp_perm.
Qed.

(** What [set] leaves in a cache of positive capacity. *)
Lemma set_positive key e c :
  0 < maxSize c →
  set key e c =
    (None, with_entries c (JsMap.set key e
       (if maxSize c <=? JsMap.size (entries c)
        then filter (λ p, p.1 ∉ (victims c).*1) (entries c)
        else entries c))).
Proof.
  intros Hpos. unfold set.
  destruct (Z.leb_spec (maxSize c) (JsMap.size (entries c))) as [Hfull|Hroom]; [|done].
  by rewrite evict_full.
Qed.

(** The calls that change a cache. *)
Inductive Call : Type :=
| CallGet (now : Z) (key : string)
| CallSet (key : string) (entry : CacheEntry T)
| CallClear.

Definition after (c : LruCache T) (call : Call) : LruCache T :=
  match call with
  | CallGet now key => (get now key c).2
  | CallSet key entry => (set key entry c).2
  | CallClear => clear c
  end.

Definition within_capacity c : Prop :=
  JsMap.wf (entries c) ∧ JsMap.size (entries c) ≤ maxSize c.

Lemma maxSize_after c call : 0 < maxSize c → maxSize (after c call) = maxSize c.
Proof.
  intros Hpos. destruct call as [now key|key e|]; simpl; [|by rewrite set_positive|done].
  unfold get. destruct (JsMap.get key (entries c)) as [e|]; [|done].
  by destruct (ttl c <? now - timestamp e).
Qed.

Lemma within_capacity_after c call :
  0 < maxSize c → within_capacity c → within_capacity (after c call).
Proof.
  intros Hpos [Hwf Hsize]. destruct call as [now key|key e|]; simpl.
  - unfold get. destruct (JsMap.get key (entries c)) as [e|]; [|done].
    destruct (ttl c <? now - timestamp e); [|done].
    split; cbn [snd entries maxSize with_entries].
    + by apply JsMapFacts.wf_delete.
    + unfold JsMap.size, JsMap.delete in *.
      pose proof (length_filter (λ p : string * CacheEntry T, p.1 ≠ key) (entries c)). lia.
  - rewrite set_positive by done. cbn [snd]. split; cbn [entries maxSize with_entries].
    + apply JsMapFacts.wf_set. destruct (maxSize c <=? JsMap.size (entries c)); [|done].
      by apply JsMapFacts.wf_filter.
    + rewrite JsMapFacts.size_set.
      destruct (Z.leb_spec (maxSize c) (JsMap.size (entries c))) as [Hfull|Hroom].
      * rewrite size_after_evict by done. unfold evict_count.
        destruct (decide _); lia.
      * destruct (decide _); lia.
  - split; [apply NoDup_nil_2|]. cbn. unfold JsMap.size. simpl. lia.
Qed.

(** A cache of positive capacity never holds more entries than its
    capacity, and no [set] on it throws: from [new LruCache(maxSize, ttl)]
    on, after every sequence of [get], [set] and [clear] calls, the keys
    are distinct, their number is at most [maxSize], and a further [set]
    returns normally. *)
Theorem capacity_respected size lifetime (calls : list Call) :
  0 < maxSize (new (T := T) size lifetime) →
  let c := foldl after (new size lifetime) calls in
  JsMap.wf (entries c) ∧
  JsMap.size (entries c) ≤ maxSize (new (T := T) size lifetime) ∧
  ∀ key e, (set key e c).1 = None.
Proof.
  intros Hpos c.
  assert (H : within_capacity c ∧ maxSize c = maxSize (new (T := T) size lifetime)).
  { subst c. induction calls as [|call calls IH] using rev_ind.
    - split; [|done]. split; [apply NoDup_nil_2|]. cbn in *. unfold JsMap.size. simpl. lia.
    - rewrite foldl_snoc. destruct IH as [IH Hmax]. split.
      + apply within_capacity_after; [lia|done].
      + rewrite maxSize_after; [done|lia]. }
  destruct H as [[Hwf Hsize] Hmax]. split_and!; [done|lia|].
  intros key e. rewrite set_positive; [done|lia].
Qed.

(** The entry a [set] stores is never one of those the same call evicts:
    on every cache of positive capacity, full or not, [set(K, E)] returns
    normally, after which [getStale(K)] is [E] and [get(K)] is [E] unless
    [E] is older than the time-to-live at the time of the read. *)
Theorem stored_entry_survives_eviction now key e c :
  0 < maxSize c →
  (set key e c).1 = None ∧
  getStale key (set key e c).2 = Some e ∧
  (get now key (set key e c).2).1 = (if ttl c <? now - timestamp e then None else Some e).
Proof.
  intros Hpos. rewrite set_positive by done. cbn [fst snd]. split_and!; [done| |].
  - apply JsMapFacts.get_set_eq.
  - apply (get_fresh_or_expired now key e (with_entries c _)). apply JsMapFacts.get_set_eq.
Qed.

(** Once [get] has found an entry expired, [getStale] no longer finds it:
    the read deletes the entry, so the stale copy kept for conditional
    requests is gone; the entries under other keys stay as they were. *)
Theorem expired_get_drops_stale now key e c :
  getStale key c = Some e →
  ttl c < now - timestamp e →
  (get now key c).1 = None ∧
  getStale key (get now key c).2 = None ∧
  ∀ other, other ≠ key → getStale other (get now key c).2 = getStale other c.
Proof.
  unfold getStale, get. intros -> Hexp.
  destruct (Z.ltb_spec (ttl c) (now - timestamp e)) as [_|]; [|lia].
  cbn [fst snd entries with_entries]. split_and!; [done|apply JsMapFacts.get_delete_eq|].
  intros other Hne. by apply JsMapFacts.get_delete_ne.
Qed.

(** Overwriting a key that a full cache holds evicts as well: the call
    removes the [max(1, floor(maxSize * 0.1))] oldest entries before it
    writes, so the cache ends up smaller than it was by that number when the
    key is not among the evicted, and by one less when it is (the key is
    then inserted anew). *)
Theorem overwrite_at_capacity_evicts key e old c :
  JsMap.wf (entries c) →
  0 < maxSize c →
  maxSize c ≤ JsMap.size (entries c) →
  JsMap.get key (entries c) = Some old →
  (set key e c).1 = None ∧
  JsMap.size (entries (set key e c).2) =
    JsMap.size (entries c) - Z.max 1 (maxSize c / 10)
      + (if decide (key ∈ (victims c).*1) then 1 else 0) ∧
  (∀ k, k ∈ (victims c).*1 → k ≠ key → getStale k (set key e c).2 = None).
Proof.
  intros Hwf Hpos Hfull Hold. rewrite set_positive by done.
  destruct (Z.leb_spec (maxSize c) (JsMap.size (entries c))) as [_|]; [|lia].
  cbn [fst snd entries with_entries]. split_and!; [done| |].
  - rewrite JsMapFacts.size_set, size_after_evict by done. fold (evict_count c).
    assert (Hkeys : key ∈ JsMap.keys (filter (λ p : string * CacheEntry T,
                       p.1 ∉ (victims c).*1) (entries c)) ↔ key ∉ (victims c).*1).
    { unfold JsMap.keys. rewrite list_elem_of_fmap. split.
      - intros [p [-> Hp]]. by apply list_elem_of_filter in Hp as [Hp _].
      - intros Hout. exists (key, old). split; [done|].
        apply list_elem_of_filter. split; [done|]. by apply JsMapFacts.get_Some_elem. }
    repeat case_decide; try lia; tauto.
  - intros k Hk Hne. unfold getStale. cbn [entries with_entries].
    rewrite JsMapFacts.get_set_ne by done. apply JsMapFacts.get_None_keys.
    unfold JsMap.keys. rewrite list_elem_of_fmap.
    intros [p [-> Hp]]. by apply list_elem_of_filter in Hp as [Hp _].
Qed.

End Capacity.

Lemma capacity_respected_witness :
  let c := foldl after (new (T := string) (Some 2) None)
             [CallSet "a" (CacheSamples.page 1); CallSet "b" (CacheSamples.page 2);
              CallSet "c" (CacheSamples.page 3); CallGet 9 "a"] in
  JsMap.wf (entries c) ∧
  JsMap.size (entries c) ≤ maxSize (new (T := string) (Some 2) None) ∧
  ∀ key e, (set key e c).1 = None.
Proof.
  apply (capacity_respected (Some 2) None
           [CallSet "a" (CacheSamples.page 1); CallSet "b" (CacheSamples.page 2);
            CallSet "c" (CacheSamples.page 3); CallGet 9 "a"]).
  reflexivity.
Defined.

Lemma stored_entry_survives_eviction_witness :
  (set "a" (CacheSamples.page 9) CacheSamples.full).1 = None ∧
  getStale "a" (set "a" (CacheSamples.page 9) CacheSamples.full).2 = Some (CacheSamples.page 9) ∧
  (get 10 "a" (set "a" (CacheSamples.page 9) CacheSamples.full).2).1 =
    (if ttl CacheSamples.full <? 10 - timestamp (CacheSamples.page 9)
     then None else Some (CacheSamples.page 9)).
Proof.
  apply (stored_entry_survives_eviction 10 "a" (CacheSamples.page 9) CacheSamples.full).
  reflexivity.
Defined.

Lemma expired_get_drops_stale_witness :
  (get 2000 "a" CacheSamples.full).1 = None ∧
  getStale "a" (get 2000 "a" CacheSamples.full).2 = None ∧
  ∀ other, other ≠ "a" →
    getStale other (get 2000 "a" CacheSamples.full).2 = getStale other CacheSamples.full.
Proof.
  apply (expired_get_drops_stale 2000 "a" (CacheSamples.page 5) CacheSamples.full).
  - reflexivity.
  - reflexivity.
Defined.

Lemma overwrite_at_capacity_evicts_witness :
  (set "a" (CacheSamples.page 9) CacheSamples.full).1 = None ∧
  JsMap.size (entries (set "a" (CacheSamples.page 9) CacheSamples.full).2) =
    JsMap.size (entries CacheSamples.full) - Z.max 1 (maxSize CacheSamples.full / 10)
      + (if decide ("a" ∈ (victims CacheSamples.full).*1) then 1 else 0) ∧
  (∀ k, k ∈ (victims CacheSamples.full).*1 → k ≠ "a" →
        getStale k (set "a" (CacheSamples.page 9) CacheSamples.full).2 = None).
Proof.
  apply (overwrite_at_capacity_evicts "a" (CacheSamples.page 9) (CacheSamples.page 5)
           CacheSamples.full).
  - unfold JsMap.wf. apply (bool_decide_unpack _). by vm_compute.
  - reflexivity.
  - vm_compute. discriminate.
  - reflexivity.
Defined.

End LruCacheFacts.

(** ** The Playwright adapter's cache *)
Module PlaywrightLRUFacts.
Import PlaywrightLRU.

(** C9, counterexample. In the Playwright adapter's cache a read decides the
    next eviction: with capacity 2 and keys ["a"], ["b"] inserted in this
    order, [set("c")] evicts ["a"]; after a [get("a")] it evicts ["b"]. *)
Example read_changes_eviction :
  JsMap.keys (cache (set 3 "c" "C" CacheSamples.playwright_ab)) = ["b"; "c"] ∧
  (get 2 "a" CacheSamples.playwright_ab).1 = Some "A" ∧
  JsMap.keys (cache (set 3 "c" "C" (get 2 "a" CacheSamples.playwright_ab).2)) = ["a"; "c"].
Proof. by vm_compute. Qed.

(** *** Capacity, recency and age *)

Section Facts.
Context {T : Type}.
Implicit Types (c : LRUCache T) (d : T).

(** The calls that change a cache. *)
Inductive Call : Type :=
| CallGet (now : Z) (key : string)
| CallSet (now : Z) (key : string) (data : T)
| CallClear.

Definition after (c : LRUCache T) (call : Call) : LRUCache T :=
  match call with
  | CallGet now key => (get now key c).2
  | CallSet now key data => set now key data c
  | CallClear => clear c
  end.

(** The keys a sequence of calls stores under. *)
Definition stored_keys (calls : list Call) : list string :=
  omap (λ call, match call with CallSet _ key _ => Some key | _ => None end) calls.

Definition bounded c : Prop :=
  JsMap.wf (cache c) ∧ ("" ∉ JsMap.keys (cache c)) ∧
  JsMap.size (cache c) ≤ Z.max 1 (maxSize c).

Lemma bounded_after c call :
  (∀ now key d, call = CallSet now key d → key ≠ "") →
  bounded c → bounded (after c call).
Proof.
  intros Hkey (Hwf & Hne & Hsize). destruct call as [now key|now key d|]; simpl.
  - unfold get. destruct (JsMap.get key (cache c)) as [slot|] eqn:Hget; [|done].
    assert (Hin : key ∈ JsMap.keys (cache c)).
    { destruct (decide (key ∈ JsMap.keys (cache c))) as [|Hn]; [done|].
      apply JsMapFacts.get_None_keys in Hn. congruence. }
    destruct (ttl c <? now - timestamp slot); cbn [snd]; unfold bounded; cbn [cache maxSize with_cache].
    + split_and!; [by apply JsMapFacts.wf_delete| |].
      * intros Hin'. by apply JsMapFacts.keys_delete_subseteq in Hin' as [? _].
      * pose proof (JsMapFacts.size_delete_le key (cache c)). lia.
    + split_and!.
      * by apply JsMapFacts.wf_set, JsMapFacts.wf_delete.
      * rewrite JsMapFacts.keys_set. destruct (decide _) as [Hd|Hd].
        { intros Hin'. by apply JsMapFacts.keys_delete_subseteq in Hin' as [? _]. }
        rewrite elem_of_app, list_elem_of_singleton.
        intros [Hin'|<-]; [by apply JsMapFacts.keys_delete_subseteq in Hin' as [? _]|done].
      * rewrite JsMapFacts.size_set, decide_False.
        { rewrite JsMapFacts.size_delete_present by done. lia. }
        intros Hin'. by apply JsMapFacts.keys_delete_subseteq in Hin' as [_ ?].
  - specialize (Hkey now key d eq_refl). unfold set, bounded. cbn [cache maxSize with_cache].
    set (m := if maxSize c <=? JsMap.size (cache c) then _ else _).
    assert (Hm : JsMap.wf m ∧ ("" ∉ JsMap.keys m) ∧ JsMap.size m + 1 ≤ Z.max 1 (maxSize c)).
    { subst m. destruct (Z.leb_spec (maxSize c) (JsMap.size (cache c))) as [Hfull|Hroom].
      - unfold JsMap.first_key. destruct (cache c) as [|[k0 v0] rest] eqn:Hc.
        + simpl. split_and!; [done|done|]. unfold JsMap.size. simpl. lia.
        + cbn [JsMap.keys fmap list_fmap head fst].
          rewrite decide_False.
          2:{ intros ->. apply Hne. unfold JsMap.keys. rewrite fmap_cons. left. }
          split_and!; [by apply JsMapFacts.wf_delete| |].
          * intros Hin'. by apply JsMapFacts.keys_delete_subseteq in Hin' as [? _].
          * rewrite JsMapFacts.size_delete_present; [lia|done|]. unfold JsMap.keys. rewrite fmap_cons. left.
      - split_and!; [done|done|lia]. }
    destruct Hm as (Hwfm & Hnem & Hsm). split_and!.
    + by apply JsMapFacts.wf_set.
    + rewrite JsMapFacts.keys_set. destruct (decide _); [done|].
      rewrite elem_of_app, list_elem_of_singleton. intros [?|?]; [done|congruence].
    + rewrite JsMapFacts.size_set. destruct (decide _); lia.
  - unfold bounded. cbn. split_and!; [apply NoDup_nil_2|apply not_elem_of_nil|].
    unfold JsMap.size. simpl. lia.
Qed.

Lemma slots_maxSize_after c call : maxSize (after c call) = maxSize c.
Proof.
  destruct call as [now key|now key d|]; simpl; try done.
  unfold get. destruct (JsMap.get key (cache c)) as [slot|]; [|done].
  by destruct (ttl c <? now - timestamp slot).
Qed.

(** The adapter's cache stays within its capacity as long as no key is the
    empty string: from [new LRUCache(maxSize, ttl)] on, after every
    sequence of [get], [set] and [clear] calls, it holds at most
    [max(1, maxSize)] entries (one entry even when [maxSize] is zero or
    negative, since [set] always inserts). *)
Theorem size_bounded size lifetime (calls : list Call) :
  "" ∉ stored_keys calls →
  let c := foldl after (new size lifetime) calls in
  JsMap.wf (cache c) ∧
  JsMap.size (cache c) ≤ Z.max 1 (maxSize (new (T := T) size lifetime)).
Proof.
  intros Hkeys c.
  assert (Hb : bounded c ∧ maxSize c = maxSize (new (T := T) size lifetime)).
  { subst c. induction calls as [|call calls IH] using rev_ind.
    - split; [|done]. unfold bounded. cbn.
      split_and!; [apply NoDup_nil_2|apply not_elem_of_nil|]. unfold JsMap.size. simpl. lia.
    - unfold stored_keys in Hkeys. rewrite omap_app, not_elem_of_app in Hkeys.
      destruct Hkeys as [Hkeys Hlast]. destruct (IH Hkeys) as [IHb IHm].
      rewrite foldl_snoc, slots_maxSize_after. split; [|done].
      apply bounded_after; [|done].
      intros now key d ->. intros ->. apply Hlast. simpl. left. }
  destruct Hb as [(Hwf & _ & Hsize) Hmax]. split; [done|]. by rewrite <- Hmax.
Qed.

(** A hit moves the key to the end of the order and keeps its slot. *)
Lemma get_hit now key c d :
  (get now key c).1 = Some d →
  ∃ slot, JsMap.get key (cache c) = Some slot ∧ d = data slot ∧
    now - timestamp slot ≤ ttl c ∧
    cache (get now key c).2 = JsMap.delete key (cache c) ++ [(key, slot)].
Proof.
  unfold get. destruct (JsMap.get key (cache c)) as [slot|] eqn:Hget; [|done].
  destruct (Z.ltb_spec (ttl c) (now - timestamp slot)) as [|Hfresh]; [done|].
  intros [= <-]. exists slot. split_and!; [done|done|lia|].
  cbn [snd cache with_cache]. apply JsMapFacts.set_new.
  rewrite JsMapFacts.keys_delete, list_elem_of_filter. tauto.
Qed.

(** The key read last is not the next one evicted: after a [get(K)] that
    hits, in a cache that holds another entry besides, the next [set] of a
    different key leaves the entry under [K] in place, whether the cache is
    full or not. *)
Theorem read_key_survives_next_set now now' key other slot d' c :
  JsMap.wf (cache c) →
  2 ≤ JsMap.size (cache c) →
  JsMap.get key (cache c) = Some slot →
  now - timestamp slot ≤ ttl c →
  other ≠ key →
  (get now key c).1 = Some (data slot) ∧
  JsMap.get key (cache (set now' other d' (get now key c).2)) = Some slot ∧
  (get now' key (set now' other d' (get now key c).2)).1 =
    if ttl c <? now' - timestamp slot then None else Some (data slot).
Proof.
  intros Hwf Hsize Hget Hfresh Hne.
  assert (Hhit : (get now key c).1 = Some (data slot)).
  { unfold get. rewrite Hget.
    by destruct (Z.ltb_spec (ttl c) (now - timestamp slot)); [lia|]. }
  destruct (get_hit now key c _ Hhit) as (slot' & Hget' & _ & _ & Hcache).
  assert (slot' = slot) as -> by congruence. clear Hget'.
  assert (Hlast : JsMap.get key (cache (get now key c).2) = Some slot).
  { rewrite Hcache. rewrite <- (JsMapFacts.set_new key slot).
    - apply JsMapFacts.get_set_eq.
    - rewrite JsMapFacts.keys_delete, list_elem_of_filter. tauto. }
  assert (Hfirst : ∀ k0, JsMap.first_key (cache (get now key c).2) = Some k0 → k0 ≠ key).
  { intros k0. rewrite Hcache. unfold JsMap.first_key.
    destruct (JsMap.delete key (cache c)) as [|[k1 v1] rest] eqn:Hdel.
    - exfalso.
      assert (Hin : key ∈ JsMap.keys (cache c)).
      { destruct (decide (key ∈ JsMap.keys (cache c))) as [|Hn]; [done|].
        apply JsMapFacts.get_None_keys in Hn. congruence. }
      pose proof (JsMapFacts.size_delete_present key (cache c) Hwf Hin) as Hs.
      rewrite Hdel in Hs. unfold JsMap.size in Hs at 1. simpl in Hs. lia.
    - intros [= <-].
      assert (Hin : k1 ∈ JsMap.keys (JsMap.delete key (cache c))).
      { rewrite Hdel. unfold JsMap.keys. rewrite fmap_cons. left. }
      by apply JsMapFacts.keys_delete_subseteq in Hin as [_ ?]. }
  assert (Hkeep : JsMap.get key (cache (set now' other d' (get now key c).2)) = Some slot).
  { unfold set. cbn [cache with_cache]. rewrite JsMapFacts.get_set_ne by done.
    destruct (maxSize _ <=? JsMap.size _); [|done].
    destruct (JsMap.first_key (cache (get now key c).2)) as [k0|] eqn:Hf; [|done].
    destruct (decide (k0 = "")); [done|].
    rewrite JsMapFacts.get_delete_ne; [done|]. intros ->. by apply (Hfirst k0). }
  split_and!; [done|done|].
  unfold get at 1. rewrite Hkeep.
  assert (Httl : ttl (set now' other d' (get now key c).2) = ttl c).
  { unfold set, get. rewrite Hget. by destruct (ttl c <? now - timestamp slot). }
  rewrite Httl. by destruct (ttl c <? now' - timestamp slot).
Qed.

(** A read does not renew an entry: [get] puts back the slot it found, with
    the time of the [set] that wrote it, so the entry expires [ttl] after it
    was stored however often it is read in between; only [set] restarts the
    clock. *)
Theorem read_does_not_renew now key d now1 now2 c :
  (get now1 key (set now key d c)).1 = Some d ∧
  (get now2 key (get now1 key (set now key d c)).2).1 = Some d ↔
  now1 - now ≤ ttl c ∧ now2 - now ≤ ttl c.
Proof.
  assert (Hset : JsMap.get key (cache (set now key d c)) = Some (mkSlot d now)).
  { unfold set. cbn [cache with_cache]. apply JsMapFacts.get_set_eq. }
  assert (Httl : ttl (set now key d c) = ttl c) by done.
  unfold get at 1 3. rewrite Hset, Httl. cbn [timestamp data].
  destruct (Z.ltb_spec (ttl c) (now1 - now)) as [Hexp|Hfresh]; cbn [fst snd].
  - split; [by intros [? _]|lia].
  - unfold get. cbn [cache with_cache ttl]. rewrite JsMapFacts.get_set_eq. cbn [timestamp data].
    rewrite Httl.
    destruct (Z.ltb_spec (ttl c) (now2 - now)) as [Hexp2|Hfresh2]; cbn [fst].
    + split; [by intros [_ ?]|lia].
    + split; [done|]. intros _. split; [done|]. done.
Qed.

End Facts.

Lemma size_bounded_witness :
  let c := foldl after (new (T := string) (Some 1) None)
             [CallSet 0 "a" "A"; CallSet 1 "b" "B"; CallGet 2 "b"; CallSet 3 "c" "C"] in
  JsMap.wf (cache c) ∧
  JsMap.size (cache c) ≤ Z.max 1 (maxSize (new (T := string) (Some 1) None)).
Proof.
  apply (size_bounded (Some 1) None
           [CallSet 0 "a" "A"; CallSet 1 "b" "B"; CallGet 2 "b"; CallSet 3 "c" "C"]).
  apply (bool_decide_unpack _). by vm_compute.
Defined.

Lemma read_key_survives_next_set_witness :
  (get 2 "a" CacheSamples.playwright_ab).1 = Some "A" ∧
  JsMap.get "a" (cache (set 3 "c" "C" (get 2 "a" CacheSamples.playwright_ab).2)) =
    Some (mkSlot "A" 0) ∧
  (get 3 "a" (set 3 "c" "C" (get 2 "a" CacheSamples.playwright_ab).2)).1 =
    if ttl CacheSamples.playwright_ab <? 3 - 0 then None else Some "A".
Proof.
  apply (read_key_survives_next_set 2 3 "a" "c" (mkSlot "A" 0) "C" CacheSamples.playwright_ab).
  - unfold JsMap.wf. apply (bool_decide_unpack _). by vm_compute.
  - vm_compute. discriminate.
  - reflexivity.
  - vm_compute. discriminate.
  - discriminate.
Defined.

End PlaywrightLRUFacts.

(** ** The DevTools-protocol page client *)
Module CDPFacts.
Import CDP.

Section Facts.
Variable JSON_parse : string → Parsed.
Implicit Types (st : CDPPage) (data : string).

(** What holds of every state a page can reach: a pending entry has an id
    that was handed out, its promise was created and is not settled, no two
    entries share a promise, and only created promises are settled. *)
Record invariant st : Prop := mkInvariant {
  inv_id : ∀ n p, pendingCommands st !! n = Some p → n ≤ messageId st;
  inv_promise : ∀ n p, pendingCommands st !! n = Some p →
                  (p < nextPromise st)%nat ∧ settled st !! p = None;
  inv_inj : ∀ n n' p, pendingCommands st !! n = Some p →
              pendingCommands st !! n' = Some p → n = n';
  inv_settled : ∀ p s, settled st !! p = Some s → (p < nextPromise st)%nat;
}.

Lemma invariant_new info : invariant (new info).
Proof. split; intros *; simpl; by rewrite ?lookup_empty. Qed.

Lemma invariant_connect st : invariant st → invariant (connect st).
Proof. intros [H1 H2 H3 H4]. split; simpl; eauto. Qed.

Lemma invariant_close r st : invariant st → invariant (close r st).1.
Proof.
  intros [H1 H2 H3 H4]. unfold close. destruct (ws st); split; simpl; eauto.
Qed.

Lemma invariant_send method params st :
  invariant st → invariant (send method params st).1.
Proof.
  intros [H1 H2 H3 H4]. unfold send. destruct (ws st); [|by split].
  split; simpl.
  - intros n p. rewrite lookup_insert. case_decide; [lia|].
    intros Hn. apply H1 in Hn. lia.
  - intros n p. rewrite lookup_insert. case_decide.
    + intros [= <-]. split; [lia|].
      destruct (settled st !! nextPromise st) eqn:Hs; [|done].
      apply H4 in Hs. lia.
    + intros Hn. apply H2 in Hn as [? ?]. split; [lia|done].
  - intros n n' p. rewrite !lookup_insert. repeat case_decide; try congruence.
    + intros [= <-] Hn'. apply H2 in Hn' as [? ?]. lia.
    + intros Hn [= <-]. apply H2 in Hn as [? ?]. lia.
    + eauto.
  - intros p' s' Hs. apply H4 in Hs. lia.
Qed.

(** Settling the promise of a deleted entry keeps the invariant. *)
Lemma invariant_answer n p s st :
  invariant st → pendingCommands st !! n = Some p →
  invariant
    (settle p s (mkPage (pageInfo st) (ws st) (messageId st)
                        (delete n (pendingCommands st))
                        (nextPromise st) (settled st) (effects st))).
Proof.
  intros [H1 H2 H3 H4] Hn. destruct (H2 _ _ Hn) as [Hlt Hnone].
  unfold settle. simpl. rewrite Hnone. split; simpl.
  - intros n' p'. rewrite lookup_delete. case_decide; [done|]. eauto.
  - intros n' p'. rewrite lookup_delete. case_decide; [done|].
    intros Hn'. destruct (H2 _ _ Hn') as [? ?]. split; [done|].
    rewrite lookup_insert_ne; [done|]. intros <-. eauto.
  - intros n1 n2 p'. rewrite !lookup_delete. repeat case_decide; try done. eauto.
  - intros p' s'. rewrite lookup_insert. case_decide; [by intros; subst|]. eauto.
Qed.

Lemma invariant_handleMessage data st :
  invariant st → invariant (handleMessage JSON_parse data st).1.
Proof.
  intros Hinv. unfold handleMessage.
  destruct (JSON_parse data) as [m| |message]; [done..|].
  destruct (id message) as [[n|]|]; [|done..].
  destruct (pendingCommands st !! n) as [p|] eqn:Hn; [|done].
  destruct (error message); simpl; by apply invariant_answer.
Qed.

Lemma reachable_invariant st : reachable JSON_parse st → invariant st.
Proof.
  induction 1 as [info|a st _ IH]; [apply invariant_new|].
  destruct a as [|method params|data|r]; simpl.
  - by apply invariant_connect.
  - by apply invariant_send.
  - by apply invariant_handleMessage.
  - by apply (invariant_close r).
Qed.

(** C4. A delivered message that parses to an object with an ["id"] for
    which [pendingCommands] has no entry changes nothing in the page and
    throws nothing. *)
Theorem unmatched_response_dropped data message i st :
  JSON_parse data = ParsedObject message →
  id message = Some i →
  (∀ n, i = IdNumber n → pendingCommands st !! n = None) →
  handleMessage JSON_parse data st = (st, None).
Proof.
  intros Hparse Hid Hnone. unfold handleMessage. rewrite Hparse, Hid.
  destruct i as [n|]; [|done]. by rewrite (Hnone n eq_refl).
Qed.

(** C5 (as amended). In every state a page can reach, each call changes
    [pendingCommands] as follows. [send] on a connected page adds one entry,
    under an id that no entry has, for a promise that is not settled; [send]
    on a page without socket adds none. A delivered message that answers an
    entry removes that entry alone and settles its promise, by rejection when
    the message carries an error and by resolution otherwise; any other
    delivered message leaves the page as it is. [connect] and [close] leave
    [pendingCommands] and every promise as they are. *)
Theorem pending_lifecycle a st :
  reachable JSON_parse st →
  match a with
  | Send method params =>
      match ws st with
      | Some _ =>
          pendingCommands st !! (messageId st + 1) = None ∧
          pendingCommands (exec JSON_parse a st)
            = <[messageId st + 1 := nextPromise st]> (pendingCommands st) ∧
          settled (exec JSON_parse a st) !! nextPromise st = None
      | None => exec JSON_parse a st = st
      end
  | Deliver data =>
      match answered JSON_parse data st with
      | Some (n, p) =>
          pendingCommands (exec JSON_parse a st) = delete n (pendingCommands st) ∧
          ∃ message, JSON_parse data = ParsedObject message ∧
            settled (exec JSON_parse a st) !! p =
              Some (match error message with
                    | Some m => Rejected (ErrorObj m)
                    | None => Resolved (result message)
                    end)
      | None =>
          pendingCommands (exec JSON_parse a st) = pendingCommands st ∧
          settled (exec JSON_parse a st) = settled st
      end
  | Connect | Close _ =>
      pendingCommands (exec JSON_parse a st) = pendingCommands st ∧
      settled (exec JSON_parse a st) = settled st
  end.
Proof.
  intros Hreach. apply reachable_invariant in Hreach as [H1 H2 H3 H4].
  destruct a as [|method params|data|r]; simpl.
  - done.
  - unfold send. destruct (ws st) eqn:Hws; [|done]. simpl. split_and!; [|done|].
    + destruct (pendingCommands st !! (messageId st + 1)) eqn:Hp; [|done].
      apply H1 in Hp. lia.
    + destruct (settled st !! nextPromise st) eqn:Hs; [|done].
      apply H4 in Hs. lia.
  - unfold answered, handleMessage.
    destruct (JSON_parse data) as [m| |message]; [done..|].
    destruct (id message) as [[n|]|]; [|done..].
    destruct (pendingCommands st !! n) as [p|] eqn:Hn; [|done]. simpl.
    destruct (H2 _ _ Hn) as [_ Hnone].
    unfold settle. simpl. rewrite Hnone.
    destruct (error message) eqn:Herr; simpl; (split; [done|]);
      exists message; (split; [done|]); by rewrite Herr, lookup_insert_eq.
  - unfold close. by destruct (ws st).
Qed.

End Facts.

Lemma unmatched_response_dropped_witness :
  handleMessage CDPSamples.parse "id 7, result {}" CDPSamples.one_pending
    = (CDPSamples.one_pending, None).
Proof.
  apply (unmatched_response_dropped CDPSamples.parse "id 7, result {}"
           (mkMessage (Some (IdNumber 7)) (Some "{}") None) (IdNumber 7)).
  - reflexivity.
  - reflexivity.
  - intros n [= <-]. reflexivity.
Defined.

Lemma one_pending_reachable : reachable CDPSamples.parse CDPSamples.one_pending.
Proof.
  apply (reachable_exec CDPSamples.parse (Send "Page.navigate" None)).
  apply (reachable_exec CDPSamples.parse Connect).
  apply reachable_new.
Qed.

Lemma pending_lifecycle_witness :
  pendingCommands (exec CDPSamples.parse (Deliver "id 1, error") CDPSamples.one_pending)
    = delete 1 (pendingCommands CDPSamples.one_pending) ∧
  ∃ message, CDPSamples.parse "id 1, error" = ParsedObject message ∧
    settled (exec CDPSamples.parse (Deliver "id 1, error") CDPSamples.one_pending) !! 0%nat =
      Some (match error message with
            | Some m => Rejected (ErrorObj m)
            | None => Resolved (result message)
            end).
Proof.
  exact (pending_lifecycle CDPSamples.parse (Deliver "id 1, error")
           CDPSamples.one_pending one_pending_reachable).
Defined.

(** C5, counterexample: a command is sent and the page is closed before the
    answer. After [close()] the socket is gone, the entry is still in
    [pendingCommands] and its promise is not settled. *)
Example close_keeps_pending :
  ws CDPSamples.closed = None ∧
  pendingCommands CDPSamples.closed !! 1 = Some 0%nat ∧
  settled CDPSamples.closed !! 0%nat = None.
Proof. by vm_compute. Qed.

(** *** Command ids and answers over a whole conversation *)

Section Traffic.
Variable JSON_parse : string → Parsed.
Implicit Types (st : CDPPage) (data : string) (actions : list Action).

(** The ids of the frames written to the socket, in the order written. *)
Definition sent_ids (es : list Effect) : list Z :=
  omap (λ e, match e with WsSend id _ _ => Some id | _ => None end) es.

(** A page after a sequence of calls. *)
Definition after st actions : CDPPage := foldl (λ st a, exec JSON_parse a st) st actions.

Lemma reachable_after st actions :
  reachable JSON_parse st → reachable JSON_parse (after st actions).
Proof.
  revert st. induction actions as [|a actions IH]; intros st Hst; [done|].
  apply IH. by apply reachable_exec.
Qed.

Lemma sent_ids_snoc es e :
  sent_ids (es ++ [e]) =
    sent_ids es ++ match e with WsSend id _ _ => [id] | _ => [] end.
Proof. unfold sent_ids. rewrite omap_app. by destruct e. Qed.

Lemma effects_handleMessage data st :
  effects (handleMessage JSON_parse data st).1 = effects st ∧
  messageId (handleMessage JSON_parse data st).1 = messageId st ∧
  ws (handleMessage JSON_parse data st).1 = ws st.
Proof.
  unfold handleMessage.
  destruct (JSON_parse data) as [m| |message]; [done..|].
  destruct (id message) as [[n|]|]; [|done..].
  destruct (pendingCommands st !! n) as [p|]; [|done].
  unfold settle. destruct (error message); simpl;
    by destruct (settled st !! p).
Qed.

(** Command ids are handed out in order and never reused: in every state a
    page can reach, the frames written to the socket carry the ids
    [1, 2, ..., messageId], in this order, whatever was connected, closed,
    answered or refused in between. In particular no two frames share an
    id. *)
Theorem command_ids_in_order st :
  reachable JSON_parse st →
  0 ≤ messageId st ∧
  sent_ids (effects st) = seqZ 1 (messageId st) ∧
  NoDup (sent_ids (effects st)).
Proof.
  intros Hst.
  assert (H : 0 ≤ messageId st ∧ sent_ids (effects st) = seqZ 1 (messageId st)).
  { induction Hst as [info|a st _ [IH0 IH]]; [done|].
    destruct a as [|method params|data|r]; simpl.
    - split; [done|]. by rewrite sent_ids_snoc, app_nil_r.
    - unfold send. destruct (ws st); [|done]. simpl. split; [lia|].
      rewrite sent_ids_snoc, IH.
      rewrite (seqZ_app 1 (messageId st) 1) by lia. f_equal.
      rewrite seqZ_cons by lia. rewrite seqZ_nil by lia. f_equal. lia.
    - destruct (effects_handleMessage data st) as (-> & -> & _). done.
    - unfold close. destruct (ws st); simpl; (split; [done|]);
        by rewrite !sent_ids_snoc, ?app_nil_r.
  }
  destruct H as [H0 H]. split_and!; [done..|]. rewrite H. apply NoDup_seqZ.
Qed.

(** The first delivered message of a sequence of calls that is an object
    with the id [n]. *)
Fixpoint first_answer (n : Z) actions : option CDPMessage :=
  match actions with
  | [] => None
  | Deliver data :: rest =>
      match JSON_parse data with
      | ParsedObject message =>
          match id message with
          | Some (IdNumber n') =>
              if decide (n' = n) then Some message else first_answer n rest
          | _ => first_answer n rest
          end
      | _ => first_answer n rest
      end
  | _ :: rest => first_answer n rest
  end.

(** How [handleMessage] settles the promise a message answers. *)
Definition settlement_of (message : CDPMessage) : Settlement :=
  match error message with
  | Some m => Rejected (ErrorObj m)
  | None => Resolved (result message)
  end.

Lemma settled_exec a st p s :
  settled st !! p = Some s → settled (exec JSON_parse a st) !! p = Some s.
Proof.
  intros Hp. destruct a as [|method params|data|r]; simpl; [done| | |].
  - unfold send. by destruct (ws st).
  - unfold handleMessage.
    destruct (JSON_parse data) as [m| |message]; [done..|].
    destruct (id message) as [[n|]|]; [|done..].
    destruct (pendingCommands st !! n) as [q|]; [|done].
    unfold settle. destruct (error message); simpl;
      (destruct (settled st !! q) eqn:Hq; simpl; [done|]);
      (rewrite lookup_insert_ne; [done|congruence]).
  - unfold close. by destruct (ws st).
Qed.

Lemma settled_after actions st p s :
  settled st !! p = Some s → settled (after st actions) !! p = Some s.
Proof.
  revert st. induction actions as [|a actions IH]; intros st Hp; [done|].
  apply IH. by apply settled_exec.
Qed.

Lemma awaiting_after actions : ∀ st n p,
  invariant st →
  pendingCommands st !! n = Some p →
  settled (after st actions) !! p = settlement_of <$> first_answer n actions.
Proof.
  induction actions as [|a actions IH]; intros st n p Hinv Hn.
  - simpl. by destruct (inv_promise st Hinv n p Hn).
  - cbn [after foldl]. fold (after (exec JSON_parse a st) actions).
    destruct a as [|method params|data|r].
    + cbn [first_answer]. apply IH; [by apply invariant_connect|done].
    + cbn [first_answer]. apply IH; [by apply invariant_send|].
      simpl. unfold send. destruct (ws st); [|done]. simpl.
      rewrite lookup_insert_ne; [done|].
      pose proof (inv_id st Hinv n p Hn). lia.
    + pose proof (invariant_handleMessage JSON_parse data st Hinv) as Hinv'.
      cbn [first_answer exec] in *. unfold handleMessage in *.
      destruct (JSON_parse data) as [m| |message]; [by apply IH..|].
      destruct (id message) as [[n'|]|]; [|by apply IH..].
      destruct (decide (n' = n)) as [->|Hne].
      * rewrite Hn in *. cbn [fmap option_fmap option_map].
        apply settled_after.
        destruct (inv_promise st Hinv n p Hn) as [_ Hnone].
        unfold settle, settlement_of. simpl. rewrite Hnone.
        destruct (error message); simpl; by rewrite lookup_insert_eq.
      * destruct (pendingCommands st !! n') as [p'|] eqn:Hn'; [|by apply IH].
        assert (p' ≠ p).
        { intros ->. by pose proof (inv_inj st Hinv n' n p Hn' Hn). }
        destruct (inv_promise st Hinv n' p' Hn') as [_ Hnone'].
        destruct (error message); simpl in *; (apply IH; [done|]);
          unfold settle; simpl; rewrite Hnone'; simpl;
          by rewrite lookup_delete_ne.
    + cbn [first_answer]. apply IH; [by apply (invariant_close r)|].
      simpl. unfold close. by destruct (ws st).
Qed.

(** A command is answered by the first response that bears its id, and by
    nothing else. When [send] returns a promise, then after every sequence
    of later calls the promise is settled exactly if a message with the
    command's id has been delivered, and it is settled as the first such
    message says: rejected with its error's message, or resolved with its
    result. Later messages with that id, messages with other ids, further
    commands, [connect] and [close] change nothing about it. *)
Theorem command_settled_by_first_answer st method params st1 p actions :
  reachable JSON_parse st →
  send method params st = (st1, inr p) →
  settled (after st1 actions) !! p =
    settlement_of <$> first_answer (messageId st + 1) actions.
Proof.
  intros Hst Hsend.
  pose proof (invariant_send method params st (reachable_invariant _ _ Hst)) as Hinv.
  rewrite Hsend in Hinv. simpl in Hinv.
  apply awaiting_after; [done|].
  unfold send in Hsend. destruct (ws st); [|done]. simplify_eq. simpl.
  apply lookup_insert_eq.
Qed.

End Traffic.

Lemma connected_reachable :
  reachable CDPSamples.parse (connect (new CDPSamples.info)).
Proof.
  apply (reachable_exec CDPSamples.parse Connect). apply reachable_new.
Qed.

Lemma command_ids_in_order_witness :
  0 ≤ messageId CDPSamples.closed ∧
  sent_ids (effects CDPSamples.closed) = seqZ 1 (messageId CDPSamples.closed) ∧
  NoDup (sent_ids (effects CDPSamples.closed)).
Proof.
  apply (command_ids_in_order CDPSamples.parse CDPSamples.closed).
  apply (reachable_exec CDPSamples.parse (Close None)). apply one_pending_reachable.
Defined.

Lemma command_settled_by_first_answer_witness :
  settled (after CDPSamples.parse CDPSamples.one_pending
             [Deliver "id 7, result {}"; Close None; Deliver "id 1, error";
              Deliver "id 1, result {}"]) !! 0%nat =
    settlement_of <$>
      first_answer CDPSamples.parse (messageId (connect (new CDPSamples.info)) + 1)
        [Deliver "id 7, result {}"; Close None; Deliver "id 1, error";
         Deliver "id 1, result {}"].
Proof.
  apply (command_settled_by_first_answer CDPSamples.parse
           (connect (new CDPSamples.info)) "Page.navigate" None).
  - apply connected_reachable.
  - reflexivity.
Defined.

End CDPFacts.

(** ** Tasks that run together *)
Module AsyncFacts.
Import Async.

Section Pool.
Context {I : Interface} (E : Environment I) {St : Type}.
Implicit Types (w : World E (St := St)) (pool : list (Susp (I := I) St unit)).

Lemma waiting_from_spec pool : ∀ o i,
  i ∈ waiting_from o pool ↔
  (o ≤ i)%nat ∧ ∃ r k, pool !! (i - o)%nat = Some (Waiting r k).
Proof.
  induction pool as [|s pool IH]; intros o i; simpl.
  - split; [by intros ?%elem_of_nil | by intros (_ & r & k & ?)].
  - assert (Hrest : i ∈ waiting_from (S o) pool ↔
                    (o < i)%nat ∧ ∃ r k, (s :: pool) !! (i - o)%nat = Some (Waiting r k)).
    { rewrite IH. split.
      - intros (Hle & r & k & Hl). split; [lia|]. exists r, k.
        replace (i - o)%nat with (S (i - S o)) by lia. done.
      - intros (Hlt & r & k & Hl). split; [lia|]. exists r, k.
        replace (i - o)%nat with (S (i - S o)) in Hl by lia. done. }
    destruct s as [out|r0 k0]; simpl.
    + rewrite Hrest. split; [intros [? ?]; split; [lia|done]|].
      intros (Hle & r & k & Hl). split; [|by exists r, k].
      destruct (decide (i = o)) as [->|]; [|lia].
      by rewrite Nat.sub_diag in Hl.
    + rewrite elem_of_cons, Hrest. split.
      * intros [->|[? ?]]; [|split; [lia|done]].
        split; [lia|]. rewrite Nat.sub_diag. by exists r0, k0.
      * intros (Hle & r & k & Hl).
        destruct (decide (i = o)) as [->|]; [by left|right].
        split; [lia|]. by exists r, k.
Qed.

Lemma waiting_spec pool i :
  i ∈ waiting pool ↔ ∃ r k, pool !! i = Some (Waiting r k).
Proof.
  unfold waiting. rewrite waiting_from_spec, Nat.sub_0_r.
  split; [by intros [_ ?] | intros ?; split; [lia|done]].
Qed.

Lemma rejection_None pool :
  rejection pool = None ↔ ∀ i e, pool !! i ≠ Some (Done (inl e)).
Proof.
  induction pool as [|s pool IH]; simpl.
  - split; [by intros _ i e | done].
  - destruct s as [[e|a]|r k].
    + split; [done|]. intros Hall. by destruct (Hall 0%nat e).
    + rewrite IH. split.
      * intros Hall [|i] e; simpl; [done|apply Hall].
      * intros Hall i e. apply (Hall (S i) e).
    + rewrite IH. split.
      * intros Hall [|i] e; simpl; [done|apply Hall].
      * intros Hall i e. apply (Hall (S i) e).
Qed.

(** The member the schedule picks is one of the suspended ones. *)
Lemma pick_waiting (n i0 : nat) (ws : list nat) :
  nth (n mod length (i0 :: ws)) (i0 :: ws) i0 ∈ i0 :: ws.
Proof.
  apply list_elem_of_In, nth_In. apply Nat.mod_upper_bound. simpl. lia.
Qed.

End Pool.

Lemma sum_list_replicate {B} (k m : nat) (b : B) :
  sum_list (replicate k (m, b)).*1 = (m * k)%nat.
Proof.
  induction k as [|k IH]; [by rewrite Nat.mul_0_r|].
  cbn [replicate]. rewrite fmap_cons. cbn [sum_list fst]. rewrite IH.
  unfold id. lia.
Qed.

Lemma sum_list_insert_lt {B} (l : list (nat * B)) i m b b' :
  l !! i = Some (S m, b) →
  (sum_list (<[i := (m, b')]> l).*1 < sum_list l.*1)%nat.
Proof.
  revert i. induction l as [|[m0 b0] l IH]; intros [|i]; simpl; try done.
  - intros [= -> ->]. lia.
  - intros Hl. apply Nat.add_lt_mono_l. exact (IH i Hl).
Qed.

Section Run.
Context {I : Interface} (E : Environment I) {St : Type}.
Implicit Types (w : World E (St := St)).

Lemma run_bind {A B} (t : Task (I := I) St A) (k : A → Task St B) : ∀ w,
  run E (bind t k) w =
    match run E t w with
    | (w1, inl e) => (w1, inl e)
    | (w1, inr a) => run E (k a) w1
    end.
Proof.
  induction t as [a|e|f t IH|k' IH|q k' IH|r k' IH]; intros w; cbn; try done.
  - destruct (query E q (env w)) as [x e']. apply IH.
  - destruct (handle E r (env w)) as [x e']. apply IH.
Qed.

Lemma run_try_catch {A} (t : Task (I := I) St A) (h : Thrown → Task St A) : ∀ w,
  run E (try_catch t h) w =
    match run E t w with
    | (w1, inl e) => run E (h e) w1
    | (w1, inr a) => (w1, inr a)
    end.
Proof.
  induction t as [a|e|f t IH|k' IH|q k' IH|r k' IH]; intros w; cbn; try done.
  - destruct (query E q (env w)) as [x e']. apply IH.
  - destruct (handle E r (env w)) as [x e']. apply IH.
Qed.

(** A task on a part of the store leaves the rest of the store alone:
    [rest] is any reading of the store that no [put] changes. *)
Lemma run_zoom_frame {St1 A R} (get : St → St1) (put : St1 → St → St) (rest : St → R)
    (t : Task (I := I) St1 A) :
  (∀ a s, rest (put a s) = rest s) →
  ∀ w, rest (store (run E (zoom get put t) w).1) = rest (store w).
Proof.
  intros Hput.
  induction t as [a|e|f t IH|k' IH|q k' IH|r k' IH]; intros w; cbn; try done.
  - rewrite IH. cbn. apply Hput.
  - destruct (query E q (env w)) as [x e']. by rewrite IH.
  - destruct (handle E r (env w)) as [x e']. by rewrite IH.
Qed.
End Run.

Section Members.
Context {I : Interface} (E : Environment I) {St Σ : Type}.
Implicit Types (w : World E (St := St)) (pool : list (Susp (I := I) St unit)).
Implicit Types (σ : Σ) (states : list (nat * Σ)).
Variable Inv : World E (St := St) → Prop.
Variable G : nat → World E (St := St) → World E (St := St) → Prop.
Variable A : nat → Σ → World E (St := St) → Prop.
Variable final : Σ → Prop.

Local Abbreviation member := (member E Inv G A final).
Local Abbreviation starter := (starter E Inv G A final).
Local Abbreviation pool_ok := (pool_ok E Inv G A final).

Lemma member_Done i m σ out :
  member i m σ (Done out) ↔ out = inr tt ∧ final σ.
Proof. by destruct m. Qed.

Lemma member_Waiting i m σ r k :
  (∀ w, Inv w → A i σ w →
     ∃ σ', G i w (resume E (Waiting r k) w).1 ∧ A i σ' (resume E (Waiting r k) w).1 ∧
           member i m σ' (resume E (Waiting r k) w).2) →
  member i (S m) σ (Waiting r k).
Proof. done. Qed.

Lemma member_mono i m : ∀ m' σ s, (m ≤ m')%nat → member i m σ s → member i m' σ s.
Proof.
  induction m as [|m IH]; intros m' σ [out|r k] Hle Hm.
  - by apply member_Done.
  - done.
  - apply member_Done. by apply member_Done in Hm.
  - destruct m' as [|m']; [lia|]. apply member_Waiting.
    intros w Hinv HA. destruct (Hm w Hinv HA) as (σ' & HG & HA' & Hm').
    exists σ'. split_and!; [done..|]. apply IH; [lia|done].
Qed.

Hypothesis Inv_step : ∀ i w w', Inv w → G i w w' → Inv w'.
Hypothesis stable : ∀ i j σ w w', i ≠ j → Inv w → A j σ w → G i w w' → A j σ w'.

Lemma resume_at_ok pool states w i :
  Inv w → pool_ok pool states w → i ∈ waiting pool →
  ∃ states',
    pool_ok (resume_at E i pool w).2 states' (resume_at E i pool w).1 ∧
    Inv (resume_at E i pool w).1 ∧
    (sum_list states'.*1 < sum_list states.*1)%nat.
Proof.
  intros Hinv [Hlen Hok] (r & k & Hi)%waiting_spec.
  assert (is_Some (states !! i)) as [[m σ] Hsi].
  { apply lookup_lt_is_Some. rewrite Hlen. by eapply lookup_lt_Some. }
  destruct (Hok _ _ _ _ Hi Hsi) as [Hmem HA].
  destruct m as [|m]; [done|]. cbn [member] in Hmem.
  destruct (Hmem w Hinv HA) as (σ' & HG & HA' & Hmem').
  assert (Hra : resume_at E i pool w =
                ((resume E (Waiting r k) w).1, <[i := (resume E (Waiting r k) w).2]> pool)).
  { unfold resume_at. rewrite Hi. by destruct (resume E (Waiting r k) w). }
  rewrite Hra. clear Hra.
  destruct (resume E (Waiting r k) w) as [w' s'] eqn:Hres. cbn [fst snd] in *.
  exists (<[i := (m, σ')]> states). split_and!.
  - split; [by rewrite !length_insert|].
    intros j s m0 σ0 Hj Hsj. destruct (decide (i = j)) as [<-|Hne].
    + rewrite list_lookup_insert_eq in Hj by by eapply lookup_lt_Some.
      rewrite list_lookup_insert_eq in Hsj by by eapply lookup_lt_Some.
      by simplify_eq.
    + rewrite list_lookup_insert_ne in Hj by done.
      rewrite list_lookup_insert_ne in Hsj by done.
      destruct (Hok _ _ _ _ Hj Hsj) as [? ?]. split; [done|].
      by eapply stable.
  - by eapply Inv_step.
  - by eapply sum_list_insert_lt.
Qed.

Lemma pool_ok_no_rejection pool states w :
  pool_ok pool states w → rejection pool = None.
Proof.
  intros [Hlen Hok]. apply rejection_None. intros i e Hi.
  assert (is_Some (states !! i)) as [[m σ] Hsi].
  { apply lookup_lt_is_Some. rewrite Hlen. by eapply lookup_lt_Some. }
  destruct (Hok _ _ _ _ Hi Hsi) as [Hm _]. apply member_Done in Hm. by destruct Hm.
Qed.

(** With a schedule at least as long as the budgets together, the members
    all end fulfilled, each in a final state whose assertion holds. *)
Theorem drive_members sched : ∀ pool states w,
  Inv w → pool_ok pool states w →
  (sum_list states.*1 ≤ length sched)%nat →
  Inv (drive E sched pool w).1.1 ∧
  length (drive E sched pool w).1.2 = length pool ∧
  (∀ j, (j < length pool)%nat →
     (drive E sched pool w).1.2 !! j = Some (Done (inr tt)) ∧
     ∃ σ, final σ ∧ A j σ (drive E sched pool w).1.1) ∧
  (length sched ≤ length (drive E sched pool w).2 + sum_list states.*1)%nat.
Proof.
  assert (Hsettled : ∀ pool states w, pool_ok pool states w → waiting pool = [] →
            ∀ j, (j < length pool)%nat →
              pool !! j = Some (Done (inr tt)) ∧ ∃ σ, final σ ∧ A j σ w).
  { intros pool states w [Hlen Hok] Hnone j Hj.
    destruct (lookup_lt_is_Some_2 pool j Hj) as [s Hs].
    assert (is_Some (states !! j)) as [[m σ] Hsj].
    { apply lookup_lt_is_Some. by rewrite Hlen. }
    destruct (Hok _ _ _ _ Hs Hsj) as [Hm HA].
    destruct s as [out|r k].
    - apply member_Done in Hm. destruct Hm as [-> Hfin]. eauto.
    - assert (j ∈ waiting pool) as Hin by (apply waiting_spec; eauto).
      rewrite Hnone in Hin. by apply elem_of_nil in Hin. }
  induction sched as [|n sched IH]; intros pool states w Hinv Hpool Hsum.
  - cbn [drive]. rewrite (pool_ok_no_rejection _ _ _ Hpool).
    destruct (waiting pool) as [|i0 ws] eqn:Hw; cbn [fst snd].
    + split_and!; [done|done|by eapply Hsettled|lia].
    + exfalso. assert (i0 ∈ waiting pool) as Hin by (rewrite Hw; left).
      destruct (resume_at_ok _ _ _ _ Hinv Hpool Hin) as (? & _ & _ & ?).
      simpl in Hsum. lia.
  - cbn [drive]. rewrite (pool_ok_no_rejection _ _ _ Hpool).
    destruct (waiting pool) as [|i0 ws] eqn:Hw; cbn [fst snd].
    + split_and!; [done|done|by eapply Hsettled|lia].
    + set (i := nth (n `mod` length (i0 :: ws)) (i0 :: ws) i0).
      assert (i ∈ waiting pool) as Hin by (rewrite Hw; apply pick_waiting).
      destruct (resume_at_ok _ _ _ _ Hinv Hpool Hin) as (states' & Hpool' & Hinv' & Hlt).
      assert (Hlen' : length (resume_at E i pool w).2 = length pool).
      { unfold resume_at. destruct (pool !! i); [|done].
        destruct (resume E s w). cbn [snd]. by rewrite length_insert. }
      destruct (resume_at E i pool w) as [w' pool'] eqn:Hra. cbn [fst snd] in *.
      destruct (IH pool' states' w' Hinv' Hpool') as (H1 & H2 & H3 & H4);
        [simpl in Hsum; lia|].
      split_and!; [done|congruence| |simpl in *; lia].
      intros j Hj. apply H3. by rewrite Hlen'.
Qed.

Lemma spawn_cons (t : Task (I := I) St unit) ts w :
  spawn E (t :: ts) w =
    ((spawn E ts (advance E t w).1).1,
     (advance E t w).2 :: (spawn E ts (advance E t w).1).2).
Proof.
  cbn [spawn]. destruct (advance E t w) as [w1 s]. cbn [fst snd].
  by destruct (spawn E ts w1).
Qed.

(** Starting the tasks in order, each to its first [await], gives a pool of
    members with the budgets of the tasks. *)
Lemma spawn_members ts : ∀ o states0 w (P : World E (St := St) → Prop),
  (∀ i w w', (o ≤ i)%nat → Inv w → P w → G i w w' → P w') →
  Inv w → P w → length states0 = length ts →
  (∀ j t m σ, ts !! j = Some t → states0 !! j = Some (m, σ) →
     starter (j + o) m σ t ∧ A (j + o) σ w) →
  ∃ states,
    states.*1 = states0.*1 ∧
    Inv (spawn E ts w).1 ∧ P (spawn E ts w).1 ∧
    length states = length (spawn E ts w).2 ∧
    length (spawn E ts w).2 = length ts ∧
    ∀ j s m σ, (spawn E ts w).2 !! j = Some s → states !! j = Some (m, σ) →
      member (j + o) m σ s ∧ A (j + o) σ (spawn E ts w).1.
Proof.
  induction ts as [|t ts IH]; intros o states0 w P HP Hinv HPw Hlen Hts.
  - destruct states0; [|done]. exists []. by split_and!.
  - destruct states0 as [|[m σ] states0]; [done|].
    destruct (Hts 0%nat t m σ eq_refl eq_refl) as [Hstart HA].
    destruct (Hstart w Hinv HA) as (σ' & HG & HA' & Hmem).
    change (0 + o)%nat with o in *.
    rewrite spawn_cons.
    destruct (advance E t w) as [w1 s] eqn:Hadv. cbn [fst snd] in *.
    assert (Hinv1 : Inv w1) by by eapply Inv_step.
    destruct (IH (S o) states0 w1 (λ w, P w ∧ A o σ' w)) as
      (states & Hbud & Hinv' & [HP' HAo] & Hlen1 & Hlen2 & Hmem').
    + intros i w2 w3 Hi Hinv2 [HP2 HA2] HG2. split.
      * apply (HP i w2 w3); [lia|done..].
      * apply (stable i o σ' w2 w3); [lia|done..].
    + done.
    + split; [|done]. apply (HP o w w1); [lia|done..].
    + by simplify_eq/=.
    + intros j t' m' σ0 Hj Hsj.
      destruct (Hts (S j) t' m' σ0 Hj Hsj) as [Hst HAj].
      rewrite Nat.add_succ_r. split; [done|].
      apply (stable o (S (j + o)) σ0 w w1); [lia|done..].
    + exists ((m, σ') :: states). split_and!.
      * rewrite !fmap_cons. by rewrite Hbud.
      * done.
      * done.
      * cbn [length]. by rewrite Hlen1.
      * cbn [length]. by rewrite Hlen2.
      * intros [|j] s0 m0 σ0 Hj Hsj; simplify_eq/=; [done|].
        rewrite <- Nat.add_succ_r. by apply Hmem'.
Qed.

Lemma all_fulfilled (pool : list (Susp (I := I) St unit)) :
  (∀ j, (j < length pool)%nat → pool !! j = Some (Done (inr tt))) →
  all_outcome pool = AllFulfilled.
Proof.
  intros Hall. unfold all_outcome.
  assert (Hrej : rejection pool = None).
  { apply rejection_None. intros i e Hi.
    rewrite (Hall i) in Hi by by eapply lookup_lt_Some. done. }
  rewrite Hrej. destruct (waiting pool) as [|i ws] eqn:Hw; [done|].
  assert (i ∈ waiting pool) as (r & k & Hi)%waiting_spec by (rewrite Hw; left).
  rewrite (Hall i) in Hi by by eapply lookup_lt_Some. done.
Qed.

(** One window: [await Promise.all(batch.map(..))]. When the schedule is at
    least as long as the budgets of the tasks together, the window ends
    with every member fulfilled, in a final state whose assertion holds. *)
Theorem window_members ts states0 sched w :
  Inv w → length states0 = length ts →
  (∀ j t m σ, ts !! j = Some t → states0 !! j = Some (m, σ) →
     starter j m σ t ∧ A j σ w) →
  (sum_list states0.*1 ≤ length sched)%nat →
  let started := spawn E ts w in
  let ended := drive E sched started.2 started.1 in
  Inv ended.1.1 ∧
  all_outcome ended.1.2 = AllFulfilled ∧
  (∀ j, (j < length ts)%nat → ∃ σ, final σ ∧ A j σ ended.1.1) ∧
  (length sched ≤ length ended.2 + sum_list states0.*1)%nat.
Proof.
  intros Hinv Hlen Hts Hsum started ended.
  destruct (spawn_members ts 0 states0 w (λ _, True)) as
    (states & Hbud & Hinv' & _ & Hlen1 & Hlen2 & Hmem); try done.
  { intros j t m σ Hj Hsj. rewrite Nat.add_0_r. eauto. }
  fold started in Hinv', Hlen1, Hlen2, Hmem.
  assert (Hok : pool_ok started.2 states started.1).
  { split; [done|]. intros j s m σ Hj Hsj.
    specialize (Hmem j s m σ Hj Hsj). by rewrite Nat.add_0_r in Hmem. }
  destruct (drive_members sched started.2 states started.1 Hinv' Hok) as
    (H1 & H2 & H3 & H4); [by rewrite Hbud|].
  fold ended in H1, H2, H3, H4. split_and!.
  - done.
  - apply all_fulfilled. intros j Hj. apply H3. by rewrite <- H2.
  - intros j Hj. apply H3. by rewrite Hlen2.
  - by rewrite <- Hbud.
Qed.

End Members.

(** A member under an invariant is a member under every stronger one. *)
Lemma member_under {I : Interface} (E : Environment I) {St Σ : Type}
    (Inv Inv' : World E (St := St) → Prop) G (A : nat → Σ → World E (St := St) → Prop)
    final i :
  (∀ w, Inv' w → Inv w) →
  ∀ m σ s, member E Inv G A final i m σ s → member E Inv' G A final i m σ s.
Proof.
  intros Himp. induction m as [|m IH]; intros σ [out|r k] Hm; try done.
  cbn [member] in *. intros w Hinv HA.
  destruct (Hm w (Himp w Hinv) HA) as (σ' & HG & HA' & Hm').
  exists σ'. split_and!; [done..|]. by apply IH.
Qed.

(** One step of following a task through its run: the term is computed as
    far as it goes, or else the next answer of the environment, or the next
    case distinction of the task, is opened. *)
Ltac follow E H :=
  first
  [ progress (cbn in H)
  | match type of H with
    | context [query E ?q ?e] => destruct (query E q e) as [? ?] eqn:?
    | context [handle E ?r ?e] => destruct (handle E r e) as [? ?] eqn:?
    | context [match ?x with _ => _ end] => destruct x eqn:?
    end ].

End AsyncFacts.

(** ** The Playwright adapter *)
Module PlaywrightFacts.
Import Async ScrapeIO Playwright ScrapeSamples.

Local Arguments cacheKey : simpl never.
Local Arguments build_result : simpl never.
Local Arguments render_request : simpl never.
Local Arguments PlaywrightLRU.get : simpl never.
Local Arguments PlaywrightLRU.set : simpl never.
Local Arguments JsMap.get : simpl never.
Local Arguments pretty : simpl never.
Local Arguments String.append : simpl never.

(** *** One target, scraped twice *)

Section Scrape.
Context `{ContentParser} (E : Environment io).
Implicit Types (w : World E (St := Adapter)).

Lemma lru_get_fresh {T} now key (c : PlaywrightLRU.LRUCache T) slot :
  JsMap.get key (PlaywrightLRU.cache c) = Some slot →
  now - PlaywrightLRU.timestamp slot ≤ PlaywrightLRU.ttl c →
  (PlaywrightLRU.get now key c).1 = Some (PlaywrightLRU.data slot).
Proof.
  intros Hget Hfresh. unfold PlaywrightLRU.get. rewrite Hget.
  destruct (Z.ltb_spec (PlaywrightLRU.ttl c) (now - PlaywrightLRU.timestamp slot)); [lia|done].
Qed.

Lemma lru_get_set {T} now key (d : T) (c : PlaywrightLRU.LRUCache T) :
  JsMap.get key (PlaywrightLRU.cache (PlaywrightLRU.set now key d c))
    = Some (PlaywrightLRU.mkSlot d now).
Proof. unfold PlaywrightLRU.set. cbn. apply JsMapFacts.get_set_eq. Qed.

(** A call of [scrape] that came back with a result of its own has made one
    request to the browser and has stored the result under the cache key. *)
Lemma scrape_stores url options w w1 r1 :
  default true (opt_cache options) = true →
  run E (scrape url options) w = (w1, inr r1) →
  cached r1 = false →
  calls w1 = calls w ++ [render_request url options; Teardown] ∧
  ∃ ts, JsMap.get (cacheKey url options) (PlaywrightLRU.cache (cache (store w1)))
        = Some (PlaywrightLRU.mkSlot (result r1) ts).
Proof.
  intros Hc Hrun Hnc. unfold scrape in Hrun. rewrite Hc in Hrun.
  unfold cache_get, cache_set, on_progress, signal_aborted in Hrun.
  repeat AsyncFacts.follow E Hrun; simplify_eq/=; try done.
  all: (split; [by rewrite <- app_assoc|]); eexists; apply lru_get_set.
Qed.

(** A call of [scrape] that finds a fresh entry under the cache key
    returns it, flagged as cached, and makes no request. *)
Lemma scrape_from_cache url options w slot :
  default true (opt_cache options) = true →
  JsMap.get (cacheKey url options) (PlaywrightLRU.cache (cache (store w))) = Some slot →
  lookup_time E (env w) - PlaywrightLRU.timestamp slot ≤ PlaywrightLRU.ttl (cache (store w)) →
  ∃ w2 r2, run E (scrape url options) w = (w2, inr r2) ∧
    cached r2 = true ∧ result r2 = PlaywrightLRU.data slot ∧ calls w2 = calls w.
Proof.
  intros Hc Hget Hfresh. unfold scrape. rewrite Hc.
  unfold cache_get, on_progress, lookup_time in *. cbn.
  destruct (query E DateNow (env w)) as [t0 e0] eqn:Hq0. cbn in *.
  rewrite Hget. cbn.
  destruct (query E DateNow e0) as [t1 e1] eqn:Hq1. cbn in *.
  rewrite (lru_get_fresh t1 _ _ slot Hget Hfresh). cbn.
  destruct (opt_onProgress options); cbn.
  - destruct (query E (OnProgress _) e1) as [[] e2]. cbn.
    destruct (query E DateNow e2) as [t3 e3]. cbn. eauto 10.
  - destruct (query E DateNow e1) as [t3 e3]. cbn. eauto 10.
Qed.

(** C1. With caching enabled, a call of [scrape] that returns a result of
    its own has made exactly one request to the browser (and closed what it
    opened) and has stored the result under the cache key; a second call for
    the same target and options that reads the cache within the time-to-live
    of that entry returns the same result, flagged as a cache hit, and makes
    no request at all. The second call may start in any state [e2] of the
    environment. *)
Theorem second_scrape_hits_cache url options w w1 r1 (e2 : Env E) :
  default true (opt_cache options) = true →
  run E (scrape url options) w = (w1, inr r1) →
  cached r1 = false →
  (∀ slot,
     JsMap.get (cacheKey url options) (PlaywrightLRU.cache (cache (store w1))) = Some slot →
     lookup_time E e2 - PlaywrightLRU.timestamp slot ≤ PlaywrightLRU.ttl (cache (store w1))) →
  calls w1 = calls w ++ [render_request url options; Teardown] ∧
  (∃ ts, JsMap.get (cacheKey url options) (PlaywrightLRU.cache (cache (store w1)))
         = Some (PlaywrightLRU.mkSlot (result r1) ts)) ∧
  ∃ w2 r2, run E (scrape url options) (with_env E w1 e2) = (w2, inr r2) ∧
    cached r2 = true ∧ result r2 = result r1 ∧ calls w2 = calls w1.
Proof.
  intros Hc Hrun Hnc Hfresh.
  destruct (scrape_stores url options w w1 r1 Hc Hrun Hnc) as [Hcalls [ts Hslot]].
  split; [done|]. split; [by exists ts|].
  destruct (scrape_from_cache url options (with_env E w1 e2)
              (PlaywrightLRU.mkSlot (result r1) ts) Hc Hslot) as (w2 & r2 & ? & ? & ? & ?).
  { by apply Hfresh. }
  by exists w2, r2.
Qed.

End Scrape.

Lemma second_scrape_hits_cache_witness :
  ∃ w1 r1,
    run (scripted true) (scrape (H := parser) example_url no_options) (at_start true)
      = (w1, inr r1) ∧
    calls w1 = calls (at_start true) ++ [render_request example_url no_options; Teardown] ∧
    (∃ ts, JsMap.get (cacheKey example_url no_options)
             (PlaywrightLRU.cache (cache (store w1)))
           = Some (PlaywrightLRU.mkSlot (result r1) ts)) ∧
    ∃ w2 r2,
      run (scripted true) (scrape example_url no_options)
        (with_env (scripted true) w1 (1000 : Env (scripted true))) = (w2, inr r2) ∧
      cached r2 = true ∧ result r2 = result r1 ∧ calls w2 = calls w1.
Proof.
  eexists _, _. split; [by vm_compute|].
  apply (second_scrape_hits_cache (H := parser)
           (scripted true) example_url no_options (at_start true)).
  - reflexivity.
  - by vm_compute.
  - reflexivity.
  - intros slot [= <-]. by vm_compute.
Defined.

(** *** The paths through one scrape *)

Section ScrapePaths.
Context `{ContentParser} (E : Environment io).
Implicit Types (w : World E (St := Adapter)).

(** Every call of [scrape] either does no browser work at all or asks for
    one page and then releases what it opened, on success and on failure
    alike. A call that returns has done no browser work exactly when its
    response is flagged as cached. *)
Theorem scrape_renders_once_and_cleans_up url options w :
  let w1 := (run E (scrape url options) w).1 in
  let out := (run E (scrape url options) w).2 in
  (calls w1 = calls w ∨ calls w1 = calls w ++ [render_request url options; Teardown]) ∧
  (∀ r, out = inr r →
     (cached r = true ∧ calls w1 = calls w) ∨
     (cached r = false ∧ calls w1 = calls w ++ [render_request url options; Teardown])).
Proof.
  intros w1 out. subst w1 out.
  destruct (run E (scrape url options) w) as [w1 out] eqn:Hrun. cbn [fst snd].
  unfold scrape, cache_get, cache_set, on_progress, signal_aborted in Hrun.
  repeat AsyncFacts.follow E Hrun; simplify_eq/=;
    rewrite <- ?app_assoc; (split; [by auto|]); intros r [= <-] || intros r [=]; auto.
Qed.


(** With [cache: false] a call neither reads nor writes the adapter's
    cache, and what it returns is never flagged as cached. *)
Theorem scrape_uncached_leaves_cache url options w :
  opt_cache options = Some false →
  let w1 := (run E (scrape url options) w).1 in
  let out := (run E (scrape url options) w).2 in
  store w1 = store w ∧ ∀ r, out = inr r → cached r = false.
Proof.
  intros Hc w1 out. subst w1 out.
  destruct (run E (scrape url options) w) as [w1 out] eqn:Hrun. cbn [fst snd].
  unfold scrape, cache_get, cache_set, on_progress, signal_aborted in Hrun.
  rewrite Hc in Hrun.
  repeat AsyncFacts.follow E Hrun; simplify_eq/=; split; try done;
    by intros r [= <-].
Qed.

End ScrapePaths.


Lemma scrape_uncached_leaves_cache_witness :
  store (run (scripted true) (scrape (H := parser) example_url CancelSamples.uncached)
           (at_start true)).1 = store (at_start true) ∧
  ∀ r, (run (scripted true) (scrape (H := parser) example_url CancelSamples.uncached)
          (at_start true)).2 = inr r → cached r = false.
Proof.
  apply (scrape_uncached_leaves_cache (H := parser) (scripted true) example_url
           CancelSamples.uncached (at_start true)).
  reflexivity.
Defined.

(** *** A batch whose every attempt fails *)

Local Arguments inject_Z : simpl never.
Local Arguments Z.mul : simpl never.
Local Arguments Z.add : simpl never.
Local Arguments Z.ltb : simpl never.
Local Arguments Nat.mul : simpl never.
Local Arguments retries : simpl never.
Local Arguments retryDelay : simpl never.
Local Arguments concurrency : simpl never.
Local Arguments attempts_on : simpl never.
Local Arguments renders_of : simpl never.

Section Journal.
Context `{ContentParser}.

Lemma attempts_on_snoc u jn c :
  attempts_on u (jn ++ [mkAttempt u c]) = attempts_on u jn ++ [mkAttempt u c].
Proof. unfold attempts_on. rewrite filter_app. f_equal. cbn. by rewrite decide_True. Qed.

Lemma attempts_on_snoc_ne u jn x :
  target x ≠ u → attempts_on u (jn ++ [x]) = attempts_on u jn.
Proof.
  intros Hne. unfold attempts_on. rewrite filter_app.
  rewrite (filter_cons_False _ x) by done. by rewrite filter_nil, app_nil_r.
Qed.

Lemma renders_of_snoc u cs r :
  render_url r = Some u → renders_of u (cs ++ [r]) = renders_of u cs ++ [r].
Proof.
  intros Heq. unfold renders_of. rewrite filter_app. f_equal.
  by rewrite (filter_cons_True _ r).
Qed.

Lemma renders_of_snoc_ne u cs r :
  render_url r ≠ Some u → renders_of u (cs ++ [r]) = renders_of u cs.
Proof.
  intros Hne. unfold renders_of. rewrite filter_app.
  rewrite (filter_cons_False _ r) by done. by rewrite filter_nil, app_nil_r.
Qed.

End Journal.

Section AllFail.
Context `{ContentParser} (E : Environment io) (options : BatchCallOptions).
Implicit Types (w : World E (St := Batch Adapter)).

Local Abbreviation opts := (with_signal (scrapeOptions options) (batch_signal options)).

Hypothesis Hretries : 0 ≤ retries options.
Hypothesis Hfail : ∀ url wu t sel js env,
  ∃ e, (handle E (Render url wu t sel js) env).1 = inl e.
Hypothesis Hquiet : ∀ sg env,
  batch_signal options = Some sg → (query E (SignalAborted sg) env).1 = false.

(** What a task of the window has come to: the attempts it has settled,
    the last error it caught, whether an attempt is under way, and whether
    it has recorded its failure. *)
Record Standing : Type := mkStanding {
  tried : nat;
  last_error : option Thrown;
  busy : bool;
  recorded : bool;
}.

Variable urls : list string.

Definition cold w : Prop :=
  ∀ u, u ∈ urls →
    JsMap.get (cacheKey u opts) (PlaywrightLRU.cache (cache (adapter (store w)))) = None.

(** What a target's task may touch: the target's entry of [failed], its
    attempts in the journal and its requests. *)
Definition same_on (v : string) w w' : Prop :=
  batch_failed (store w') !! v = batch_failed (store w) !! v ∧
  attempts_on v (journal (store w')) = attempts_on v (journal (store w)) ∧
  renders_of v (calls w') = renders_of v (calls w).

(** A target that has not been tried, and a target whose task has given
    up: [retries + 1] attempts and as many requests, all of them failed, and
    the last error recorded. *)
Definition fresh_target (u : string) w : Prop :=
  attempts_on u (journal (store w)) = [] ∧ batch_failed (store w) !! u = None.

Definition failed_target (base : nat) (u : string) w : Prop :=
  length (attempts_on u (journal (store w))) = Z.to_nat (retries options + 1) ∧
  length (renders_of u (calls w)) = (base + Z.to_nat (retries options + 1))%nat ∧
  ∃ e, last (attempts_on u (journal (store w))) = Some (mkAttempt u (Some e)) ∧
       batch_failed (store w) !! u = Some e.

Section Window.
Variable batch : list string.
Hypothesis Hsub : batch ⊆ urls.
Hypothesis Hnodup : NoDup batch.
Variable ws : World E (St := Batch Adapter).

Definition InvW w : Prop :=
  cold w ∧ batch_results (store w) = ∅ ∧ ∀ v, v ∉ batch → same_on v ws w.

Definition GW (j : nat) w w' : Prop :=
  ∃ u, batch !! j = Some u ∧
    adapter (store w') = adapter (store w) ∧
    batch_results (store w') = batch_results (store w) ∧
    ∀ v, v ≠ u → same_on v w w'.

Definition AW (j : nat) (σ : Standing) w : Prop :=
  ∃ u, batch !! j = Some u ∧
    length (attempts_on u (journal (store w))) = tried σ ∧
    last (attempts_on u (journal (store w))) = (λ e, mkAttempt u (Some e)) <$> last_error σ ∧
    length (renders_of u (calls w)) =
      (length (renders_of u (calls ws)) + tried σ + (if busy σ then 1 else 0))%nat ∧
    batch_failed (store w) !! u = (if recorded σ then last_error σ else None).

Definition finalW (σ : Standing) : Prop :=
  recorded σ = true ∧ busy σ = false ∧
  tried σ = Z.to_nat (retries options + 1) ∧ is_Some (last_error σ).

(** One step of following a task through, with what is known of the
    outside: the signal is not aborted and the page does not render. *)
Ltac follow H :=
  first
  [ progress (cbn in H)
  | match type of H with
    | context [query E (SignalAborted ?sg) ?e] =>
        let Hq := fresh "Hq" in
        pose proof (Hquiet sg e eq_refl) as Hq;
        destruct (query E (SignalAborted sg) e) as [? ?] eqn:?;
        cbn in Hq; subst
    | context [handle E (Render ?u ?p ?t ?sel ?js) ?e] =>
        let Hq := fresh "Hq" in let err := fresh "err" in
        destruct (Hfail u p t sel js e) as [err Hq];
        destruct (handle E (Render u p t sel js) e) as [? ?] eqn:?;
        cbn in Hq; subst
    end
  | AsyncFacts.follow E H ].

(** The journal and the requests of a world that was built from another. *)
Ltac frame :=
  cbn;
  rewrite ?attempts_on_snoc, ?renders_of_snoc by done;
  rewrite ?attempts_on_snoc_ne, ?renders_of_snoc_ne by (cbn; congruence);
  rewrite ?lookup_insert_eq, ?lookup_insert_ne by done;
  rewrite ?length_app, ?last_snoc; cbn.

Lemma attempts_starter j u : batch !! j = Some u → ∀ n a le,
  Z.of_nat a + Z.of_nat n = retries options + 1 →
  (a = 0%nat → le = None) → ((0 < a)%nat → is_Some le) →
  starter E InvW GW AW finalW j (3 * n) (mkStanding a le false false)
    (attempts options n (Z.of_nat a) le u).
Proof.
  intros Hj. induction n as [|n IH]; intros a le Han Hle0 Hle1 w Hinv HA.
  - destruct Hle1 as [e ->]; [lia|]. cbn.
    destruct HA as (u' & Hu' & Hlen & Hlast & Hcalls & Hfailed).
    rewrite Hj in Hu'. injection Hu' as <-. cbn in Hlen, Hlast, Hcalls, Hfailed.
    exists (mkStanding a (Some e) false true). split_and!.
    + exists u. split_and!; [done..|]. intros v Hv. unfold same_on. by frame.
    + exists u. by frame.
    + cbn. split; [done|]. unfold finalW. cbn. split_and!; [done|done|lia|done].
  - (* The attempt starts: no cache entry, no abort, the page is requested. *)
    destruct (advance E (attempts options (S n) (Z.of_nat a) le u) w) as [w' s] eqn:Hadv.
    cbn [fst snd]. cbn [attempts] in Hadv.
    unfold scrape, on_adapter, cache_get, signal_aborted, on_progress in Hadv.
    assert (Hcold : JsMap.get (cacheKey u opts) (PlaywrightLRU.cache (cache (adapter (store w)))) = None).
    { destruct Hinv as [Hc _]. apply Hc, Hsub. by eapply list_elem_of_lookup_2. }
    unfold render_request in Hadv.
    repeat (first [rewrite Hcold in Hadv | follow Hadv]); simplify_eq.
    all: destruct HA as (u' & Hu' & Hlen & Hlast & Hcalls & Hfailed);
      rewrite Hj in Hu'; injection Hu' as <-; cbn in Hlen, Hlast, Hcalls, Hfailed.
    all: exists (mkStanding a le true false); split_and!.
    all: try (exists u; split_and!; [done..|]; intros v Hv; unfold same_on; by frame).
    all: try (exists u; frame; split_and!; (done || lia)).
    all: replace (3 * S n)%nat with (S (S (S (3 * n)))) by lia.
    all: clear dependent w.
    (* The request is answered, with a failure: the [finally] block runs. *)
    all: apply AsyncFacts.member_Waiting; intros w Hinv HA.
    all: destruct (resume E _ w) as [w' s] eqn:Hres; cbn [fst snd resume] in *.
    all: repeat follow Hres; simplify_eq.
    all: destruct HA as (u' & Hu' & Hlen & Hlast & Hcalls & Hfailed);
      rewrite Hj in Hu'; injection Hu' as <-; cbn in Hlen, Hlast, Hcalls, Hfailed.
    all: exists (mkStanding a le true false); split_and!.
    all: try (exists u; split_and!; [done..|]; intros v Hv; unfold same_on; by frame).
    all: try (exists u; frame; split_and!; (done || lia)).
    all: clear dependent w.
    (* The closing is answered: the error is caught and noted; then the
       pause before the next attempt, or the end of the loop. *)
    all: apply AsyncFacts.member_Waiting; intros w Hinv HA.
    all: destruct (resume E _ w) as [w' s] eqn:Hres; cbn [fst snd resume] in *.
    all: repeat follow Hres.
    all: match goal with
         | Hlt : (_ <? _) = true |- _ => apply Z.ltb_lt in Hlt
         | Hge : (_ <? _) = false |- _ => apply Z.ltb_ge in Hge
         end.
    all: try (destruct n; [|lia]; repeat follow Hres).
    all: simplify_eq.
    all: destruct HA as (u' & Hu' & Hlen & Hlast & Hcalls & Hfailed);
      rewrite Hj in Hu'; injection Hu' as <-; cbn in Hlen, Hlast, Hcalls, Hfailed.
    all: match goal with
         | |- context [mkAttempt _ (Some ?e)] =>
           match goal with
           | |- context [Waiting (Sleep _) _] =>
               exists (mkStanding (S a) (Some e) false false)
           | |- _ => exists (mkStanding (S a) (Some e) false true)
           end
         end.
    all: split_and!.
    all: try (exists u; split_and!; [done..|]; intros v Hv; unfold same_on; by frame).
    all: try (exists u; frame; split_and!; (done || lia)).
    all: try (cbn; split; [done|]; unfold finalW; cbn; split_and!; [done|done|lia|done]).
    all: clear dependent w.
    (* The pause is over: the next attempt. *)
    all: apply AsyncFacts.member_Waiting; intros w Hinv HA.
    all: cbn [resume].
    all: destruct (handle E (Sleep _) (env w)) as [[] e5]; cbn [fst snd].
    all: replace (Z.of_nat a + 1) with (Z.of_nat (S a)) by lia.
    all: match goal with
         | |- context [attempts _ _ _ (Some ?e) _] =>
           destruct (IH (S a) (Some e) ltac:(lia) ltac:(done) ltac:(eauto)
                       (with_env E w e5)) as (σ' & HG & HA' & Hm); [done..|];
             by exists σ'
         end.
Qed.

Lemma InvW_step i w w' : InvW w → GW i w w' → InvW w'.
Proof.
  intros (Hcold & Hres & Hout) (u & Hu & Had & Hr & Hsame). split_and!.
  - unfold cold in *. by rewrite Had.
  - by rewrite Hr.
  - intros v Hv. assert (v ≠ u) as Hne.
    { intros ->. apply Hv. by eapply list_elem_of_lookup_2. }
    destruct (Hout v Hv) as (? & ? & ?), (Hsame v Hne) as (? & ? & ?).
    unfold same_on. split_and!; congruence.
Qed.

Lemma AW_stable i j σ w w' : i ≠ j → InvW w → AW j σ w → GW i w w' → AW j σ w'.
Proof.
  intros Hij _ (u & Hu & HA) (v & Hv & _ & _ & Hsame).
  assert (u ≠ v) as Hne.
  { intros ->. apply Hij. by eapply NoDup_lookup. }
  destruct (Hsame u Hne) as (Hf & Ha & Hc).
  exists u. rewrite Hf, Ha, Hc. done.
Qed.

(** One window of targets, none of them tried before: every task of the
    window ends with its failure recorded, after [retries + 1] attempts. *)
Lemma window_all_failed sched :
  cold ws → batch_results (store ws) = ∅ →
  (∀ u, u ∈ batch → fresh_target u ws) →
  (3 * Z.to_nat (retries options + 1) * length batch ≤ length sched)%nat →
  let started := spawn E (retry_task options <$> batch) ws in
  let ended := drive E sched started.2 started.1 in
  all_outcome ended.1.2 = AllFulfilled ∧
  cold ended.1.1 ∧ batch_results (store ended.1.1) = ∅ ∧
  (∀ v, v ∉ batch → same_on v ws ended.1.1) ∧
  (∀ u, u ∈ batch → failed_target (length (renders_of u (calls ws))) u ended.1.1) ∧
  (length sched ≤ length ended.2 + 3 * Z.to_nat (retries options + 1) * length batch)%nat.
Proof.
  intros Hcold Hres Hfresh Hsched started ended.
  set (N := Z.to_nat (retries options + 1)) in *.
  set (states0 := replicate (length batch) ((3 * N)%nat, mkStanding 0 None false false)).
  assert (Hsum : sum_list states0.*1 = (3 * N * length batch)%nat).
  { unfold states0. apply AsyncFacts.sum_list_replicate. }
  destruct (AsyncFacts.window_members E InvW GW AW finalW InvW_step AW_stable
              (retry_task options <$> batch) states0 sched ws) as (Hinv & Hall & Hfin & Hleft).
  - by split_and!.
  - unfold states0. by rewrite length_replicate, length_fmap.
  - intros j t m σ Hj Hσ. unfold states0 in Hσ.
    apply lookup_replicate in Hσ as [[= -> ->] _].
    rewrite list_lookup_fmap in Hj.
    destruct (batch !! j) as [u|] eqn:Hu; [|done]. injection Hj as <-.
    split.
    + unfold retry_task. apply (attempts_starter j u Hu N 0 None); [lia|done|lia].
    + destruct (Hfresh u) as [Hjn Hf]; [by eapply list_elem_of_lookup_2|].
      exists u. cbn. rewrite Hjn. split_and!; [done|done|done|lia|done].
  - by rewrite Hsum.
  - fold started ended in Hinv, Hall, Hfin, Hleft.
    destruct Hinv as (Hcold' & Hres' & Hout).
    split_and!; [done|done|done|done| |by rewrite <- Hsum].
    intros u [j Hu]%list_elem_of_lookup.
    destruct (Hfin j) as (σ & (Hrec & Hbusy & Htried & [e He]) & (u' & Hu' & Hlen & Hlast & Hcalls & Hf)).
    { rewrite length_fmap. by eapply lookup_lt_Some. }
    rewrite Hu in Hu'. injection Hu' as <-.
    rewrite Hrec, Hbusy, Htried, He in *.
    split_and!; [done|lia|]. exists e. done.
Qed.

End Window.

Hypothesis Hconc : 1 ≤ concurrency options.
Hypothesis Hnodup : NoDup urls.

Lemma run_signal_quiet w :
  ∃ w', run E (signal_aborted (batch_signal options)) w = (w', inr false) ∧
        store w' = store w ∧ calls w' = calls w.
Proof.
  unfold signal_aborted. destruct (batch_signal options) as [sg|] eqn:Hsg; cbn.
  - pose proof (Hquiet sg (env w) eq_refl) as Hq.
    destruct (query E (SignalAborted sg) (env w)) as [b e]. cbn in Hq. subst b.
    by eexists.
  - by eexists.
Qed.

Lemma run_on_progress given ev w :
  ∃ w', run E (on_progress given ev) w = (w', inr tt) ∧
        store w' = store w ∧ calls w' = calls w.
Proof.
  unfold on_progress. destruct given; cbn.
  - destruct (query E (OnProgress ev) (env w)) as [[] e]. by eexists.
  - by eexists.
Qed.

Lemma run_date_now w :
  ∃ w' t, run E date_now w = (w', inr t) ∧ store w' = store w ∧ calls w' = calls w.
Proof.
  unfold date_now. cbn. destruct (query E DateNow (env w)) as [t e]. by eexists _, _.
Qed.

Lemma run_pause (b : bool) w :
  ∃ w', run E (if b then (random ← math_random;
                          sleep (inject_Z (getRandomDelay random 500 1500)))
               else Ret tt) w = (w', inr tt) ∧
        store w' = store w ∧ ∀ u, renders_of u (calls w') = renders_of u (calls w).
Proof.
  destruct b; cbn.
  - destruct (query E MathRandom (env w)) as [x e]. cbn.
    destruct (handle E (Sleep _) e) as [[] e']. eexists. split; [done|].
    split; [done|]. intros u. cbn. by rewrite renders_of_snoc_ne.
  - by eexists.
Qed.

Lemma js_slice_window (k : nat) (C : Z) :
  (k < length urls)%nat → 1 ≤ C →
  js_slice urls (Z.of_nat k) (Z.of_nat k + C) = take (Z.to_nat C) (drop k urls).
Proof.
  intros Hk HC. unfold js_slice.
  destruct (Z.ltb_spec (Z.of_nat k) 0); [lia|].
  destruct (Z.ltb_spec (Z.of_nat k + C) 0); [lia|].
  rewrite (Z.min_l (Z.of_nat k)) by lia. rewrite Nat2Z.id.
  destruct (Z.min_spec (Z.of_nat k + C) (Z.of_nat (length urls))) as [[? ->]|[? ->]].
  - f_equal. lia.
  - rewrite !take_ge; [done| |]; rewrite length_drop; lia.
Qed.

Section Loop.
Variable w0 : World E (St := Batch Adapter).

(** The loop over the windows, with the first [k] targets done. *)
Definition LoopInv (k : nat) w : Prop :=
  cold w ∧ batch_results (store w) = ∅ ∧
  (∀ u, u ∈ take k urls → failed_target (length (renders_of u (calls w0))) u w) ∧
  (∀ u, u ∉ take k urls → same_on u w0 w).

Lemma LoopInv_quiet k w w' :
  store w' = store w → (∀ u, renders_of u (calls w') = renders_of u (calls w)) →
  LoopInv k w → LoopInv k w'.
Proof.
  intros Hs Hc (Hcold & Hres & Hdone & Hrest).
  unfold LoopInv, cold, failed_target, same_on in *.
  rewrite Hs. setoid_rewrite Hc. done.
Qed.

Hypothesis Hstart : ∀ u, fresh_target u w0.

Lemma windows_all_failed : ∀ fuel k sched w,
  LoopInv k w →
  (length urls - k < fuel)%nat →
  (3 * Z.to_nat (retries options + 1) * (length urls - k) ≤ length sched)%nat →
  ∃ w' sched' k',
    windows options E fuel urls (Z.of_nat k) sched w = (LoopDone, w', sched') ∧
    LoopInv k' w' ∧ (length urls ≤ k')%nat.
Proof.
  set (N := Z.to_nat (retries options + 1)).
  induction fuel as [|fuel IH]; intros k sched w Hinv Hfuel Hsched; [lia|].
  cbn [windows].
  destruct (Z.ltb_spec (Z.of_nat k) (Z.of_nat (length urls))) as [Hk|Hk]; cbn [negb].
  2: { exists w, sched, k. split_and!; [done|done|lia]. }
  destruct (run_signal_quiet w) as (w1 & -> & Hs1 & Hc1).
  rewrite js_slice_window by lia.
  set (Cn := Z.to_nat (concurrency options)).
  set (batch := take Cn (drop k urls)).
  destruct (run_on_progress (batch_onProgress options)
              (ScrapeIO.mkProgress Extracting (batch_message options (Z.of_nat k)) (head batch)
                 (Some (Z.of_nat k)) (Some (Z.of_nat (length urls)))) w1)
    as (w2 & -> & Hs2 & Hc2).
  assert (Hinv2 : LoopInv k w2).
  { apply (LoopInv_quiet k w); [congruence|intros; congruence|done]. }
  destruct Hinv2 as (Hcold & Hres & Hdone & Hrest).
  assert (Hsplit : take (k + Cn) urls = take k urls ++ batch).
  { unfold batch. by rewrite take_take_drop. }
  assert (Hurls : urls = take k urls ++ drop k urls) by by rewrite take_drop.
  assert (Hbsub : batch ⊆ drop k urls) by apply subseteq_take.
  assert (Hbatch : batch ⊆ urls).
  { intros u Hu. rewrite Hurls. apply elem_of_app. right. by apply Hbsub. }
  assert (Hbnd : NoDup batch).
  { rewrite Hurls in Hnodup. apply NoDup_app in Hnodup as (_ & _ & Hnd).
    apply (sublist_NoDup _ (drop k urls)); [done|]. apply sublist_take. }
  assert (Hbnew : ∀ u, u ∈ batch → u ∉ take k urls).
  { intros u Hu Hin. rewrite Hurls in Hnodup.
    apply NoDup_app in Hnodup as (_ & Hdis & _). by apply (Hdis u Hin), Hbsub. }
  assert (Hlenb : (length urls - k = length batch + (length urls - (k + Cn)))%nat).
  { unfold batch. rewrite length_take, length_drop. lia. }
  pose proof (window_all_failed batch Hbatch Hbnd w2 sched Hcold Hres) as Hwin.
  destruct (spawn E (retry_task options <$> batch) w2) as [w3 pool] eqn:Hspawn.
  cbn [fst snd] in Hwin.
  destruct (drive E sched pool w3) as [[w4 pool'] sched'] eqn:Hdrive.
  cbn [fst snd] in Hwin.
  destruct Hwin as (-> & Hcold4 & Hres4 & Hout4 & Hin4 & Hleft).
  { intros u Hu. destruct (Hrest u (Hbnew u Hu)) as (Hf & Hj & _).
    destruct (Hstart u) as [Hj0 Hf0]. split; congruence. }
  { fold N. rewrite Hlenb in Hsched. lia. }
  destruct (run_pause (Z.of_nat k + concurrency options <? Z.of_nat (length urls)) w4)
    as (w5 & -> & Hs5 & Hc5).
  replace (Z.of_nat k + concurrency options) with (Z.of_nat (k + Cn)) by (unfold Cn; lia).
  apply IH.
  - apply (LoopInv_quiet (k + Cn) w4); [done..|].
    split_and!; [done|done| |].
    + intros u. rewrite Hsplit, elem_of_app. intros [Hu|Hu].
      * destruct (Hdone u Hu) as (Hl & Hr & e & Hla & Hfa).
        assert (u ∉ batch) as Hnb by (intros ?; by apply (Hbnew u)).
        destruct (Hout4 u Hnb) as (Hf' & Hj' & Hc').
        unfold failed_target. rewrite Hf', Hj', Hc'. split_and!; [done|done|by exists e].
      * destruct (Hin4 u Hu) as (Hl & Hr & He). split_and!; [done| |done].
        destruct (Hrest u (Hbnew u Hu)) as (_ & _ & Hc0). by rewrite <- Hc0.
    + intros u. rewrite Hsplit, elem_of_app. intros Hu.
      destruct (Hrest u) as (Hf & Hj & Hc); [tauto|].
      destruct (Hout4 u) as (Hf' & Hj' & Hc'); [tauto|].
      unfold same_on. split_and!; congruence.
  - unfold Cn in *. lia.
  - fold N in Hleft, Hsched |- *. rewrite Hlenb in Hsched.
    unfold Cn in *. nia.
Qed.

End Loop.


End AllFail.



(** *** Cancellation *)

Section Settling.
Context `{ContentParser} (E : Environment io) (options : BatchCallOptions).
Implicit Types (w : World E (St := Batch Adapter)).

(** A target is settled when one of the two maps holds it. *)
Definition settled (u : string) w : Prop :=
  is_Some (batch_results (store w) !! u) ∨ is_Some (batch_failed (store w) !! u).

Definition grows w w' : Prop := ∀ u, settled u w → settled u w'.

Variable batch : list string.

Definition InvS w : Prop := True.
Definition GS (j : nat) w w' : Prop := grows w w'.
Definition AS (j : nat) (σ : bool) w : Prop :=
  ∃ u, batch !! j = Some u ∧ (σ = true → settled u w).
Definition finalS (σ : bool) : Prop := σ = true.

Ltac follow H := AsyncFacts.follow E H.

Lemma grows_trans w1 w2 w3 : grows w1 w2 → grows w2 w3 → grows w1 w3.
Proof. unfold grows. auto. Qed.

Ltac grown :=
  let v := fresh "v" in
  intros v [?|?]; [left|right]; cbn;
  rewrite ?lookup_insert_is_Some'; auto.

(** The end of one run of a task: it is fulfilled with its target settled,
    it is suspended again, or it has come to its next attempt. *)
Ltac settle IH Hj j u :=
  lazymatch goal with
  | Hrun : advance E (attempts _ _ ?a' ?le' _) ?W = (_, _) |- _ =>
      let σ := fresh "σ" in
      let HG := fresh "HG" in let HA := fresh "HA" in let Hm := fresh "Hm" in
      destruct (IH a' le' ltac:(intros; eauto) W I ltac:(by exists u))
        as (σ & HG & HA & Hm);
      rewrite Hrun in HG, HA, Hm; cbn [fst snd] in HG, HA, Hm;
      exists σ; split_and!;
      [ eapply grows_trans; [|exact HG]; grown
      | exact HA
      | eapply AsyncFacts.member_mono; [|exact Hm]; lia ]
  | Hrun : (_, Done (inr tt)) = (_, _) |- _ =>
      injection Hrun as <- <-; exists true; split_and!;
      [ grown
      | exists u; split; [exact Hj|]; intros _;
        first [ left; cbn; by rewrite lookup_insert_eq
              | right; cbn; by rewrite lookup_insert_eq ]
      | done ]
  | Hrun : (_, Waiting _ _) = (_, _) |- _ =>
      injection Hrun as <- <-; exists false; split_and!;
      [ grown
      | by exists u
      | let w1 := fresh "w" in let w2 := fresh "w" in let s2 := fresh "s" in
        let Hres := fresh "Hres" in
        apply AsyncFacts.member_Waiting; intros w1 _ _;
        destruct (resume E _ w1) as [w2 s2] eqn:Hres;
        cbn [fst snd resume] in Hres |- *;
        repeat follow Hres;
        settle IH Hj j u ]
  end.

Lemma attempts_settle j u : batch !! j = Some u → ∀ n a le,
  (n = 0%nat → is_Some le) →
  starter E InvS GS AS finalS j (3 * n) false (attempts options n a le u).
Proof.
  intros Hj. induction n as [|n IH]; intros a le Hle w _ _.
  - destruct Hle as [e ->]; [done|]. cbn.
    exists true. split_and!.
    + grown.
    + exists u. split; [done|]. intros _. right. cbn. by rewrite lookup_insert_eq.
    + done.
  - destruct (advance E (attempts options (S n) a le u) w) as [w' s] eqn:Hadv.
    cbn [fst snd]. cbn [attempts] in Hadv.
    unfold scrape, on_adapter, cache_get, cache_set, signal_aborted, on_progress in Hadv.
    unfold render_request in Hadv.
    replace (3 * S n)%nat with (S (S (S (3 * n)))) by lia.
    repeat follow Hadv.
    all: settle IH Hj j u.
Qed.

Lemma GS_step i w w' : InvS w → GS i w w' → InvS w'.
Proof. done. Qed.

Lemma AS_stable i j (σ : bool) w w' : i ≠ j → InvS w → AS j σ w → GS i w w' → AS j σ w'.
Proof.
  intros _ _ (u & Hu & Hs) Hg. exists u. split; [done|]. intros Hσ. by apply Hg, Hs.
Qed.

(** A window that has started runs every one of its tasks to the end,
    whatever the outside does meanwhile. *)
Lemma window_settles sched w :
  0 ≤ retries options →
  (3 * Z.to_nat (retries options + 1) * length batch ≤ length sched)%nat →
  let started := spawn E (retry_task options <$> batch) w in
  let ended := drive E sched started.2 started.1 in
  all_outcome ended.1.2 = AllFulfilled ∧ ∀ u, u ∈ batch → settled u ended.1.1.
Proof.
  intros Hretries Hsched started ended.
  set (N := Z.to_nat (retries options + 1)) in *.
  set (states0 := replicate (length batch) ((3 * N)%nat, false)).
  assert (Hsum : sum_list states0.*1 = (3 * N * length batch)%nat).
  { unfold states0. apply AsyncFacts.sum_list_replicate. }
  destruct (AsyncFacts.window_members E InvS GS AS finalS GS_step AS_stable
              (retry_task options <$> batch) states0 sched w) as (_ & Hall & Hfin & _).
  - done.
  - unfold states0. by rewrite length_replicate, length_fmap.
  - intros j t m σ Hj Hσ. unfold states0 in Hσ.
    apply lookup_replicate in Hσ as [[= -> ->] _].
    rewrite list_lookup_fmap in Hj.
    destruct (batch !! j) as [u|] eqn:Hu; [|done]. injection Hj as <-.
    split; [|by exists u].
    unfold retry_task. apply (attempts_settle j u Hu N 0 None). lia.
  - by rewrite Hsum.
  - fold started ended in Hall, Hfin. split; [done|].
    intros u [j Hu]%list_elem_of_lookup.
    destruct (Hfin j) as (σ & Hσ & (u' & Hu' & Hs)).
    { rewrite length_fmap. by eapply lookup_lt_Some. }
    rewrite Hu in Hu'. injection Hu' as <-. by apply Hs.
Qed.

End Settling.

Section Abort.
Context `{ContentParser} (E : Environment io) (options : BatchCallOptions).
Implicit Types (w : World E (St := Batch Adapter)).
Local Abbreviation opts := (with_signal (scrapeOptions options) (batch_signal options)).

Variable sg : nat.
Hypothesis Hsignal : batch_signal options = Some sg.

(** The signal is read as aborted at the top of a window: the loop ends
    there. *)
Lemma windows_abort fuel urls i sched w :
  (query E (SignalAborted sg) (env w)).1 = true →
  ∃ w', windows options E (S fuel) urls i sched w = (LoopDone, w', sched) ∧
        store w' = store w ∧ calls w' = calls w.
Proof.
  intros Hab. cbn [windows].
  destruct (negb (i <? Z.of_nat (length urls))); [by exists w|].
  unfold signal_aborted. rewrite Hsignal. cbn [run].
  destruct (query E (SignalAborted sg) (env w)) as [b e]. cbn in Hab. subst b.
  by eexists.
Qed.

Lemma scrapeMany_abort fuel urls sched (wa : Async.World E (St := Adapter)) :
  (query E (SignalAborted sg) (query E DateNow (env wa)).2).1 = true →
  ∃ r w, scrapeMany options E (S fuel) urls sched wa = Returned r w ∧
    results r = ∅ ∧ failed r = ∅ ∧ calls w = calls wa ∧ adapter (store w) = store wa.
Proof.
  intros Hab. unfold scrapeMany, date_now. cbn [run env].
  destruct (query E DateNow (env wa)) as [t1 e1]. cbn [fst snd run] in *.
  match goal with
  | |- context [windows options E (S fuel) urls 0 sched ?w1] =>
      destruct (windows_abort fuel urls 0 sched w1 Hab) as (w2 & -> & Hs2 & Hc2)
  end.
  unfold on_progress. destruct (batch_onProgress options); cbn [run].
  - destruct (query E (OnProgress _) (env w2)) as [[] e3]. cbn.
    destruct (query E DateNow e3) as [t4 e4]. cbn.
    eexists _, _. split; [done|]. cbn. by rewrite Hs2, Hc2.
  - destruct (query E DateNow (env w2)) as [t4 e4]. cbn.
    eexists _, _. split; [done|]. cbn. by rewrite Hs2, Hc2.
Qed.

(** Whether a suspended task waits for the browser to render, or to tear
    down. *)
Definition awaits_render (s : Susp (I := io) (Batch Adapter) unit) : bool :=
  match s with
  | Waiting (Render _ _ _ _ _) _ => true
  | _ => false
  end.

Definition awaits_teardown (s : Susp (I := io) (Batch Adapter) unit) : bool :=
  match s with
  | Waiting Teardown _ => true
  | _ => false
  end.

Ltac follow H := AsyncFacts.follow E H.

(** An attempt that has been submitted is carried through: when the page
    renders and is closed, the result is stored, whatever has become of the
    signal. *)
Lemma submitted_attempt_completes u w :
  0 ≤ retries options →
  let s1 := (advance E (retry_task options u) w).2 in
  awaits_render s1 = true →
  ∀ w2, (∃ page, (handle E (render_request u opts) (env w2)).1 = inr page) →
    let s2 := (resume E s1 w2).2 in
    awaits_teardown s2 = true ∧
    ∀ w3, (handle E Teardown (env w3)).1 = None →
      (resume E s2 w3).2 = Done (inr tt) ∧
      is_Some (batch_results (store (resume E s2 w3).1) !! u) ∧
      calls (resume E s2 w3).1 = calls w3.
Proof.
  intros Hretries. unfold retry_task.
  destruct (Z.to_nat (retries options + 1)) as [|n] eqn:HN; [lia|].
  destruct (advance E (attempts options (S n) 0 None u) w) as [w1 s1] eqn:Hadv.
  cbn [fst snd]. cbn [attempts] in Hadv.
  unfold scrape, on_adapter, cache_get, cache_set, signal_aborted, on_progress in Hadv.
  unfold render_request in *.
  repeat follow Hadv.
  all: try match goal with
           | Hge : (0 <? retries options) = false |- _ =>
               apply Z.ltb_ge in Hge; destruct n; [|lia]; repeat follow Hadv
           end.
  all: injection Hadv as <- <-.
  all: intros Hr; cbn in Hr; try discriminate Hr; clear Hr.
  all: intros w2 [page Hpage]; cbv zeta.
  all: destruct (resume E _ w2) as [w2' s2] eqn:Hres; cbn [fst snd resume] in Hres |- *.
  all: cbn in Hpage; repeat follow Hres; cbn in Hpage; simplify_eq.
  all: split; [done|]; intros w3 Hclose.
  all: destruct (resume E _ w3) as [w3' s3] eqn:Hres3; cbn [fst snd resume] in Hres3 |- *.
  all: repeat follow Hres3; cbn in Hclose; simplify_eq.
  all: split_and!; [done|cbn; by rewrite lookup_insert_eq|done].
Qed.


End Abort.


(** A run in which the signal is aborted while the first window is under
    way (from time 5 on; the first page is answered at that time): the three
    targets of the window are scraped all the same, the fourth target, which
    the next window would have taken, is never requested. *)
Example abort_mid_window :
  ∃ r w,
    scrapeMany (H := parser) (one_retry_with 5) (scripted true) 5 ["a"; "b"; "c"; "d"]
      (in_order 24) (at_start true) = Returned r w ∧
    url (H := parser) <$> results r !! "a" = Some "a" ∧
    url (H := parser) <$> results r !! "b" = Some "b" ∧
    url (H := parser) <$> results r !! "c" = Some "c" ∧
    results r !! "d" = None ∧
    failed r = ∅ ∧ renders_of "d" (calls w) = [].
Proof. eexists _, _. split; [by vm_compute|]. by vm_compute. Qed.

(** *** The two maps hold every target and nothing else *)

Section Confined.
Context `{ContentParser} (E : Environment io) (options : BatchCallOptions).
Implicit Types (w : World E (St := Batch Adapter)).

Variable batch : list string.

(** What a task may add to the two maps: its own target. *)
Definition GC (j : nat) w w' : Prop :=
  ∀ v, settled E v w' → settled E v w ∨ batch !! j = Some v.
Definition AC (j : nat) (σ : unit) w : Prop := True.
Definition finalC (σ : unit) : Prop := True.

Ltac follow H := AsyncFacts.follow E H.

Lemma GC_trans j w1 w2 w3 : GC j w1 w2 → GC j w2 w3 → GC j w1 w3.
Proof. unfold GC. intros H12 H23 v Hv. destruct (H23 v Hv) as [?|?]; auto. Qed.

Ltac kept Hj :=
  let v := fresh "v" in let Hv := fresh "Hv" in
  intros v Hv; unfold settled in *; cbn in Hv |- *;
  rewrite ?lookup_insert_is_Some' in Hv;
  intuition (subst; auto).

Ltac confine IH Hj j u :=
  lazymatch goal with
  | Hrun : advance E (attempts _ _ ?a' ?le' _) ?W = (_, _) |- _ =>
      let σ := fresh "σ" in
      let HG := fresh "HG" in let Hm := fresh "Hm" in
      destruct (IH a' le' W I I) as (σ & HG & _ & Hm);
      rewrite Hrun in HG, Hm; cbn [fst snd] in HG, Hm;
      exists tt; split_and!;
      [ eapply GC_trans; [|exact HG]; kept Hj
      | done
      | destruct σ; eapply AsyncFacts.member_mono; [|exact Hm]; lia ]
  | Hrun : (_, Done (inr tt)) = (_, _) |- _ =>
      injection Hrun as <- <-; exists tt; split_and!; [ kept Hj | done | done ]
  | Hrun : (_, Waiting _ _) = (_, _) |- _ =>
      injection Hrun as <- <-; exists tt; split_and!;
      [ kept Hj
      | done
      | let w1 := fresh "w" in let w2 := fresh "w" in let s2 := fresh "s" in
        let Hres := fresh "Hres" in
        apply AsyncFacts.member_Waiting; intros w1 _ _;
        destruct (resume E _ w1) as [w2 s2] eqn:Hres;
        cbn [fst snd resume] in Hres |- *;
        repeat follow Hres;
        confine IH Hj j u ]
  end.

Lemma attempts_confined j u : batch !! j = Some u → ∀ n a le,
  starter E (InvS E) GC AC finalC j (3 * n) tt (attempts options n a le u).
Proof.
  intros Hj. induction n as [|n IH]; intros a le w _ _.
  - destruct le as [e|]; cbn; exists tt; (split_and!; [kept Hj|done|done]).
  - destruct (advance E (attempts options (S n) a le u) w) as [w' s] eqn:Hadv.
    cbn [fst snd]. cbn [attempts] in Hadv.
    unfold scrape, on_adapter, cache_get, cache_set, signal_aborted, on_progress in Hadv.
    unfold render_request in Hadv.
    replace (3 * S n)%nat with (S (S (S (3 * n)))) by lia.
    repeat follow Hadv.
    all: confine IH Hj j u.
Qed.

(** A window adds to the two maps nothing but targets of its own. *)
Lemma window_confined sched w :
  (3 * Z.to_nat (retries options + 1) * length batch ≤ length sched)%nat →
  let started := spawn E (retry_task options <$> batch) w in
  let ended := drive E sched started.2 started.1 in
  ∀ v, settled E v ended.1.1 → settled E v w ∨ v ∈ batch.
Proof.
  intros Hsched started ended.
  set (N := Z.to_nat (retries options + 1)) in *.
  set (states0 := replicate (length batch) ((3 * N)%nat, tt)).
  assert (Hsum : sum_list states0.*1 = (3 * N * length batch)%nat).
  { unfold states0. apply AsyncFacts.sum_list_replicate. }
  pose (Inv := λ w' : World E (St := Batch Adapter),
          ∀ v, settled E v w' → settled E v w ∨ v ∈ batch).
  destruct (AsyncFacts.window_members E Inv GC AC finalC)
    with (ts := retry_task options <$> batch) (states0 := states0) (sched := sched) (w := w)
    as (Hinv & _).
  - intros i w1 w2 Hi HG v Hv. destruct (HG v Hv) as [Hold|Hnew]; [by apply Hi|].
    right. by eapply list_elem_of_lookup_2.
  - done.
  - intros v Hv. by left.
  - unfold states0. by rewrite length_replicate, length_fmap.
  - intros j t m σ Hj Hσ. unfold states0 in Hσ.
    apply lookup_replicate in Hσ as [[= -> ->] _].
    rewrite list_lookup_fmap in Hj.
    destruct (batch !! j) as [u|] eqn:Hu; [|done]. injection Hj as <-.
    split; [|done].
    intros w1 _ HA.
    destruct (attempts_confined j u Hu N 0 None w1 I HA) as (σ' & HG & HA' & Hm).
    exists σ'. split_and!; [done..|].
    by apply (AsyncFacts.member_under E (InvS E) Inv).
  - by rewrite Hsum.
  - exact Hinv.
Qed.

End Confined.
Section Accounting.
Context `{ContentParser} (E : Environment io) (options : BatchCallOptions).
Implicit Types (w : World E (St := Batch Adapter)).

Hypothesis Hretries : 0 ≤ retries options.
Hypothesis Hconc : 1 ≤ concurrency options.
Hypothesis Hquiet : ∀ sg (e : Env E),
  batch_signal options = Some sg → (query E (SignalAborted sg) e).1 = false.

Variable urls : list string.

Lemma settled_store u w w' : store w' = store w → settled E u w → settled E u w'.
Proof. unfold settled. by intros ->. Qed.

(** One window, entered with some targets settled: it ends with every
    task fulfilled, those targets and its own settled, and has used no more
    of the schedule than the budgets of its tasks. *)
Lemma window_accounts batch sched w :
  (3 * Z.to_nat (retries options + 1) * length batch ≤ length sched)%nat →
  let started := spawn E (retry_task options <$> batch) w in
  let ended := drive E sched started.2 started.1 in
  all_outcome ended.1.2 = AllFulfilled ∧
  grows E w ended.1.1 ∧
  (∀ u, u ∈ batch → settled E u ended.1.1) ∧
  (length sched ≤ length ended.2 + 3 * Z.to_nat (retries options + 1) * length batch)%nat.
Proof.
  intros Hsched started ended.
  set (N := Z.to_nat (retries options + 1)) in *.
  set (states0 := replicate (length batch) ((3 * N)%nat, false)).
  assert (Hsum : sum_list states0.*1 = (3 * N * length batch)%nat).
  { unfold states0. apply AsyncFacts.sum_list_replicate. }
  destruct (AsyncFacts.window_members E (grows E w) (GS E) (AS E batch) finalS)
    with (ts := retry_task options <$> batch) (states0 := states0) (sched := sched) (w := w)
    as (Hinv & Hall & Hfin & Hleft).
  - intros i w1 w2 Hg1 Hg2. by eapply grows_trans.
  - intros i j σ w1 w2 Hne _. by apply AS_stable.
  - by intros u.
  - unfold states0. by rewrite length_replicate, length_fmap.
  - intros j t m σ Hj Hσ. unfold states0 in Hσ.
    apply lookup_replicate in Hσ as [[= -> ->] _].
    rewrite list_lookup_fmap in Hj.
    destruct (batch !! j) as [u|] eqn:Hu; [|done]. injection Hj as <-.
    split; [|by exists u].
    intros w1 _ HA.
    destruct (attempts_settle E options batch j u Hu N 0 None ltac:(lia) w1 I HA)
      as (σ' & HG & HA' & Hm).
    exists σ'. split_and!; [done..|].
    by apply (AsyncFacts.member_under E (InvS E) (grows E w)).
  - by rewrite Hsum.
  - fold started ended in Hinv, Hall, Hfin, Hleft. split_and!; [done|done| |by rewrite <- Hsum].
    intros u [j Hu]%list_elem_of_lookup.
    destruct (Hfin j) as (σ & Hσ & (u' & Hu' & Hs)).
    { rewrite length_fmap. by eapply lookup_lt_Some. }
    rewrite Hu in Hu'. injection Hu' as <-. by apply Hs.
Qed.

Lemma windows_account : ∀ fuel k sched w,
  (∀ u, u ∈ take k urls → settled E u w) →
  (∀ v, settled E v w → v ∈ urls) →
  (length urls - k < fuel)%nat →
  (3 * Z.to_nat (retries options + 1) * (length urls - k) ≤ length sched)%nat →
  ∃ w' sched',
    windows options E fuel urls (Z.of_nat k) sched w = (LoopDone, w', sched') ∧
    (∀ u, u ∈ urls → settled E u w') ∧
    (∀ v, settled E v w' → v ∈ urls).
Proof.
  set (N := Z.to_nat (retries options + 1)).
  induction fuel as [|fuel IH]; intros k sched w Hdone Honly Hfuel Hsched; [lia|].
  cbn [windows].
  destruct (Z.ltb_spec (Z.of_nat k) (Z.of_nat (length urls))) as [Hk|Hk]; cbn [negb].
  2: { exists w, sched. split_and!; [done| |done]. intros u Hu. apply Hdone.
       rewrite take_ge by lia. done. }
  destruct (run_signal_quiet E options Hquiet w) as (w1 & -> & Hs1 & Hc1).
  rewrite js_slice_window by lia.
  set (Cn := Z.to_nat (concurrency options)).
  set (batch := take Cn (drop k urls)).
  destruct (run_on_progress E (batch_onProgress options)
              (ScrapeIO.mkProgress Extracting (batch_message options (Z.of_nat k)) (head batch)
                 (Some (Z.of_nat k)) (Some (Z.of_nat (length urls)))) w1)
    as (w2 & -> & Hs2 & Hc2).
  assert (Hsplit : take (k + Cn) urls = take k urls ++ batch).
  { unfold batch. by rewrite take_take_drop. }
  assert (Hbatch : batch ⊆ urls).
  { intros u Hu. rewrite <- (take_drop k urls). apply elem_of_app. right.
    by apply (subseteq_take Cn (drop k urls)). }
  assert (Hlenb : (length urls - k = length batch + (length urls - (k + Cn)))%nat).
  { unfold batch. rewrite length_take, length_drop. lia. }
  pose proof (window_accounts batch sched w2) as Hwin.
  pose proof (window_confined E options batch sched w2) as Hconf.
  destruct (spawn E (retry_task options <$> batch) w2) as [w3 pool] eqn:Hspawn.
  cbn [fst snd] in Hwin, Hconf.
  destruct (drive E sched pool w3) as [[w4 pool'] sched'] eqn:Hdrive.
  cbn [fst snd] in Hwin, Hconf.
  destruct Hwin as (-> & Hgrow & Hin & Hleft).
  { fold N. rewrite Hlenb in Hsched. lia. }
  specialize (Hconf ltac:(fold N; rewrite Hlenb in Hsched; lia)).
  destruct (run_pause E (Z.of_nat k + concurrency options <? Z.of_nat (length urls)) w4)
    as (w5 & -> & Hs5 & Hc5).
  replace (Z.of_nat k + concurrency options) with (Z.of_nat (k + Cn)) by (unfold Cn; lia).
  apply IH.
  - intros u. rewrite Hsplit, elem_of_app. intros [Hu|Hu].
    + apply (settled_store u w4); [done|]. apply Hgrow.
      apply (settled_store u w); [congruence|]. by apply Hdone.
    + apply (settled_store u w4); [done|]. by apply Hin.
  - intros v Hv. apply (settled_store v w5 w4) in Hv; [|done].
    destruct (Hconf v Hv) as [Hold|Hnew]; [|by apply Hbatch].
    apply Honly. apply (settled_store v w2); [congruence|done].
  - unfold Cn in *. lia.
  - fold N in Hleft, Hsched |- *. rewrite Hlenb in Hsched. unfold Cn in *. nia.
Qed.

(** The two maps of a batch hold every target and nothing else. Whatever
    the backend does (each attempt may succeed or fail, and the answers may
    come in any order), a batch that is not cancelled, with a concurrency of
    at least one and a retry count that is not negative, returns normally;
    every target it was given is a key of [results] or of [failed], and
    every key of the two maps is one of the targets. *)
Theorem scrapeMany_accounts_for_every_target fuel sched
    (wa : Async.World E (St := Adapter)) :
  (length urls < fuel)%nat →
  (3 * Z.to_nat (retries options + 1) * length urls ≤ length sched)%nat →
  ∃ r w, scrapeMany options E fuel urls sched wa = Returned r w ∧
    (∀ u, u ∈ urls → is_Some (results r !! u) ∨ is_Some (failed r !! u)) ∧
    (∀ u, is_Some (results r !! u) ∨ is_Some (failed r !! u) → u ∈ urls).
Proof.
  intros Hfuel Hsched. unfold scrapeMany.
  match goal with
  | |- context [run E date_now ?w] =>
      destruct (run_date_now E w) as (w1 & t1 & -> & Hs1 & Hc1)
  end.
  destruct (windows_account fuel 0 sched w1) as (w2 & sched' & Hloop & Hall & Honly).
  { intros u Hu. by apply elem_of_nil in Hu. }
  { intros v. unfold settled. rewrite Hs1. cbn. rewrite !lookup_empty.
    intros [[? [=]]|[? [=]]]. }
  { lia. }
  { by rewrite Nat.sub_0_r. }
  change (Z.of_nat 0) with 0 in Hloop. rewrite Hloop.
  match goal with
  | |- context [run E (on_progress ?g ?ev) w2] =>
      destruct (run_on_progress E g ev w2) as (w3 & -> & Hs3 & Hc3)
  end.
  destruct (run_date_now E w3) as (w4 & t4 & -> & Hs4 & Hc4).
  eexists _, _. split; [done|]. cbn [results failed]. split.
  - intros u Hu. destruct (Hall u Hu) as [Hr|Hf]; [left|right]; congruence.
  - intros u Hu. apply Honly. unfold settled. destruct Hu as [Hr|Hf]; [left|right]; congruence.
Qed.

End Accounting.

Lemma scrapeMany_accounts_for_every_target_witness :
  ∃ r w,
    scrapeMany (H := parser) one_retry (scripted true) 3 ["a"; "b"] (in_order 12)
      (at_start true) = Returned r w ∧
    (∀ u, u ∈ ["a"; "b"] → is_Some (results r !! u) ∨ is_Some (failed r !! u)) ∧
    (∀ u, is_Some (results r !! u) ∨ is_Some (failed r !! u) → u ∈ ["a"; "b"]).
Proof.
  apply (scrapeMany_accounts_for_every_target (H := parser) (scripted true) one_retry).
  - by vm_compute.
  - by vm_compute.
  - intros sg e Hsg. discriminate Hsg.
  - vm_compute. lia.
  - vm_compute. lia.
Defined.

End PlaywrightFacts.

(** ** The retry loop of the fetch-pool adapter *)
Module RetryFacts.
Import Async ScrapeIO Playwright Retry ScrapeSamples.

Local Arguments inject_Z : simpl never.
Local Arguments Z.mul : simpl never.
Local Arguments Z.add : simpl never.
Local Arguments Z.ltb : simpl never.
Local Arguments Qplus : simpl never.
Local Arguments Qmult : simpl never.

Section Facts.
Context `{ContentParser} {Scraper : Type} (E : Environment io).
Variable scrapeFn : string → ScrapeCallOptions → Job Scraper ScrapeResponse.
Variable scrapeOptions : ScrapeCallOptions.
Variable ctx : Ctx.
Variable url : string.
Implicit Types (w : World E (St := Batch Scraper)).

Local Abbreviation attempts := (Retry.attempts scrapeFn scrapeOptions ctx).
Local Abbreviation scrapeWithRetry := (Retry.scrapeWithRetry scrapeFn scrapeOptions ctx).

(** The error the loop holds after the attempts of [log], when it held
    [le] before them. *)
Definition last_caught (le : option Thrown) (log : list Attempt) : option Thrown :=
  match last log with
  | Some x => caught x
  | None => le
  end.

Definition failed_after (le : option Thrown) (log : list Attempt)
    (failed : gmap string Thrown) : gmap string Thrown :=
  match last_caught le log with
  | Some e => <[url := e]> failed
  | None => failed
  end.

Lemma run_scrapeFn_frame u o w :
  batch_results (store (run E (on_adapter (scrapeFn u o)) w).1) = batch_results (store w) ∧
  batch_failed (store (run E (on_adapter (scrapeFn u o)) w).1) = batch_failed (store w) ∧
  journal (store (run E (on_adapter (scrapeFn u o)) w).1) = journal (store w).
Proof.
  unfold on_adapter. split_and!.
  - by apply (AsyncFacts.run_zoom_frame E adapter put_adapter batch_results).
  - by apply (AsyncFacts.run_zoom_frame E adapter put_adapter batch_failed).
  - by apply (AsyncFacts.run_zoom_frame E adapter put_adapter journal).
Qed.

Lemma attempts_run n : ∀ a le w,
  ∃ w' log,
    run E (attempts n a le url) w = (w', inr tt) ∧
    journal (store w') = journal (store w) ++ log ∧
    Forall (λ x, target x = url) log ∧
    batch_failed (store w') = failed_after le log (batch_failed (store w)) ∧
    (le = None → log = [] → store w' = store w ∧ calls w' = calls w).
Proof.
  induction n as [|n IH]; intros a le w.
  - cbn. destruct le as [e|]; cbn.
    + eexists _, []. split_and!; [done|by rewrite app_nil_r|done|done|done].
    + eexists _, []. split_and!; [done|by rewrite app_nil_r|done|done|done].
  - cbn [Retry.attempts]. unfold mbind, task_bind.
    rewrite AsyncFacts.run_bind.
    assert (∃ w1 b, run E (signal_aborted (ctx_signal ctx)) w = (w1, inr b) ∧
                    store w1 = store w ∧ calls w1 = calls w) as (w1 & b & -> & Hs1 & Hc1).
    { unfold signal_aborted. destruct (ctx_signal ctx) as [sg|]; cbn.
      - destruct (query E (SignalAborted sg) (env w)) as [b e]. by eexists _, _.
      - by eexists _, _. }
    destruct b.
    { destruct le as [e|]; cbn.
      - eexists _, []. rewrite Hs1. split_and!; [done|by rewrite app_nil_r|done|done|done].
      - eexists _, []. rewrite Hs1. split_and!; [done|by rewrite app_nil_r|done|done|done]. }
    rewrite AsyncFacts.run_bind, AsyncFacts.run_try_catch, AsyncFacts.run_bind.
    destruct (run_scrapeFn_frame url (with_signal scrapeOptions (ctx_signal ctx)) w1)
      as (Hr2 & Hf2 & Hj2).
    destruct (run E (on_adapter (scrapeFn url (with_signal scrapeOptions (ctx_signal ctx)))) w1)
      as [w2 [err|resp]] eqn:Hrun; cbn [fst] in Hr2, Hf2, Hj2.
    + set (x := mkAttempt url (Some (toError err))).
      assert (∃ w3, run E
                (Update (note x)
                   (bind (if a <? ctx_retries ctx
                          then bind math_random (λ jitter : Q,
                                 sleep (inject_Z (ctx_retryDelay ctx * (a + 1)) + jitter * 100)%Q)
                          else Ret tt)
                      (λ _, Ret (Some (toError err))))) w2 = (w3, inr (Some (toError err))) ∧
              store w3 = note x (store w2)) as (w3 & -> & Hs3).
      { cbn. destruct (a <? ctx_retries ctx); cbn.
        - destruct (query E MathRandom (env w2)) as [jitter e]. cbn.
          destruct (handle E (Sleep _) e) as [[] e']. by eexists.
        - by eexists. }
      destruct (IH (a + 1) (Some (toError err)) w3) as (w' & log & -> & Hj & Hall & Hf & _).
      exists w', (x :: log). split_and!.
      * done.
      * rewrite Hj, Hs3. cbn. rewrite Hj2, Hs1. by rewrite <- app_assoc.
      * by constructor.
      * rewrite Hf, Hs3. cbn. rewrite Hf2, Hs1.
        unfold failed_after, last_caught. rewrite last_cons. by destruct (last log).
      * done.
    + cbn. eexists _, [mkAttempt url None]. split_and!.
      * done.
      * cbn. by rewrite Hj2, Hs1.
      * by repeat constructor.
      * cbn. by rewrite Hf2, Hs1.
      * done.
Qed.

(** The signal reads as aborted when the loop begins: the function returns
    at once. *)
Lemma scrapeWithRetry_aborted sg w :
  ctx_signal ctx = Some sg →
  (query E (SignalAborted sg) (env w)).1 = true →
  ∃ w', advance E (scrapeWithRetry url) w = (w', Done (inr tt)) ∧
        run E (scrapeWithRetry url) w = (w', inr tt) ∧
        store w' = store w ∧ calls w' = calls w.
Proof.
  intros Hsg Hab. unfold Retry.scrapeWithRetry.
  destruct (Z.to_nat (ctx_retries ctx + 1)) as [|n]; cbn.
  - by eexists.
  - rewrite Hsg. cbn.
    destruct (query E (SignalAborted sg) (env w)) as [b e]. cbn in Hab. subst b. cbn.
    by eexists.
Qed.


End Facts.


(** A run with a backend that is down: three attempts, the last error
    recorded. *)
Example scrapeWithRetry_offline :
  let w0 : World (scripted false) (St := Batch (H := parser) Adapter) :=
    mkWorld (mkBatch (new (H := parser) None None) ∅ ∅ []) (0 : Env (scripted false)) [] in
  let out := run (scripted false)
               (Retry.scrapeWithRetry (H := parser) scrape no_options (mkCtx 2 1000 None) "a") w0 in
  out.2 = inr tt ∧
  length (journal (store out.1)) = 3%nat ∧
  batch_failed (store out.1) !! "a" = Some (ErrorObj "net::ERR_CONNECTION_REFUSED") ∧
  batch_results (store out.1) = ∅.
Proof. by vm_compute. Qed.

(** *** How the loop ends *)

Section Outcome.
Context `{ContentParser} {Scraper : Type} (E : Environment io).
Variable scrapeFn : string → ScrapeCallOptions → Job Scraper ScrapeResponse.
Variable scrapeOptions : ScrapeCallOptions.
Variable ctx : Ctx.
Variable url : string.
Implicit Types (w : World E (St := Batch Scraper)).

Local Abbreviation attempts := (Retry.attempts scrapeFn scrapeOptions ctx).
Local Abbreviation scrapeWithRetry := (Retry.scrapeWithRetry scrapeFn scrapeOptions ctx).

(** An attempt on [url] that failed. *)
Definition failure (x : Attempt) : Prop := ∃ e, x = mkAttempt url (Some e).

Lemma attempts_outcome n : ∀ a le w,
  ∃ w' fails ok,
    run E (attempts n a le url) w = (w', inr tt) ∧
    journal (store w') = journal (store w) ++ fails ++ ok ∧
    (length (fails ++ ok) ≤ n)%nat ∧
    Forall failure fails ∧
    ((ok = [] ∧ batch_results (store w') = batch_results (store w)) ∨
     (ok = [mkAttempt url None] ∧
      batch_failed (store w') = batch_failed (store w) ∧
      ∃ r, batch_results (store w') = <[url := r]> (batch_results (store w)))).
Proof.
  induction n as [|n IH]; intros a le w.
  - cbn. destruct le as [e|]; cbn;
      eexists _, [], []; (split_and!; [done|by rewrite app_nil_r|done|done|by left]).
  - cbn [Retry.attempts]. unfold mbind, task_bind.
    rewrite AsyncFacts.run_bind.
    assert (∃ w1 b, run E (signal_aborted (ctx_signal ctx)) w = (w1, inr b) ∧
                    store w1 = store w ∧ calls w1 = calls w) as (w1 & b & -> & Hs1 & Hc1).
    { unfold signal_aborted. destruct (ctx_signal ctx) as [sg|]; cbn.
      - destruct (query E (SignalAborted sg) (env w)) as [b e]. by eexists _, _.
      - by eexists _, _. }
    destruct b.
    { destruct le as [e|]; cbn;
        eexists _, [], []; rewrite Hs1;
        (split_and!; [done|by rewrite app_nil_r|cbn; lia|done|by left]). }
    rewrite AsyncFacts.run_bind, AsyncFacts.run_try_catch, AsyncFacts.run_bind.
    destruct (run_scrapeFn_frame E scrapeFn url (with_signal scrapeOptions (ctx_signal ctx)) w1)
      as (Hr2 & Hf2 & Hj2).
    destruct (run E (on_adapter (scrapeFn url (with_signal scrapeOptions (ctx_signal ctx)))) w1)
      as [w2 [err|resp]] eqn:Hrun; cbn [fst] in Hr2, Hf2, Hj2.
    + set (x := mkAttempt url (Some (toError err))).
      assert (∃ w3, run E
                (Update (note x)
                   (bind (if a <? ctx_retries ctx
                          then bind math_random (λ jitter : Q,
                                 sleep (inject_Z (ctx_retryDelay ctx * (a + 1)) + jitter * 100)%Q)
                          else Ret tt)
                      (λ _, Ret (Some (toError err))))) w2 = (w3, inr (Some (toError err))) ∧
              store w3 = note x (store w2)) as (w3 & -> & Hs3).
      { cbn. destruct (a <? ctx_retries ctx); cbn.
        - destruct (query E MathRandom (env w2)) as [jitter e]. cbn.
          destruct (handle E (Sleep _) e) as [[] e']. by eexists.
        - by eexists. }
      destruct (IH (a + 1) (Some (toError err)) w3)
        as (w' & fails & ok & -> & Hj & Hlen & Hall & Hok).
      exists w', (x :: fails), ok. split_and!.
      * done.
      * rewrite Hj, Hs3. cbn. rewrite Hj2, Hs1. by rewrite <- app_assoc.
      * cbn. lia.
      * constructor; [by eexists|done].
      * rewrite Hs3 in Hok. cbn in Hok. rewrite Hr2, Hf2, Hs1 in Hok. done.
    + cbn. eexists _, [], [mkAttempt url None]. split_and!.
      * done.
      * cbn. by rewrite Hj2, Hs1.
      * cbn. lia.
      * done.
      * right. split_and!; [done|cbn; by rewrite Hf2, Hs1|].
        exists (result resp). cbn. by rewrite Hr2, Hs1.
Qed.


End Outcome.

(** A run against a backend that is up: one attempt, which succeeds. *)
Example scrapeWithRetry_online :
  let out := run (scripted true)
               (Retry.scrapeWithRetry (H := parser) scrape no_options (mkCtx 2 1000 None) "a")
               batch_start in
  out.2 = inr tt ∧
  journal (store out.1) = [mkAttempt "a" None] ∧
  url (H := parser) <$> batch_results (store out.1) !! "a" = Some "a" ∧
  batch_failed (store out.1) = ∅.
Proof. by vm_compute. Qed.

End RetryFacts.

(** ** The manager of browser sessions *)
Module WebActionsFacts.
Import Async WebActions WebSamples.

Local Arguments JsMap.get : simpl never.
Local Arguments JsMap.set : simpl never.
Local Arguments String.append : simpl never.

Section Facts.
Context (E : Environment wio) (PROFILES_DIR : string).
Implicit Types (w : World E (St := Manager)).

Ltac follow H := AsyncFacts.follow E H.

Lemma sessions_assign ref f m : sessions (assign ref f m) = sessions m.
Proof. unfold assign. by destruct (objects m !! ref). Qed.

(** A call that returns has the session it returns in the map, under the
    profile. *)
Lemma getOrCreateSession_registers p headless cdpUrl w w1 ref :
  run E (getOrCreateSession PROFILES_DIR p headless cdpUrl) w = (w1, inr ref) →
  JsMap.get p (sessions (store w1)) = Some ref.
Proof.
  intros Hrun.
  unfold getOrCreateSession, connectViaCDP, reuse, register, first_page_or_new,
    cursor_or_null, await_handle, await_done in Hrun.
  repeat follow Hrun; simplify_eq; cbn;
    rewrite ?sessions_assign; try done; apply JsMapFacts.get_set_eq.
Qed.

(** A call that finds a session in the map returns that session. *)
Lemma getOrCreateSession_reuses p headless cdpUrl w w1 ref out :
  JsMap.get p (sessions (store w)) = Some ref →
  run E (getOrCreateSession PROFILES_DIR p headless cdpUrl) w = (w1, inr out) →
  out = ref.
Proof.
  intros Hget Hrun. unfold getOrCreateSession, reuse, await_handle in Hrun.
  cbn in Hrun. rewrite Hget in Hrun.
  repeat follow Hrun; by simplify_eq.
Qed.

(** Calls that do not overlap share the session: a call that begins after
    another one for the same profile has returned, returns the same
    session, whatever the outside has done in between. *)
Lemma sequential_calls_share_session p h1 c1 h2 c2 w w1 w2 ref out (e : Env E) :
  run E (getOrCreateSession PROFILES_DIR p h1 c1) w = (w1, inr ref) →
  run E (getOrCreateSession PROFILES_DIR p h2 c2) (with_env E w1 e) = (w2, inr out) →
  out = ref.
Proof.
  intros Hfirst Hsecond.
  apply (getOrCreateSession_reuses p h2 c2 (with_env E w1 e) w2 ref out); [|done].
  by apply (getOrCreateSession_registers p h1 c1 w w1).
Qed.

(** Two calls for a profile that has no session, the second made before the
    first has resumed: both find the map empty and both ask for a browser
    context on the profile's directory. *)
Lemma overlapping_calls_both_launch p h1 h2 w :
  JsMap.get p (sessions (store w)) = None →
  let userDataDir := PROFILES_DIR +:+ "/" +:+ p +:+ "/browser-data" in
  let started := spawn E [getOrCreateSession PROFILES_DIR p h1 None;
                          getOrCreateSession PROFILES_DIR p h2 None] w in
  store started.1 = store w ∧
  calls started.1 =
    calls w ++ [LaunchPersistentContext userDataDir (negb (negb (default true h1)));
                LaunchPersistentContext userDataDir (negb (negb (default true h2)))] ∧
  is_waiting <$> started.2 = [true; true].
Proof.
  intros Hget. unfold getOrCreateSession, await_handle. cbn.
  rewrite Hget. cbn. rewrite Hget. cbn. by rewrite <- app_assoc.
Qed.

End Facts.

(** C6, the run that fails it. Two calls of [getOrCreateSession] for one
    profile, the second made before the first has resumed, with an outside in
    which every request succeeds: each call returns a session object of its
    own, with a browser context of its own; the map ends with the second
    object, and the context of the first is open and out of the manager's
    reach. *)
Example overlapping_calls_make_two_sessions :
  two_calls.2 = [Done (inr 0%nat); Done (inr 1%nat)] ∧
  context <$> objects (store two_calls.1) = [0%nat; 3%nat] ∧
  sessions (store two_calls.1) = [("work", 1%nat)] ∧
  calls (run obliging (closeSession "work") two_calls.1).1 =
    calls two_calls.1 ++ [CloseContext 3].
Proof. by vm_compute. Qed.

(** *** Closing, keeping and replacing sessions *)

Import SessionSamples.

Local Arguments JsMap.delete : simpl never.

Section Lifecycle.
Context (E : Environment wio) (PROFILES_DIR : string).
Implicit Types (w : World E (St := Manager)) (m : Manager).

Ltac follow H := AsyncFacts.follow E H.

(** Every session the map names is an object there is. *)
Definition consistent m : Prop :=
  Forall (λ entry, is_Some (objects m !! entry.2)) (sessions m).

Lemma consistent_lookup m p ref :
  consistent m → JsMap.get p (sessions m) = Some ref → is_Some (objects m !! ref).
Proof.
  intros Hc Hget. apply JsMapFacts.get_Some_elem in Hget.
  unfold consistent in Hc. rewrite Forall_forall in Hc. exact (Hc (p, ref) Hget).
Qed.

(** The request that closes a session: a session attached over CDP is
    disconnected from its browser, any other has its context closed. *)
Definition closing_request (s : WebSession) : Req :=
  match cdpBrowser s with
  | Some browser => CloseBrowser browser
  | None => CloseContext (context s)
  end.

Lemma closeSession_known p ref s w :
  JsMap.get p (sessions (store w)) = Some ref →
  objects (store w) !! ref = Some s →
  ∃ w1, run E (closeSession p) w = (w1, inr true) ∧
    calls w1 = calls w ++ [closing_request s] ∧
    sessions (store w1) = JsMap.delete p (sessions (store w)) ∧
    objects (store w1) = objects (store w).
Proof.
  intros Hget Hobj. unfold closeSession, closing_request. cbn. rewrite Hget, Hobj. cbn.
  destruct (cdpBrowser s); cbn;
    match goal with |- context [handle E ?r ?e] => destruct (handle E r e) as [? ?] end;
    cbn; by eexists.
Qed.

Lemma closeSession_unknown p w :
  JsMap.get p (sessions (store w)) = None →
  run E (closeSession p) w = (w, inr false).
Proof. intros Hget. unfold closeSession. cbn. by rewrite Hget. Qed.

(** [closeSession] never throws and tells whether there was a session.
    For a profile without session it returns [false], asks nothing and
    changes nothing. For a profile with a session it returns [true] after
    exactly one request (the browser is disconnected when the session was
    attached over CDP, the context is closed otherwise), whatever that
    request answers; the profile is then gone from the map and every other
    profile is as before. *)
Theorem closeSession_contract p w :
  consistent (store w) →
  match JsMap.get p (sessions (store w)) with
  | None => run E (closeSession p) w = (w, inr false)
  | Some ref =>
      ∃ s w1, objects (store w) !! ref = Some s ∧
        run E (closeSession p) w = (w1, inr true) ∧
        calls w1 = calls w ++ [closing_request s] ∧
        JsMap.get p (sessions (store w1)) = None ∧
        (∀ other, other ≠ p →
           JsMap.get other (sessions (store w1)) = JsMap.get other (sessions (store w))) ∧
        objects (store w1) = objects (store w)
  end.
Proof.
  intros Hc. destruct (JsMap.get p (sessions (store w))) as [ref|] eqn:Hget.
  - destruct (consistent_lookup _ _ _ Hc Hget) as [s Hs].
    destruct (closeSession_known p ref s w Hget Hs) as (w1 & Hrun & Hcalls & Hsess & Hobj).
    exists s, w1. split_and!; [done..| | |done].
    + rewrite Hsess. apply JsMapFacts.get_delete_eq.
    + intros other Hne. rewrite Hsess. by apply JsMapFacts.get_delete_ne.
  - by apply closeSession_unknown.
Qed.

(** The requests that close something. *)
Definition is_close (r : Req) : bool :=
  match r with
  | CloseContext _ | CloseBrowser _ => true
  | _ => false
  end.

(** A call of [getOrCreateSession] that throws leaves the manager as it
    found it when the profile had no session: nothing is registered. It
    also closes nothing, in any run: what a failed call has launched or
    attached to stays open. *)
Theorem failed_creation_registers_nothing p headless cdpUrl w :
  let out := run E (getOrCreateSession PROFILES_DIR p headless cdpUrl) w in
  (∃ added, calls out.1 = calls w ++ added ∧ Forall (λ r, is_close r = false) added) ∧
  (JsMap.get p (sessions (store w)) = None → ∀ e, out.2 = inl e → store out.1 = store w).
Proof.
  intros out. subst out.
  destruct (run E (getOrCreateSession PROFILES_DIR p headless cdpUrl) w) as [w1 res] eqn:Hrun.
  cbn [fst snd].
  unfold getOrCreateSession, connectViaCDP, reuse, register, first_page_or_new,
    cursor_or_null, await_handle, await_done in Hrun.
  cbn in Hrun.
  destruct (JsMap.get p (sessions (store w))) as [ref|] eqn:Hget.
  - repeat follow Hrun; simplify_eq/=; (split; [|done]);
      first [ by exists []; rewrite app_nil_r
            | eexists; split; [reflexivity|]; by repeat constructor ].
  - repeat follow Hrun; simplify_eq/=; rewrite <- ?app_assoc;
      (split; [|by intros _ ? [=]]);
      first [ by exists []; rewrite app_nil_r
            | eexists; split; [reflexivity|]; by repeat constructor ].
Qed.


(** The requests that start a browser or attach to one. *)
Definition is_launch (r : Req) : bool :=
  match r with
  | LaunchPersistentContext _ _ | ConnectOverCDP _ => true
  | _ => false
  end.

(** A call for a profile without session that returns has begun with a
    launch or an attachment and returns a session object made by this
    call. *)
Lemma getOrCreateSession_creates p headless cdpUrl w w2 out :
  JsMap.get p (sessions (store w)) = None →
  run E (getOrCreateSession PROFILES_DIR p headless cdpUrl) w = (w2, inr out) →
  out = length (objects (store w)) ∧
  (∃ s', objects (store w2) = objects (store w) ++ [s'] ∧ profileId s' = p) ∧
  ∃ first rest, calls w2 = calls w ++ first :: rest ∧ is_launch first = true.
Proof.
  intros Hget Hrun.
  unfold getOrCreateSession, connectViaCDP, reuse, register, first_page_or_new,
    cursor_or_null, await_handle, await_done in Hrun.
  cbn in Hrun. rewrite Hget in Hrun.
  repeat follow Hrun; simplify_eq/=; rewrite <- ?app_assoc;
    (split_and!; [done|by eexists|by eexists _, _]).
Qed.

(** Closing a session and asking for the profile again makes a new
    session: the second call starts a browser or attaches to one anew, and
    the session it returns is an object that was not there before, so it is
    not the one that was closed. *)
Theorem session_after_close_is_new p headless cdpUrl ref w w2 out (e : Env E) :
  consistent (store w) →
  JsMap.get p (sessions (store w)) = Some ref →
  let w1 := (run E (closeSession p) w).1 in
  run E (getOrCreateSession PROFILES_DIR p headless cdpUrl) (with_env E w1 e) = (w2, inr out) →
  out ≠ ref ∧
  objects (store w) !! out = None ∧
  JsMap.get p (sessions (store w2)) = Some out ∧
  ∃ first rest, calls w2 = calls w1 ++ first :: rest ∧ is_launch first = true.
Proof.
  intros Hc Hget w1 Hrun. subst w1.
  destruct (consistent_lookup _ _ _ Hc Hget) as [s Hs].
  destruct (closeSession_known p ref s w Hget Hs) as (w1 & Hclose & Hcalls & Hsess & Hobj).
  rewrite Hclose in Hrun |- *. cbn [fst] in *.
  assert (Hnone : JsMap.get p (sessions (store (with_env E w1 e))) = None).
  { cbn. rewrite Hsess. apply JsMapFacts.get_delete_eq. }
  destruct (getOrCreateSession_creates p headless cdpUrl _ w2 out Hnone Hrun)
    as (Hout & _ & Hlaunch).
  cbn in Hout. rewrite Hobj in Hout.
  apply lookup_lt_Some in Hs.
  split_and!.
  - lia.
  - apply lookup_ge_None. lia.
  - by apply (getOrCreateSession_registers E PROFILES_DIR p headless cdpUrl (with_env E w1 e)).
  - exact Hlaunch.
Qed.

End Lifecycle.

Lemma two_profiles_consistent : consistent (store two_profiles).
Proof. unfold consistent. apply (bool_decide_unpack _). by vm_compute. Qed.

Lemma closeSession_contract_witness :
  match JsMap.get "home" (sessions (store two_profiles)) with
  | None => run slow_clock (closeSession "home") two_profiles = (two_profiles, inr false)
  | Some ref =>
      ∃ s w1, objects (store two_profiles) !! ref = Some s ∧
        run slow_clock (closeSession "home") two_profiles = (w1, inr true) ∧
        calls w1 = calls two_profiles ++ [closing_request s] ∧
        JsMap.get "home" (sessions (store w1)) = None ∧
        (∀ other, other ≠ "home" →
           JsMap.get other (sessions (store w1)) =
             JsMap.get other (sessions (store two_profiles))) ∧
        objects (store w1) = objects (store two_profiles)
  end.
Proof.
  apply (closeSession_contract slow_clock "home" two_profiles).
  apply two_profiles_consistent.
Defined.


Lemma session_after_close_is_new_witness :
  ∃ w2 out,
    run slow_clock (getOrCreateSession profiles "work" None None)
      (with_env slow_clock (run slow_clock (closeSession "work") two_profiles).1
         (env two_profiles)) = (w2, inr out) ∧
    out ≠ 0%nat ∧
    objects (store two_profiles) !! out = None ∧
    JsMap.get "work" (sessions (store w2)) = Some out ∧
    ∃ first rest,
      calls w2 = calls (run slow_clock (closeSession "work") two_profiles).1 ++ first :: rest ∧
      is_launch first = true.
Proof.
  eexists _, _. split; [by vm_compute|].
  apply (session_after_close_is_new slow_clock profiles "work" None None 0%nat two_profiles
           _ _ (env two_profiles)).
  - apply two_profiles_consistent.
  - reflexivity.
  - by vm_compute.
Defined.

End WebActionsFacts.

(** ** Random picks and delays *)
Module StealthFacts.
Import Stealth.

(** The integer part of [random * n] for [random] in [[0, 1)]. *)
Lemma floor_scaled (random : Q) (n : Z) :
  (0 <= random)%Q → (random < 1)%Q → 0 < n →
  0 ≤ Qfloor (random * inject_Z n) < n.
Proof.
  intros H0 H1 Hn.
  assert (Hq : (inject_Z 0 < inject_Z n)%Q) by (by rewrite <- Zlt_Qlt).
  change (inject_Z 0) with 0%Q in Hq.
  split.
  - change 0 with (Qfloor 0). apply Qfloor_resp_le.
    apply Qmult_le_0_compat; [done|]. by apply Qlt_le_weak.
  - rewrite Zlt_Qlt.
    eapply Qle_lt_trans; [apply Qfloor_le|].
    assert (Hlt : (random * inject_Z n < 1 * inject_Z n)%Q)
      by (by apply Qmult_lt_compat_r).
    by rewrite Qmult_1_l in Hlt.
Qed.

Lemma pick_in_pool {A} (random : Q) (pool : list A) :
  (0 <= random)%Q → (random < 1)%Q → pool ≠ [] →
  ∃ x, pick random pool = Some x ∧ x ∈ pool.
Proof.
  intros H0 H1 Hne. unfold pick.
  assert (Hlen : 0 < Z.of_nat (length pool)) by (destruct pool; [done|simpl; lia]).
  destruct (floor_scaled random _ H0 H1 Hlen) as [Hlo Hhi].
  destruct (Z.ltb_spec (Qfloor (random * inject_Z (Z.of_nat (length pool)))) 0); [lia|].
  destruct (lookup_lt_is_Some_2 pool
              (Z.to_nat (Qfloor (random * inject_Z (Z.of_nat (length pool))))))
    as [x Hx]; [lia|].
  exists x. split; [done|]. by eapply list_elem_of_lookup_2.
Qed.





End StealthFacts.

(** ** Cleanup of pending requests, and the lifetime a response grants *)
Module PendingCleanupFacts.
Import PendingCleanup.

Lemma sweep_from (now : Z) (visit m : JsMap.jsmap Pending) :
  foldl (λ m p, if stale now p.2 then JsMap.delete p.1 m else m) m visit =
    filter (λ p, p.1 ∉ (filter (λ q, stale now q.2 = true) visit).*1) m.
Proof.
  revert m. induction visit as [|[url entry] visit IH]; intros m.
  - simpl. symmetry. apply filter_all, Forall_forall. intros p _. apply not_elem_of_nil.
  - cbn [foldl fst snd]. rewrite IH. destruct (stale now entry) eqn:Hs.
    + rewrite filter_cons_True by done. unfold JsMap.delete.
      rewrite list_filter_filter. apply list_filter_iff. intros p.
      rewrite fmap_cons, not_elem_of_cons. simpl. tauto.
    + rewrite filter_cons_False; [done|]. simpl. congruence.
Qed.

(** A run of the cleanup removes exactly the stale requests: those that
    started more than 30 seconds before [now]. The others, a request that
    started exactly 30 seconds ago among them, stay, in their order. A later
    run does everything an earlier one did. *)
Theorem sweep_removes_exactly_stale now (pendingRequests : JsMap.jsmap Pending) :
  JsMap.wf pendingRequests →
  sweep now pendingRequests =
    filter (λ p, now - startedAt p.2 ≤ STALE_PENDING_THRESHOLD_MS) pendingRequests ∧
  (∀ url, JsMap.get url (sweep now pendingRequests) =
            match JsMap.get url pendingRequests with
            | Some entry =>
                if decide (now - startedAt entry ≤ 30000) then Some entry else None
            | None => None
            end) ∧
  (∀ later, now ≤ later →
     sweep later (sweep now pendingRequests) = sweep later pendingRequests).
Proof.
  intros Hwf.
  assert (Hsweep : ∀ t m, JsMap.wf m →
            sweep t m = filter (λ p, t - startedAt p.2 ≤ STALE_PENDING_THRESHOLD_MS) m).
  { intros t m Hm. unfold sweep. rewrite sweep_from.
    apply filter_iff_in. intros [url entry] Hin. simpl.
    unfold stale. rewrite list_elem_of_fmap. split.
    - intros Hout. destruct (Z.ltb_spec STALE_PENDING_THRESHOLD_MS (t - startedAt entry)) as [Hlt|]; [|done].
      exfalso. apply Hout. exists (url, entry). split; [done|].
      apply list_elem_of_filter. split; [|done]. simpl.
      by apply Z.ltb_lt.
    - intros Hle [[url' entry'] [Heq Hin']]. simpl in Heq. subst url'.
      apply list_elem_of_filter in Hin' as [Hst Hin']. simpl in Hst.
      apply Z.ltb_lt in Hst.
      assert (entry' = entry); [|subst; lia].
      unfold JsMap.wf, JsMap.keys in Hm.
      apply list_elem_of_lookup in Hin as [i Hi]. apply list_elem_of_lookup in Hin' as [j Hj].
      assert (i = j).
      { apply (NoDup_lookup _ i j url Hm); rewrite list_lookup_fmap.
        - by rewrite Hi. - by rewrite Hj. }
      subst. congruence. }
  assert (Hwf' : JsMap.wf (sweep now pendingRequests)).
  { rewrite Hsweep by done. by apply JsMapFacts.wf_filter. }
  split_and!.
  - by apply Hsweep.
  - intros url. rewrite Hsweep by done. clear Hwf' Hsweep.
    induction pendingRequests as [|[k v] m IH]; [done|].
    unfold JsMap.wf, JsMap.keys in Hwf. rewrite fmap_cons in Hwf.
    apply NoDup_cons in Hwf as [Hk Hm]. specialize (IH Hm).
    unfold STALE_PENDING_THRESHOLD_MS in *. simpl.
    destruct (decide (k = url)) as [->|Hne].
    + destruct (decide (now - startedAt v ≤ 30000)) as [Hf|Hs].
      * rewrite filter_cons_True by done. simpl. by rewrite decide_True.
      * rewrite filter_cons_False by done. rewrite IH.
        destruct (JsMap.get url m) as [e|] eqn:Hg; [|done].
        exfalso. apply Hk. apply JsMapFacts.get_Some_elem in Hg.
        by apply (list_elem_of_fmap_2 fst) in Hg.
    + destruct (decide (now - startedAt v ≤ 30000)) as [Hf|Hs].
      * rewrite filter_cons_True by done. simpl. by rewrite decide_False.
      * by rewrite filter_cons_False by done.
  - intros later Hlater. rewrite (Hsweep later _ Hwf'), !Hsweep by done.
    rewrite list_filter_filter. apply list_filter_iff. intros p.
    unfold STALE_PENDING_THRESHOLD_MS. lia.
Qed.

Definition in_flight : JsMap.jsmap Pending :=
  [("https://a.example/", mkPending 1000); ("https://b.example/", mkPending 40000);
   ("https://c.example/", mkPending 10000)].

Lemma sweep_removes_exactly_stale_witness :
  sweep 40000 in_flight =
    filter (λ p, 40000 - startedAt p.2 ≤ STALE_PENDING_THRESHOLD_MS) in_flight ∧
  (∀ url, JsMap.get url (sweep 40000 in_flight) =
            match JsMap.get url in_flight with
            | Some entry =>
                if decide (40000 - startedAt entry ≤ 30000) then Some entry else None
            | None => None
            end) ∧
  (∀ later, 40000 ≤ later →
     sweep later (sweep 40000 in_flight) = sweep later in_flight).
Proof.
  apply (sweep_removes_exactly_stale 40000 in_flight).
  unfold JsMap.wf. apply (bool_decide_unpack _). by vm_compute.
Defined.

End PendingCleanupFacts.

Module CacheControlFacts.
Import CacheControl.

Local Arguments String.append !_ _ /.

Lemma strip_prefix_Some p : ∀ s rest, strip_prefix p s = Some rest → s = p +:+ rest.
Proof.
  induction p as [|a p IH]; intros s rest.
  - destruct s; cbn; congruence.
  - destruct s as [|b s]; cbn; [done|].
    destruct (decide (a = b)) as [->|]; [|done].
    intros Hs. f_equal. by apply IH.
Qed.

Lemma strip_prefix_app p rest : strip_prefix p (p +:+ rest) = Some rest.
Proof. induction p as [|a p IH]; [by destruct rest|]. cbn. by rewrite decide_True. Qed.

Lemma leading_digits_split s : ∃ rest,
  s = leading_digits s +:+ rest ∧ leading_digits (leading_digits s +:+ rest) = leading_digits s.
Proof.
  induction s as [|c s [rest [IH1 IH2]]]; [by exists ""|].
  cbn. destruct (is_digit c) eqn:Hc.
  - exists rest. cbn. rewrite Hc. split; by f_equal.
  - exists (String c s). cbn. by rewrite Hc.
Qed.

Lemma leading_digits_stop a c b b' :
  is_digit c = false →
  leading_digits (a +:+ String c b) = leading_digits (a +:+ String c b').
Proof.
  intros Hc. induction a as [|x a IH]; cbn; [by rewrite Hc|].
  destruct (is_digit x); [by f_equal|done].
Qed.

(** What the pattern finds at the very start of a string. *)
Definition here (s : string) : option string :=
  leading_digits <$> strip_prefix "max-age=" s.

Lemma here_stable u r :
  u ≠ "" → here (u +:+ "max-age=" +:+ r) = here (u +:+ "max-age=").
Proof.
  intros Hu. unfold here.
  do 8 (destruct u as [|? u]; cbn; [try done; by repeat case_decide|];
        case_decide; [|done]).
  cbn. f_equal. by apply leading_digits_stop.
Qed.

Lemma match_max_age_sound cc ds :
  match_max_age cc = Some ds →
  ∃ pre post, cc = pre +:+ "max-age=" +:+ ds +:+ post ∧ ds ≠ "" ∧
    leading_digits (ds +:+ post) = ds.
Proof.
  induction cc as [|c cc IH]; [done|]. cbn [match_max_age]. fold (here (String c cc)).
  destruct (here (String c cc)) as [[|d ds']|] eqn:Hhere.
  - intros H. destruct (IH H) as (pre & post & -> & ? & ?). by exists (String c pre), post.
  - intros [= <-]. unfold here in Hhere.
    destruct (strip_prefix "max-age=" (String c cc)) as [rest|] eqn:Hstrip; [|done].
    apply strip_prefix_Some in Hstrip. cbn in Hhere. injection Hhere as Hhere.
    destruct (leading_digits_split rest) as (post & Hrest & Hlead).
    exists "", post. rewrite <- Hhere. split_and!; [|by rewrite Hhere|done].
    rewrite <- Hrest. exact Hstrip.
  - intros H. destruct (IH H) as (pre & post & -> & ? & ?). by exists (String c pre), post.
Qed.

Lemma match_max_age_cons c s :
  match_max_age (String c s) =
    match here (String c s) with
    | Some (String d ds) => Some (String d ds)
    | _ => match_max_age s
    end.
Proof. done. Qed.

Lemma match_at_start s ds : ds ≠ "" → here s = Some ds → match_max_age s = Some ds.
Proof.
  intros Hds Hs. destruct s as [|c s]; [done|].
  cbn [match_max_age]. fold (here (String c s)). rewrite Hs. by destruct ds.
Qed.

Lemma match_max_age_first pre ds post :
  ds ≠ "" →
  leading_digits (ds +:+ post) = ds →
  match_max_age (pre +:+ "max-age=") = None →
  match_max_age (pre +:+ "max-age=" +:+ ds +:+ post) = Some ds.
Proof.
  intros Hds Hlead. induction pre as [|c pre IH].
  - intros _. apply match_at_start; [done|].
    unfold here. change ("" +:+ "max-age=" +:+ ds +:+ post) with ("max-age=" +:+ (ds +:+ post)).
    rewrite strip_prefix_app. cbn [fmap option_fmap option_map]. by rewrite Hlead.
  - intros Hnone.
    pose proof (here_stable (String c pre) (ds +:+ post) ltac:(done)) as Hst.
    change (String c pre +:+ "max-age=" +:+ ds +:+ post)
      with (String c (pre +:+ "max-age=" +:+ ds +:+ post)) in *.
    change (String c pre +:+ "max-age=") with (String c (pre +:+ "max-age=")) in *.
    rewrite match_max_age_cons in Hnone |- *. rewrite Hst.
    destruct (here (String c (pre +:+ "max-age="))) as [[|d ds']|];
      [by apply IH|done|by apply IH].
Qed.


(** Three headers, evaluated: the usual one; one whose first directive is
    [max-age=0], which hides a later one; and [s-maxage] and a value
    that is no number, which the pattern does not match. *)
Example max_age_samples :
  parseCacheControlMaxAge (Some "public, max-age=3600, must-revalidate") = Some 3600000 ∧
  parseCacheControlMaxAge (Some "max-age=0, max-age=60") = None ∧
  parseCacheControlMaxAge (Some "s-maxage=600, max-age=one") = None ∧
  parseCacheControlMaxAge None = None.
Proof. by vm_compute. Qed.

End CacheControlFacts.

(** ** Idle sessions and shutdown *)
Module SessionCleanupFacts.
Import Async WebActions WebSamples SessionSamples WebActionsFacts SessionCleanup.

Local Arguments JsMap.get : simpl never.
Local Arguments JsMap.set : simpl never.
Local Arguments JsMap.delete : simpl never.
Local Arguments String.append : simpl never.

Section Facts.
Context (E : Environment wio).
Implicit Types (w : World E (St := Manager)) (m : Manager).

(** The closing requests for the profiles [ids], in their order. *)
Definition closings (ids : list string) m : list Req :=
  omap (λ id, ref ← JsMap.get id (sessions m); closing_request <$> objects m !! ref) ids.

Lemma close_each_run ids : ∀ w,
  NoDup ids →
  (∀ id, id ∈ ids → ∃ ref, JsMap.get id (sessions (store w)) = Some ref ∧
                           is_Some (objects (store w) !! ref)) →
  ∃ w1, run E (close_each ids) w = (w1, inr tt) ∧
    sessions (store w1) = filter (λ entry, entry.1 ∉ ids) (sessions (store w)) ∧
    objects (store w1) = objects (store w) ∧
    calls w1 = calls w ++ closings ids (store w).
Proof.
  induction ids as [|id ids IH]; intros w Hnd Hall.
  - exists w. cbn. split_and!; [done| |done|by rewrite app_nil_r].
    symmetry. apply filter_all, Forall_forall. intros entry _. apply not_elem_of_nil.
  - apply NoDup_cons in Hnd as [Hid Hnd].
    destruct (Hall id) as (ref & Hget & [s Hs]); [left|].
    cbn [close_each run]. destruct (query E (ConsoleLog _) (env w)) as [[] e1].
    rewrite AsyncFacts.run_bind.
    destruct (closeSession_known E id ref s (with_env E w e1) Hget Hs)
      as (w2 & -> & Hcalls & Hsess & Hobj).
    destruct (IH w2 Hnd) as (w3 & -> & Hsess3 & Hobj3 & Hcalls3).
    { intros id' Hin. destruct (Hall id') as (ref' & Hget' & Hs'); [by right|].
      exists ref'. rewrite Hsess, Hobj. split; [|done].
      rewrite JsMapFacts.get_delete_ne; [done|]. intros ->. done. }
    exists w3. split_and!; [done| | |].
    + rewrite Hsess3, Hsess. unfold JsMap.delete. rewrite list_filter_filter.
      apply list_filter_iff. intros entry. rewrite not_elem_of_cons. cbn. tauto.
    + by rewrite Hobj3, Hobj.
    + rewrite Hcalls3, Hcalls. cbn [with_env calls]. rewrite <- app_assoc. f_equal.
      unfold closings. cbn [omap list_omap]. rewrite Hget. cbn. rewrite Hs. cbn. f_equal.
      apply list_omap_ext, Forall_Forall2_diag, Forall_forall. intros id' Hin.
      rewrite Hsess, Hobj. rewrite JsMapFacts.get_delete_ne; [done|]. intros ->. done.
Qed.

Lemma get_filter_out (ids : list string) (sess : JsMap.jsmap nat) p :
  p ∉ ids → JsMap.get p (filter (λ entry, entry.1 ∉ ids) sess) = JsMap.get p sess.
Proof.
  intros Hout. induction sess as [|[k ref] sess IH]; [done|].
  destruct (decide (k ∈ ids)) as [Hin|Hnin].
  - rewrite filter_cons_False by (cbn; tauto).
    unfold JsMap.get at 2. fold (JsMap.get (V := nat)).
    rewrite decide_False; [done|]. by intros ->.
  - rewrite filter_cons_True by done.
    unfold JsMap.get. fold (JsMap.get (V := nat)). by rewrite IH.
Qed.

Lemma get_of_entry (sess : JsMap.jsmap nat) p ref :
  JsMap.wf sess → (p, ref) ∈ sess → JsMap.get p sess = Some ref.
Proof.
  unfold JsMap.wf, JsMap.keys. induction sess as [|[k v] sess IH]; intros Hwf Hin.
  - by apply elem_of_nil in Hin.
  - rewrite fmap_cons in Hwf. apply NoDup_cons in Hwf as [Hk Hwf].
    unfold JsMap.get. fold (JsMap.get (V := nat)).
    apply elem_of_cons in Hin as [[= -> ->]|Hin]; [by rewrite decide_True|].
    rewrite decide_False; [by apply IH|].
    intros ->. apply Hk. by apply (list_elem_of_fmap_2 fst) in Hin.
Qed.

Lemma expired_spec now m p :
  JsMap.wf (sessions m) →
  p ∈ expired now m ↔
    ∃ ref s, JsMap.get p (sessions m) = Some ref ∧ objects m !! ref = Some s ∧
             idle now s = true.
Proof.
  intros Hwf. unfold expired. rewrite list_elem_of_omap. split.
  - intros ([k ref] & Hin & Hf). cbn in Hf.
    destruct (objects m !! ref) as [s|] eqn:Hs; [|done].
    destruct (idle now s) eqn:Hidle; [|done]. injection Hf as ->.
    exists ref, s. split_and!; [by apply get_of_entry|done..].
  - intros (ref & s & Hget & Hs & Hidle). exists (p, ref). split.
    + by apply JsMapFacts.get_Some_elem.
    + cbn. by rewrite Hs, Hidle.
Qed.

Lemma expired_NoDup now m : JsMap.wf (sessions m) → NoDup (expired now m).
Proof.
  unfold JsMap.wf, JsMap.keys, expired.
  induction (sessions m) as [|[k ref] sess IH]; intros Hwf; [constructor|].
  rewrite fmap_cons in Hwf. apply NoDup_cons in Hwf as [Hk Hwf].
  cbn. destruct (objects m !! ref) as [s|]; [|by apply IH].
  destruct (idle now s); [|by apply IH]. cbn.
  apply NoDup_cons. split; [|by apply IH].
  rewrite list_elem_of_omap. intros ([k' ref'] & Hin & Hf). cbn in Hf.
  destruct (objects m !! ref'); [|done]. destruct (idle now _); [|done].
  injection Hf as ->. apply Hk. by apply (list_elem_of_fmap_2 fst) in Hin.
Qed.

(** The closing requests of a run of the cleanup: one for each idle
    session, in the map's order. *)
Definition idle_closings (now : Z) m : list Req :=
  omap (λ entry : string * nat,
          match objects m !! entry.2 with
          | Some s => if idle now s then Some (closing_request s) else None
          | None => None
          end) (sessions m).

Lemma closings_expired now m :
  JsMap.wf (sessions m) → closings (expired now m) m = idle_closings now m.
Proof.
  intros Hwf.
  assert (Hgen : ∀ sess : JsMap.jsmap nat,
            (∀ entry, entry ∈ sess → JsMap.get entry.1 (sessions m) = Some entry.2) →
            closings (omap (λ entry : string * nat,
                        match objects m !! entry.2 with
                        | Some session => if idle now session then Some entry.1 else None
                        | None => None
                        end) sess) m =
            omap (λ entry : string * nat,
                    match objects m !! entry.2 with
                    | Some s => if idle now s then Some (closing_request s) else None
                    | None => None
                    end) sess).
  { induction sess as [|[k ref] sess IH]; intros Hget; [done|].
    assert (Hrest : ∀ entry, entry ∈ sess → JsMap.get entry.1 (sessions m) = Some entry.2).
    { intros entry Hin. apply Hget. by right. }
    cbn. destruct (objects m !! ref) as [s|] eqn:Hs; [|by apply IH].
    destruct (idle now s); [|by apply IH].
    pose proof (Hget (k, ref) ltac:(left)) as Hk. cbn in Hk.
    unfold closings in *. cbn. rewrite Hk. cbn. rewrite Hs. cbn.
    f_equal. by apply IH. }
  apply Hgen. intros [k ref] Hin. by apply get_of_entry.
Qed.

(** A run of the idle cleanup on its own closes exactly the idle sessions.
    With [now] the time the run reads first, a session stays if and only if
    [now - lastActivity] is at most 30 minutes; each session that goes is
    closed by one request, as [closeSession] closes it, in the order of
    the map, and no other request is made. The run does not throw,
    whatever the closing requests answer. *)
Theorem cleanupIdle_closes_idle_sessions w :
  consistent (store w) →
  JsMap.wf (sessions (store w)) →
  let now := (query E DateNow (env w)).1 in
  ∃ w1, run E cleanupIdle w = (w1, inr tt) ∧
    calls w1 = calls w ++ idle_closings now (store w) ∧
    objects (store w1) = objects (store w) ∧
    ∀ p, JsMap.get p (sessions (store w1)) =
           match JsMap.get p (sessions (store w)) with
           | Some ref =>
               match objects (store w) !! ref with
               | Some s => if idle now s then None else Some ref
               | None => Some ref
               end
           | None => None
           end.
Proof.
  intros Hc Hwf now. subst now. unfold cleanupIdle. cbn [run].
  destruct (query E DateNow (env w)) as [now e1]. cbn [fst].
  destruct (close_each_run (expired now (store w)) (with_env E w e1))
    as (w1 & Hrun & Hsess & Hobj & Hcalls).
  { by apply expired_NoDup. }
  { intros id (ref & s & Hget & Hs & _)%expired_spec; [|done]. exists ref. split; [done|by exists s]. }
  exists w1. split_and!; [done| |done|].
  - rewrite Hcalls. cbn [with_env calls store]. by rewrite closings_expired.
  - intros p. rewrite Hsess. cbn [with_env store].
    destruct (decide (p ∈ expired now (store w))) as [Hin|Hout].
    + destruct (proj1 (expired_spec now (store w) p Hwf) Hin) as (ref & s & -> & -> & ->).
      apply JsMapFacts.get_None_keys. unfold JsMap.keys. rewrite list_elem_of_fmap.
      intros (entry & -> & Hentry). apply list_elem_of_filter in Hentry as [Hne _]. done.
    + rewrite get_filter_out by done.
      destruct (JsMap.get p (sessions (store w))) as [ref|] eqn:Hget; [|done].
      destruct (objects (store w) !! ref) as [s|] eqn:Hs; [|done].
      destruct (idle now s) eqn:Hidle; [|done].
      exfalso. apply Hout. apply expired_spec; [done|]. by exists ref, s.
Qed.

(** The request [stop] makes for a session: its context is closed, also
    when the session was attached over CDP. *)
Definition stop_request (s : WebSession) : Req := CloseContext (context s).

Lemma spawn_closings (ss : list WebSession) : ∀ w,
  spawn E (close_quietly <$> ss) w =
    (mkWorld (store w) (env w) (calls w ++ (stop_request <$> ss)),
     (λ s, Waiting (I := wio) (stop_request s) (λ _, Ret tt)) <$> ss).
Proof.
  induction ss as [|s ss IH]; intros w.
  - cbn. rewrite app_nil_r. by destruct w.
  - rewrite fmap_cons, AsyncFacts.spawn_cons. cbn [close_quietly advance fst snd].
    rewrite IH. cbn. by rewrite <- app_assoc.
Qed.

Lemma session_values_length m :
  consistent m → length (session_values m) = length (sessions m).
Proof.
  unfold consistent, session_values. induction 1 as [|[k ref] sess [s Hs] _ IH]; [done|].
  cbn in *. rewrite Hs. cbn. by rewrite IH.
Qed.

Lemma session_values_bound m : (length (session_values m) ≤ length (sessions m))%nat.
Proof.
  unfold session_values. induction (sessions m) as [|[k ref] sess IH]; [done|].
  cbn. destruct (objects m !! ref); cbn; lia.
Qed.

(** [stop] closes the context of every session and empties the map. All
    the closing requests are made at once, one per session in the map's
    order, before any is answered. Each asks for the session's context to
    be closed, also for a session attached over CDP, whose browser
    [closeSession] would disconnect instead. When every request has been
    answered, with or without error, the map is empty and [stop] returns. *)
Theorem stop_closes_every_context sched w :
  consistent (store w) →
  (length (sessions (store w)) ≤ length sched)%nat →
  (stop E sched w).2 = true ∧
  sessions (store (stop E sched w).1) = [] ∧
  objects (store (stop E sched w).1) = objects (store w) ∧
  calls (stop E sched w).1 = calls w ++ (stop_request <$> session_values (store w)) ∧
  length (session_values (store w)) = length (sessions (store w)).
Proof.
  intros Hc Hsched. unfold stop. rewrite spawn_closings. cbn [fst snd].
  set (ss := session_values (store w)).
  set (w1 := mkWorld (store w) (env w) (calls w ++ (stop_request <$> ss)) : World E).
  set (pool := (λ s, Waiting (I := wio) (stop_request s) (λ _, Ret tt)) <$> ss).
  pose (Inv := λ w' : World E (St := Manager), store w' = store w1 ∧ calls w' = calls w1).
  pose (G := λ (_ : nat) (w' w'' : World E (St := Manager)),
          store w'' = store w' ∧ calls w'' = calls w').
  pose (A := λ (_ : nat) (_ : unit) (_ : World E (St := Manager)), True).
  pose (final := λ _ : unit, True).
  assert (Hlen : (length ss ≤ length (sessions (store w)))%nat) by apply session_values_bound.
  destruct (AsyncFacts.drive_members E Inv G A final) with
    (sched := sched) (pool := pool) (states := replicate (length ss) (1%nat, tt)) (w := w1)
    as ([Hs Hcalls] & Hlen' & Hdone & _).
  - intros i w' w'' [? ?] [? ?]. split; congruence.
  - done.
  - done.
  - split; [unfold pool; by rewrite length_replicate, length_fmap|].
    intros j s m σ Hj Hσ. apply lookup_replicate in Hσ as [[= -> ->] _].
    split; [|done]. unfold pool in Hj. rewrite list_lookup_fmap in Hj.
    destruct (ss !! j) as [s0|]; [|done]. injection Hj as <-.
    apply AsyncFacts.member_Waiting. intros w' _ _. exists tt.
    cbn [resume]. destruct (handle E (stop_request s0) (env w')) as [x e']. cbn.
    by split_and!.
  - rewrite AsyncFacts.sum_list_replicate. lia.
  - assert (Hall : all_outcome (drive E sched pool w1).1.2 = AllFulfilled).
    { apply AsyncFacts.all_fulfilled. intros j Hj. apply Hdone. by rewrite <- Hlen'. }
    unfold all_outcome in Hall.
    destruct (rejection (drive E sched pool w1).1.2); [done|].
    destruct (waiting (drive E sched pool w1).1.2); [|done].
    cbn. rewrite Hs, Hcalls. cbn. split_and!; [done..|].
    by apply session_values_length.
Qed.

End Facts.
Lemma cleanupIdle_closes_idle_sessions_witness :
  ∃ w1, run slow_clock cleanupIdle two_profiles = (w1, inr tt) ∧
    calls w1 = calls two_profiles ++
      idle_closings (query slow_clock DateNow (env two_profiles)).1 (store two_profiles) ∧
    objects (store w1) = objects (store two_profiles) ∧
    ∀ p, JsMap.get p (sessions (store w1)) =
           match JsMap.get p (sessions (store two_profiles)) with
           | Some ref =>
               match objects (store two_profiles) !! ref with
               | Some s =>
                   if idle (query slow_clock DateNow (env two_profiles)).1 s
                   then None else Some ref
               | None => Some ref
               end
           | None => None
           end.
Proof.
  apply (cleanupIdle_closes_idle_sessions slow_clock two_profiles).
  - apply two_profiles_consistent.
  - unfold JsMap.wf. apply (bool_decide_unpack _). by vm_compute.
Defined.

(** The same run, evaluated: ["work"], idle for forty minutes, is closed;
    ["home"], idle for twenty, stays. *)
Example cleanupIdle_sample :
  JsMap.keys (sessions (store two_profiles)) = ["work"; "home"] ∧
  JsMap.keys (sessions (store (run slow_clock cleanupIdle two_profiles).1)) = ["home"] ∧
  calls (run slow_clock cleanupIdle two_profiles).1 = calls two_profiles ++ [CloseContext 1].
Proof. by vm_compute. Qed.

Lemma stop_closes_every_context_witness :
  (stop slow_clock [0%nat; 0%nat] two_profiles).2 = true ∧
  sessions (store (stop slow_clock [0%nat; 0%nat] two_profiles).1) = [] ∧
  objects (store (stop slow_clock [0%nat; 0%nat] two_profiles).1) =
    objects (store two_profiles) ∧
  calls (stop slow_clock [0%nat; 0%nat] two_profiles).1 =
    calls two_profiles ++ (stop_request <$> session_values (store two_profiles)) ∧
  length (session_values (store two_profiles)) = length (sessions (store two_profiles)).
Proof.
  apply (stop_closes_every_context slow_clock [0%nat; 0%nat] two_profiles).
  - apply two_profiles_consistent.
  - vm_compute. lia.
Defined.

End SessionCleanupFacts.

(** ** The adapter's browser *)
Module PlaywrightBrowserFacts.
Import Async PlaywrightBrowser.

Section Facts.
Context (E : Environment bio).
Implicit Types (w : World E (St := Lifecycle)).

Ltac follow H := AsyncFacts.follow E H.

(** [isAvailable] never throws and answers once for all. The first call
    probes: when it returns [true] it has made three requests, the import,
    the launch and the close of the probe browser, and when the import
    fails it returns [false] without a further request. The answer is kept:
    every later call returns it without a request, so an adapter found
    unavailable once stays unavailable. The probe browser is not the
    adapter's browser: [browser] is as it was. *)
Theorem isAvailable_answers_once w :
  let out := run E isAvailable w in
  ∃ b, out.2 = inr (Some b) ∧
    available (store out.1) = Some b ∧
    browser (store out.1) = browser (store w) ∧
    (∀ known, available (store w) = Some known → b = known ∧ out.1 = w) ∧
    (available (store w) = None → b = true →
       ∃ probe, calls out.1 = calls w ++ [ImportPlaywright; Launch []; Close probe]) ∧
    (available (store w) = None → is_Some (handle E ImportPlaywright (env w)).1 →
       b = false ∧ calls out.1 = calls w ++ [ImportPlaywright]) ∧
    (∀ e : Env E, run E isAvailable (with_env E out.1 e) = (with_env E out.1 e, inr (Some b))).
Proof.
  intros out. subst out.
  destruct (run E isAvailable w) as [w1 res] eqn:Hrun. cbn [fst snd].
  unfold isAvailable, import_playwright, launch, close_browser in Hrun. cbn in Hrun.
  destruct (available (store w)) as [known|] eqn:Hav.
  - cbn in Hrun. simplify_eq. exists known. split_and!; try done.
    + by intros ? [= <-].
    + intros e. unfold isAvailable. cbn. by rewrite Hav.
  - destruct (handle E ImportPlaywright (env w)) as [imported e1] eqn:Himport.
    repeat follow Hrun; simplify_eq/=;
      eexists; (split_and!; [done|done|done|done| | |]);
      try (by intros _ [=]);
      try (by intros _ [? [=]]);
      try (intros _ _; eexists; by rewrite <- !app_assoc);
      try (by intros _ _);
      intros e'; unfold isAvailable; cbn; done.
Qed.


End Facts.
End PlaywrightBrowserFacts.

(** ** The scraping use case *)
Module UseCaseFacts.
Import Async ScrapeIO UseCase.

Section Facts.
Context `{ContentParser} {I : Interface} {St : Type} (E : Environment I).
Implicit Types (w : World E (St := St)) (s : ScraperPort (I := I) (St := St)).

(** What one turn of the loop comes to. *)
Lemma run_attempt s fallback url o w :
  let out := run E (attempt s fallback url o) w in
  (∃ r wm, out.2 = inr (Some r) ∧ run E (scrape s url o) wm = (out.1, inr r)) ∨
  out.2 = inr None ∨
  (fallback = false ∧ ∃ e, out.2 = inl e).
Proof.
  intros out. subst out. unfold attempt.
  rewrite AsyncFacts.run_try_catch, AsyncFacts.run_bind.
  destruct (run E (isAvailable s) w) as [w1 [e|[|]]].
  - destruct fallback; cbn; eauto.
  - rewrite AsyncFacts.run_bind.
    destruct (run E (scrape s url o) w1) as [w2 [e|r]] eqn:Hs.
    + destruct fallback; cbn; eauto.
    + cbn. left. by exists r, w1.
  - cbn. auto.
Qed.

Lemma run_try_each browsers url o (otherwise : Task (I := I) St ScrapeResponse) : ∀ w,
  let out := run E (try_each browsers true url o otherwise) w in
  (∃ wm, run E otherwise wm = out) ∨
  (∃ s wm r, s ∈ browsers ∧ out.2 = inr r ∧ run E (scrape s url o) wm = out).
Proof.
  induction browsers as [|s browsers IH]; intros w out; subst out.
  - left. by exists w.
  - cbn [try_each]. rewrite AsyncFacts.run_bind.
    pose proof (run_attempt s true url o w) as Hatt. cbv zeta in Hatt.
    destruct (run E (attempt s true url o) w) as [w1 [e|[r|]]]; cbn [fst snd] in Hatt.
    + destruct Hatt as [(r & wm & [=] & _)|[[=]|[[=] _]]].
    + destruct Hatt as [(r' & wm & [= <-] & Hs)|[[=]|[[=] _]]].
      right. exists s, wm, r. split_and!; [left|done|done].
    + destruct (IH w1) as [Hl|(s' & wm & r & Hin & Hr & Hs)]; [by left|].
      right. exists s', wm, r. split_and!; [by right|done..].
Qed.

(** With [fallbackToFetch] on, as it is by default, nothing a browser
    scraper throws reaches the caller of [execute]: what the call comes
    to is what one call of [scrape] came to, either the last one, made of
    the HTTP scraper without [waitFor], or one made of a browser scraper
    that returned a response. When no browser is needed the call is that
    last call and no browser scraper is asked anything. *)
Theorem execute_falls_back browsers http url options w :
  default true (fallbackToFetch options) = true →
  let out := run E (execute browsers http url options) w in
  ((∃ wm, run E (scrape http url (without_waitFor (passedOn options))) wm = out) ∨
   (∃ s wm r, s ∈ browsers ∧ needsBrowser options = true ∧ out.2 = inr r ∧
              run E (scrape s url (passedOn options)) wm = out)) ∧
  (needsBrowser options = false →
     execute browsers http url options = scrape http url (without_waitFor (passedOn options))).
Proof.
  intros Hfb out. subst out. unfold execute. rewrite Hfb.
  destruct (needsBrowser options); (split; [|done]).
  - destruct (run_try_each browsers url (passedOn options)
                (scrape http url (without_waitFor (passedOn options))) w)
      as [Hl|(s & wm & r & Hin & Hr & Hs)]; [by left|].
    right. by exists s, wm, r.
  - left. by exists w.
Qed.


End Facts.

Import Playwright ScrapeSamples UseCaseSamples.

Lemma execute_falls_back_witness :
  let out := run (scripted false)
               (execute [playwright_port] failing_http example_url prefer_browser)
               (at_start false) in
  ((∃ wm, run (scripted false)
            (UseCase.scrape failing_http example_url (without_waitFor (passedOn prefer_browser)))
            wm = out) ∨
   (∃ s wm r, s ∈ [playwright_port] ∧ needsBrowser prefer_browser = true ∧ out.2 = inr r ∧
              run (scripted false) (UseCase.scrape s example_url (passedOn prefer_browser)) wm
                = out)) ∧
  (needsBrowser prefer_browser = false →
     execute [playwright_port] failing_http example_url prefer_browser =
       UseCase.scrape failing_http example_url (without_waitFor (passedOn prefer_browser))).
Proof.
  apply (execute_falls_back (H := parser) (scripted false) [playwright_port] failing_http
           example_url prefer_browser (at_start false)).
  reflexivity.
Defined.


(** The first run, evaluated: the page does not render, the error of the
    browser scraper is dropped, and the caller gets the HTTP scraper's. *)
Example execute_fallback_sample :
  (run (scripted false) (execute [playwright_port] failing_http example_url prefer_browser)
     (at_start false)).2 = inl (ErrorObj "fetch failed") ∧
  (run (scripted false) (execute [playwright_port] failing_http example_url browser_only)
     (at_start false)).2 = inl (ErrorObj "net::ERR_CONNECTION_REFUSED").
Proof. by vm_compute. Qed.

End UseCaseFacts.

